(** * DriveReader: text extraction from files of a remote drive

    A shallow embedding of [index.js] (the batch orchestrator [main], in
    its two versions), of [text-conversions/read-text.js] ([extractText],
    the six format extractors, [handleArrayBuffer] and [saveFile]) and of
    [auth/authorize.js] ([authorize] and [getNewToken]), together with the
    properties of the dispatch-and-extraction subsystem.

    Layout of the development:
    - JavaScript strings as sequences of UTF-16 code units, with the
      [String.prototype] methods the extractors use;
    - the POSIX flavour of Node's [path] module ([path.parse], [path.join]);
    - a tree-shaped file system with the three [fs] calls of [saveFile];
    - JavaScript values, errors and promises outcomes;
    - asynchronous functions as resumable programs ([Prog]) and an event
      loop that interleaves them;
    - the functions of the repository, then the theorems. *)

From Stdlib Require Import NArith ZArith Lia.
From Stdlib.Strings Require Import Ascii String.
From Stdlib.Strings Require Byte.
From stdpp Require Import gmap strings list fin_maps.

#[local] Set Warnings "-register-all".
#[local] Open Scope N_scope.
#[local] Open Scope list_scope.

(* ===================================================================== *)
(** * 1. JavaScript strings *)
(* ===================================================================== *)

(** A JavaScript string is a finite sequence of UTF-16 code units. *)
Abbreviation char16 := N.
Abbreviation jsstring := (list N).

(** String literals of the source: ASCII text of the Rocq string, one code
    unit per character. *)
Definition lit (s : string) : jsstring :=
  map N_of_ascii (list_ascii_of_string s).

#[global] Arguments lit : simpl never.

Definition LF : char16 := 10.
Definition COMMA : char16 := 44.
Definition SLASH : char16 := 47.
Definition DOT : char16 := 46.

Module Str.

(** ECMAScript [WhiteSpace] and [LineTerminator] code points, the ones
    [String.prototype.trim] strips.  All of them are in the basic plane. *)
Definition isWhiteSpace (c : char16) : bool :=
  (c =? 9) || (c =? 10) || (c =? 11) || (c =? 12) || (c =? 13) ||
  (c =? 32) || (c =? 160) || (c =? 5760) ||
  ((8192 <=? c) && (c <=? 8202)) ||
  (c =? 8232) || (c =? 8233) || (c =? 8239) || (c =? 8287) ||
  (c =? 12288) || (c =? 65279).

Fixpoint trimStart (s : jsstring) : jsstring :=
  match s with
  | [] => []
  | c :: s' => if isWhiteSpace c then trimStart s' else s
  end.

Definition trimEnd (s : jsstring) : jsstring := rev (trimStart (rev s)).

(** [s.trim()] *)
Definition trim (s : jsstring) : jsstring := trimEnd (trimStart s).

(** [s.split(sep)] for a separator of one code unit.  The result is never
    empty: [''.split(sep)] is [['']]. *)
Fixpoint split (sep : char16) (s : jsstring) : list jsstring :=
  match s with
  | [] => [[]]
  | c :: s' =>
      if c =? sep then [] :: split sep s'
      else match split sep s' with
           | l :: ls => (c :: l) :: ls
           | [] => [[c]]
           end
  end.

(** [arr.join(sep)] on an array of strings. *)
Fixpoint join (sep : jsstring) (l : list jsstring) : jsstring :=
  match l with
  | [] => []
  | [x] => x
  | x :: rest => x ++ sep ++ join sep rest
  end.

(** [s.replace(/c/g, by)], for a pattern that is the single character [c]
    and a replacement without [$] patterns: the string is scanned from the
    left and every occurrence is substituted. *)
Fixpoint replaceAll (c : char16) (by_ : jsstring) (s : jsstring) : jsstring :=
  match s with
  | [] => []
  | x :: s' => if x =? c then by_ ++ replaceAll c by_ s'
               else x :: replaceAll c by_ s'
  end.

(** Truthiness of a string: the empty string is the only falsy one. *)
Definition truthy (s : jsstring) : bool :=
  match s with [] => false | _ => true end.

End Str.

(** Lines 170-171 of [extractSpreadsheetText]:
    [csvText.split('\n').filter(line => line.trim())
            .map(line => line.replace(/,/g, ' | ')).join('\n')]. *)
Definition formattedText (csvText : jsstring) : jsstring :=
  let lines := Str.split LF csvText in
  Str.join [LF]
    (map (fun line => Str.replaceAll COMMA (lit " | ") line)
       (List.filter (fun line => Str.truthy (Str.trim line)) lines)).

(** The transformation in the words of the specification: split into lines,
    drop the lines made of white space only, put the delimiter between the
    comma-separated cells of each line, join with newlines. *)
Definition spec_blank (line : jsstring) : bool := forallb Str.isWhiteSpace line.

Definition spec_flatten (body : jsstring) : jsstring :=
  Str.join [LF]
    (map (fun line => Str.join (lit " | ") (Str.split COMMA line))
       (List.filter (fun line => negb (spec_blank line)) (Str.split LF body))).

(* ===================================================================== *)
(** * 2. Node's [path] module (POSIX flavour) *)
(* ===================================================================== *)

Module path.

(** The part of [path.parse]'s result that [saveFile] reads, with the two
    fields it is computed from. *)
Record ParsedPath := { base : jsstring; ext : jsstring; name : jsstring }.

Definition notSlash (c : char16) : bool := negb (c =? SLASH).
Definition notDot (c : char16) : bool := negb (c =? DOT).

Fixpoint takeWhile (f : char16 -> bool) (s : jsstring) : jsstring :=
  match s with
  | c :: s' => if f c then c :: takeWhile f s' else []
  | [] => []
  end.

Fixpoint dropWhile (f : char16 -> bool) (s : jsstring) : jsstring :=
  match s with
  | c :: s' => if f c then dropWhile f s' else s
  | [] => []
  end.

(** The last component of the path: [path.parse] scans the string from
    its end, skips the separators that end it, and stops at the first
    separator found after a character of the component. *)
Definition lastComponent (p : jsstring) : jsstring :=
  rev (takeWhile notSlash (dropWhile (fun c => c =? SLASH) (rev p))).

(** The extension starts at the last dot of the component, unless there
    is no dot, the dot is the component's first character, or the
    component is [..]. *)
Definition parse (p : jsstring) : ParsedPath :=
  let b := lastComponent p in
  let rb := rev b in
  match dropWhile notDot rb with
  | [] => {| base := b; ext := []; name := b |}
  | _ :: [] => {| base := b; ext := []; name := b |}
  | _ :: before =>
      if decide (b = [DOT; DOT]) then {| base := b; ext := []; name := b |}
      else {| base := b;
              ext := DOT :: rev (takeWhile notDot rb);
              name := rev before |}
  end.

(** [normalizeString]: the segments between separators are read from the
    left; empty segments and [.] are dropped, [..] removes the segment
    before it, and is kept when there is none to remove and the path is
    relative ([allowAboveRoot]).  [acc] holds the result so far, last
    segment first. *)
Fixpoint normalizeSegments (allowAboveRoot : bool) (acc : list jsstring)
    (segs : list jsstring) : list jsstring :=
  match segs with
  | [] => rev acc
  | s :: rest =>
      if decide (s = [] \/ s = [DOT]) then
        normalizeSegments allowAboveRoot acc rest
      else if decide (s = [DOT; DOT]) then
        match acc with
        | top :: acc' =>
            if decide (top = [DOT; DOT]) then
              normalizeSegments allowAboveRoot
                (if allowAboveRoot then s :: acc else acc) rest
            else normalizeSegments allowAboveRoot acc' rest
        | [] =>
            normalizeSegments allowAboveRoot
              (if allowAboveRoot then [s] else []) rest
        end
      else normalizeSegments allowAboveRoot (s :: acc) rest
  end.

Definition isAbsolute (p : jsstring) : bool :=
  match p with c :: _ => c =? SLASH | [] => false end.

Definition trailingSeparator (p : jsstring) : bool :=
  match rev p with c :: _ => c =? SLASH | [] => false end.

(** [path.normalize] *)
Definition normalize (p : jsstring) : jsstring :=
  match p with
  | [] => [DOT]
  | _ =>
      let res := Str.join [SLASH]
                   (normalizeSegments (negb (isAbsolute p)) []
                      (Str.split SLASH p)) in
      match res with
      | [] => if isAbsolute p then [SLASH]
              else if trailingSeparator p then [DOT; SLASH] else [DOT]
      | _ =>
          let res' := if trailingSeparator p then res ++ [SLASH] else res in
          if isAbsolute p then SLASH :: res' else res'
      end
  end.

(** [path.join(a, b)]: the non-empty arguments are joined with a
    separator and the result is normalized. *)
Definition join (a b : jsstring) : jsstring :=
  match a, b with
  | [], [] => [DOT]
  | [], _ => normalize b
  | _, [] => normalize a
  | _, _ => normalize (a ++ SLASH :: b)
  end.

End path.

(* ===================================================================== *)
(** * 3. JavaScript values, errors and promise outcomes *)
(* ===================================================================== *)

Abbreviation bytes := (list Byte.byte).

(** What [instanceof] can tell about an object: an [ArrayBuffer], a Node
    [Buffer], or any other object. *)
Inductive Class :=
| CPlain
| CArrayBuffer (content : bytes)
| CBuffer (content : bytes).

(** Values.  An object carries its class and its own properties; a function
    value stands for a method without arguments whose call, once awaited,
    settles as the given outcome.  Messages of errors and of the console are
    template literals: fixed text and interpolated values. *)
Inductive Value :=
| VUndefined
| VNull
| VBool (b : bool)
| VNum (n : Z)
| VStr (s : jsstring)
| VArr (items : list Value)
| VObj (c : Class) (props : list (string * Value))
| VFun (result : Outcome)
with Outcome :=
| Fulfilled (v : Value)
| Rejected (e : Error)
with Error :=
| MkError (message : list Piece)
with Piece :=
| TLit (s : string)
| TStr (s : jsstring)
| TVal (v : Value).

Definition message (e : Error) : list Piece :=
  match e with MkError m => m end.

Definition TypeError (what : string) : Error := MkError [TLit what].

(** [v.k]: reading a property throws on [undefined] and [null]. *)
Definition getProp (v : Value) (k : string) : Error + Value :=
  match v with
  | VUndefined | VNull =>
      inl (MkError [TLit "Cannot read properties of "; TVal v;
                    TLit " (reading '"; TLit k; TLit "')"])
  | VObj _ props =>
      inr (match List.find (fun kv => String.eqb (fst kv) k) props with
           | Some kv => snd kv
           | None => VUndefined
           end)
  | VStr s =>
      inr (if String.eqb k "length" then VNum (Z.of_nat (length s))
           else VUndefined)
  | VArr items =>
      inr (if String.eqb k "length" then VNum (Z.of_nat (length items))
           else VUndefined)
  | _ => inr VUndefined
  end.

#[global] Arguments getProp : simpl never.

(** [ToBoolean] *)
Definition truthy (v : Value) : bool :=
  match v with
  | VUndefined | VNull => false
  | VBool b => b
  | VNum n => negb (n =? 0)%Z
  | VStr s => Str.truthy s
  | _ => true
  end.

(** [v instanceof ArrayBuffer] *)
Definition instanceofArrayBuffer (v : Value) : bool :=
  match v with
  | VObj (CArrayBuffer _) _ => true
  | _ => false
  end.

#[global] Arguments truthy : simpl never.
#[global] Arguments instanceofArrayBuffer : simpl never.

(** [new Set([...]).has(v)] for a set of strings: only a string can be a
    member. *)
Definition Set_has (members : list jsstring) (v : Value) : bool :=
  match v with
  | VStr s => bool_decide (s ∈ members)
  | _ => false
  end.

(* ===================================================================== *)
(** * 4. The file system under the working directory *)
(* ===================================================================== *)

(** What [fs.writeFileSync] stores: the text it was given, or the content
    of a [Buffer]. *)
Inductive FileData :=
| FText (s : jsstring)
| FBytes (b : bytes).

(** The tree below the working directory of the process. *)
Inductive Node :=
| File (data : FileData)
| Dir (entries : gmap jsstring Node).

Module fs.

(** A relative path names a place in the tree when it does not climb
    above the working directory.  Absolute paths and paths that climb are
    outside the tree: the model takes them as places the process cannot
    reach, [saveFile] is never given one. *)
Definition resolve (p : jsstring) : option (list jsstring) :=
  if path.isAbsolute p then None
  else
    let segs := path.normalizeSegments true [] (Str.split SLASH p) in
    match segs with
    | s :: _ => if decide (s = [DOT; DOT]) then None else Some segs
    | [] => Some []
    end.

Fixpoint lookup (segs : list jsstring) (n : Node) : option Node :=
  match segs with
  | [] => Some n
  | s :: rest =>
      match n with
      | Dir es => match es !! s with
                  | Some child => lookup rest child
                  | None => None
                  end
      | File _ => None
      end
  end.

Definition errno (code : string) (call : string) (p : jsstring) : Error :=
  MkError [TLit code; TLit ", "; TLit call; TLit " '"; TStr p; TLit "'"].

(** [mkdir -p]: every missing directory on the way is created; a file on
    the way or at the end is an error. *)
Fixpoint mkdirp (segs : list jsstring) (n : Node) : string + Node :=
  match n with
  | File _ =>
      inl (match segs with
           | [] => "EEXIST: file already exists"
           | _ => "ENOTDIR: not a directory"
           end)%string
  | Dir es =>
      match segs with
      | [] => inr n
      | s :: rest =>
          match mkdirp rest (default (Dir ∅) (es !! s)) with
          | inr child => inr (Dir (<[s := child]> es))
          | inl e => inl e
          end
      end
  end.

(** Opening a file for writing ([O_WRONLY | O_CREAT | O_TRUNC]) and
    storing [data]: the directory must exist, the target must not be a
    directory; what the file held before is discarded. *)
Fixpoint store (segs : list jsstring) (data : FileData) (n : Node)
    : string + Node :=
  match segs with
  | [] => match n with
          | File _ => inr (File data)
          | Dir _ => inl "EISDIR: illegal operation on a directory"%string
          end
  | s :: rest =>
      match n with
      | File _ => inl "ENOTDIR: not a directory"%string
      | Dir es =>
          match es !! s, rest with
          | None, [] => inr (Dir (<[s := File data]> es))
          | None, _ => inl "ENOENT: no such file or directory"%string
          | Some child, _ =>
              match store rest data child with
              | inr child' => inr (Dir (<[s := child']> es))
              | inl e => inl e
              end
          end
      end
  end.

(** What [stat] tells about a place: a file with its content, or a
    directory. *)
Inductive Kind :=
| KFile (data : FileData)
| KDir.

Definition kindOf (n : Node) : Kind :=
  match n with
  | File data => KFile data
  | Dir _ => KDir
  end.

Definition stat (segs : list jsstring) (root : Node) : option Kind :=
  kindOf <$> lookup segs root.

(** The content of the file at a place, if a file is there. *)
Definition read (segs : list jsstring) (root : Node) : option FileData :=
  match stat segs root with
  | Some (KFile data) => Some data
  | _ => None
  end.

(** [fs.existsSync(p)] *)
Definition existsSync (p : jsstring) (root : Node) : bool :=
  match resolve p with
  | Some segs => bool_decide (is_Some (lookup segs root))
  | None => false
  end.

(** [fs.mkdirSync(p, { recursive: true })] *)
Definition mkdirSync (p : jsstring) (root : Node) : Error + Node :=
  match resolve p with
  | Some segs =>
      match mkdirp segs root with
      | inr root' => inr root'
      | inl code => inl (errno code "mkdir" p)
      end
  | None => inl (errno "EACCES: permission denied" "mkdir" p)
  end.

(** The data [fs.writeFileSync] accepts: a string or a [Buffer]. *)
Definition toFileData (data : Value) : option FileData :=
  match data with
  | VStr s => Some (FText s)
  | VObj (CBuffer b) _ => Some (FBytes b)
  | _ => None
  end.

(** [fs.writeFileSync(p, data)] *)
Definition writeFileSync (p : jsstring) (data : Value) (root : Node)
    : Error + Node :=
  match toFileData data with
  | None =>
      inl (TypeError "The data argument must be of type string or an instance of Buffer, TypedArray, or DataView.")
  | Some d =>
      match resolve p with
      | Some segs =>
          match store segs d root with
          | inr root' => inr root'
          | inl code => inl (errno code "open" p)
          end
      | None => inl (errno "EACCES: permission denied" "open" p)
      end
  end.

End fs.

(* ===================================================================== *)
(** * 5. The world: disk and console; synchronous code *)
(* ===================================================================== *)

Inductive Stream := stdout | stderr.

Record World := mkWorld {
  disk : Node;                               (* the tree below the cwd *)
  console : list (Stream * list Piece)       (* lines printed, oldest first *)
}.

(** Synchronous code reads and changes the world, and returns or throws. *)
Definition Sync (A : Type) : Type := World -> (Error + A) * World.

Definition sret {A} (a : A) : Sync A := fun w => (inr a, w).
Definition sthrow {A} (e : Error) : Sync A := fun w => (inl e, w).
Definition sbind {A B} (m : Sync A) (f : A -> Sync B) : Sync B :=
  fun w => match m w with
           | (inr a, w') => f a w'
           | (inl e, w') => (inl e, w')
           end.

#[export] Instance Sync_ret : MRet Sync := @sret.
#[export] Instance Sync_bind : MBind Sync := fun A B f m => sbind m f.

(** [try { body } catch (error) { handler }] around code that returns
    nothing: the world the handler starts from is the one the body left. *)
Definition stry (body : Sync unit) (handler : Error -> World -> World)
    : World -> World :=
  fun w => match body w with
           | (inr _, w') => w'
           | (inl e, w') => handler e w'
           end.

Definition print (s : Stream) (msg : list Piece) (w : World) : World :=
  {| disk := disk w; console := console w ++ [(s, msg)] |}.

Definition console_log (msg : list Piece) : Sync unit :=
  fun w => (inr tt, print stdout msg w).

Definition console_error (msg : list Piece) : World -> World :=
  print stderr msg.

(** A call of [fs] that only reads the disk, and one that changes it or
    throws. *)
Definition onDiskRead {A} (q : Node -> A) : Sync A :=
  fun w => (inr (q (disk w)), w).

Definition onDisk (op : Node -> Error + Node) : Sync unit :=
  fun w => match op (disk w) with
           | inr d => (inr tt, {| disk := d; console := console w |})
           | inl e => (inl e, w)
           end.

(** [path.parse(v)] validates that its argument is a string. *)
Definition path_parse (v : Value) : Sync path.ParsedPath :=
  match v with
  | VStr s => sret (path.parse s)
  | _ => sthrow (TypeError "The path argument must be of type string.")
  end.

(** [saveFile(text, originalFileName, outputDir)], lines 257-273.  Every
    caller passes [outputDir]; the default value of the parameter is never
    used. *)
Definition saveFile (text originalFileName : Value) (outputDir : jsstring)
    : World -> World :=
  stry
    ( found ← onDiskRead (fs.existsSync outputDir) ;
      (if negb found then
         onDisk (fs.mkdirSync outputDir) ;;
         console_log [TLit "<<< Created output directory >>>"]
       else mret tt) ;;
      parsed ← path_parse originalFileName ;
      let baseName := path.name parsed in
      let outputFileName := baseName ++ lit "-converted.txt" in
      let outputPath := path.join outputDir outputFileName in
      onDisk (fs.writeFileSync outputPath text) ;;
      console_log [TLit "✅ Saved to "; TStr outputPath] )
    (fun error =>
       console_error (TLit "❌ Error saving file: " :: message error)).

(** Lines 264-266: the name and the path of the artifact. *)
Definition artifactName (originalFileName : jsstring) : jsstring :=
  path.name (path.parse originalFileName) ++ lit "-converted.txt".

Definition artifactPath (outputDir originalFileName : jsstring) : jsstring :=
  path.join outputDir (artifactName originalFileName).

(** The six categories and their directories below [./saved-outputs]. *)
Inductive Category :=
| pdf | document | spreadsheet | presentation | word_doc | plain_text.

Definition dirName (c : Category) : string :=
  match c with
  | pdf => "pdf"
  | document => "document"
  | spreadsheet => "spreadsheet"
  | presentation => "presentation"
  | word_doc => "word-doc"
  | plain_text => "plain-text"
  end.

Definition outputDir (c : Category) : jsstring :=
  lit "./saved-outputs/" ++ lit (dirName c).

(** The place of an artifact in the tree. *)
Definition artifactPlace (c : Category) (originalFileName : jsstring)
    : list jsstring :=
  [lit "saved-outputs"; lit (dirName c); artifactName originalFileName].

(** The path in the words of the specification:
    [./saved-outputs/<category>/<base-name>-converted.txt], the base name
    being the name with its extension stripped.  The extension starts at
    the last dot of the name; a name without a dot, or whose only dot comes
    first, has none. *)
Definition spec_stripExtension (name : jsstring) : jsstring :=
  match path.dropWhile path.notDot (rev name) with
  | [] => name
  | [_] => name
  | _ :: before => rev before
  end.

Definition spec_artifactPath (c : Category) (name : jsstring) : jsstring :=
  lit "./saved-outputs/" ++ lit (dirName c) ++ [SLASH] ++
  spec_stripExtension name ++ lit "-converted.txt".

(** A segment that [path.normalize] keeps as it is. *)
Definition goodSegment (s : jsstring) : Prop :=
  (SLASH ∉ s) /\ s <> [] /\ s <> [DOT] /\ s <> [DOT; DOT].

(** Nothing stands in the way of the artifacts: the working directory is
    a directory, no file has the name of [saved-outputs] or of a directory
    below it, and no directory has the place of an artifact. *)
Definition writable (d : Node) : Prop :=
  fs.stat [] d = Some fs.KDir /\
  (forall data, fs.stat [lit "saved-outputs"] d <> Some (fs.KFile data)) /\
  (forall c data, fs.stat [lit "saved-outputs"; c] d <> Some (fs.KFile data)) /\
  (forall c f, fs.stat [lit "saved-outputs"; c; f] d <> Some fs.KDir).

(** What [saveFile] leaves on the disk, step by step: the directory is
    created when [fs.existsSync] does not find it; the file is written when
    the name is a string; an error at one step keeps what the steps before
    did. *)
Definition diskAfterSave (text originalFileName : Value) (outputDir : jsstring)
    (d : Node) : Node :=
  match (if fs.existsSync outputDir d then Some d
         else match fs.mkdirSync outputDir d with
              | inr d' => Some d'
              | inl _ => None
              end) with
  | None => d
  | Some d1 =>
      match originalFileName with
      | VStr s =>
          match fs.writeFileSync (artifactPath outputDir s) text d1 with
          | inr d2 => d2
          | inl _ => d1
          end
      | _ => d1
      end
  end.

(** The lines [saveFile] prints. *)
Definition createdLine : Stream * list Piece :=
  (stdout, [TLit "<<< Created output directory >>>"]).
Definition savedLine (outputPath : jsstring) : Stream * list Piece :=
  (stdout, [TLit "✅ Saved to "; TStr outputPath]).
Definition errorSavingLine (e : Error) : Stream * list Piece :=
  (stderr, TLit "❌ Error saving file: " :: message e).

(** [saveFile] in direct style: the world after each of its three steps. *)
Definition afterSave (text originalFileName : Value) (outputDir : jsstring)
    (w : World) : World :=
  match (if fs.existsSync outputDir (disk w) then inr w
         else match fs.mkdirSync outputDir (disk w) with
              | inr d' => inr {| disk := d'; console := console w ++ [createdLine] |}
              | inl e => inl e
              end) with
  | inl e => {| disk := disk w; console := console w ++ [errorSavingLine e] |}
  | inr w1 =>
      match originalFileName with
      | VStr s =>
          match fs.writeFileSync (artifactPath outputDir s) text (disk w1) with
          | inr d2 =>
              {| disk := d2;
                 console := console w1 ++ [savedLine (artifactPath outputDir s)] |}
          | inl e =>
              {| disk := disk w1; console := console w1 ++ [errorSavingLine e] |}
          end
      | _ =>
          {| disk := disk w1;
             console := console w1 ++
               [errorSavingLine
                  (TypeError "The path argument must be of type string.")] |}
      end
  end.

(* ===================================================================== *)
(** * 6. Asynchronous functions and the event loop *)
(* ===================================================================== *)

(** The functions of other packages the repository calls.  The first five
    return a promise, [google_drive] and [Buffer_from] answer at once. *)
Inductive External :=
| authorize               (* ./auth/authorize *)
| files_list              (* drive.files.list *)
| files_get               (* drive.files.get *)
| files_export            (* drive.files.export *)
| pdfParse                (* require('pdf-parse') *)
| mammoth_convertToText   (* require('mammoth').convertToText *)
| google_drive            (* google.drive *)
| Buffer_from.            (* Buffer.from *)

(** How the outside answers a call: a promise's settlement for the
    asynchronous functions, the value returned or the error thrown for the
    synchronous ones.  A drive method receives the client as its first
    argument. *)
Definition Env := External -> list Value -> Outcome.

(** What an [await] waits for: the promise of a call to the outside, or a
    promise of the program's own whose outcome is known. *)
Inductive Promise :=
| Call (fn : External) (args : list Value)
| Settled (o : Outcome).

Definition respond (env : Env) (p : Promise) : Outcome :=
  match p with
  | Call fn args => env fn args
  | Settled o => o
  end.

(** The body of an asynchronous function from some point on: it returns,
    throws, runs a synchronous statement on the world, calls a synchronous
    function of the outside, suspends on a promise ([await]), or calls
    another asynchronous function without awaiting it ([Spawn]). *)
Inductive Prog :=
| Ret (v : Value)
| Throw (e : Error)
| Do (f : World -> World) (k : Prog)
| Native (fn : External) (args : list Value) (k : Outcome -> Prog)
| Await (p : Promise) (k : Outcome -> Prog)
| Spawn (t : Prog) (k : Prog).

(** Continue with [k] on the way [p] ends. *)
Fixpoint andThen (p : Prog) (k : Outcome -> Prog) : Prog :=
  match p with
  | Ret v => k (Fulfilled v)
  | Throw e => k (Rejected e)
  | Do f p' => Do f (andThen p' k)
  | Native fn args c => Native fn args (fun o => andThen (c o) k)
  | Await pr c => Await pr (fun o => andThen (c o) k)
  | Spawn t p' => Spawn t (andThen p' k)
  end.

Definition orThrow (k : Value -> Prog) (o : Outcome) : Prog :=
  match o with
  | Fulfilled v => k v
  | Rejected e => Throw e
  end.

(** [const x = await promise; ...] *)
Definition await (p : Promise) (k : Value -> Prog) : Prog :=
  Await p (orThrow k).

(** [const x = await f(...); ...] for an asynchronous function [f] of the
    repository: the callee runs, then the caller suspends on the promise
    the callee returned. *)
Definition awaitCall (callee : Prog) (k : Value -> Prog) : Prog :=
  andThen callee (fun o => await (Settled o) k).

(** [const x = f(...); ...] for a synchronous function of the outside. *)
Definition native (fn : External) (args : list Value) (k : Value -> Prog)
    : Prog :=
  Native fn args (orThrow k).

(** [const x = e; ...] for an expression that may throw. *)
Definition get (e : Error + Value) (k : Value -> Prog) : Prog :=
  match e with
  | inr v => k v
  | inl err => Throw err
  end.

(** [try { body } catch (error) { handler }] *)
Definition tryCatch (body : Prog) (handler : Error -> Prog) : Prog :=
  andThen body (fun o => match o with
                         | Fulfilled v => Ret v
                         | Rejected e => handler e
                         end).

(** [p; k]: the value of [p] is dropped, what it throws propagates. *)
Definition seq (p k : Prog) : Prog := andThen p (orThrow (fun _ => k)).

(** [items.forEach(callback)] *)
Fixpoint forEach (items : list Value) (callback : Value -> Prog) : Prog :=
  match items with
  | [] => Ret VUndefined
  | item :: rest => seq (callback item) (forEach rest callback)
  end.

(** [switch (v) { case l1: p1 ... default: d }] over string labels, each
    case leaving the function: the first label strictly equal to [v]
    decides. *)
Definition switch (v : Value) (cases : list (jsstring * Prog)) (default : Prog)
    : Prog :=
  match v with
  | VStr s =>
      match List.find (fun c => bool_decide (fst c = s)) cases with
      | Some c => snd c
      | None => default
      end
  | _ => default
  end.

Notation "'let%await' x := p 'in' k" := (await p (fun x => k))
  (at level 10, x name, p at level 100, k at level 200).
Notation "'let%call' x := p 'in' k" := (awaitCall p (fun x => k))
  (at level 10, x name, p at level 100, k at level 200).
Notation "'let%get' x := e 'in' k" := (get e (fun x => k))
  (at level 10, x name, e at level 100, k at level 200).
Notation "'let%native' x := fn @ args 'in' k" := (native fn args (fun x => k))
  (at level 10, x name, fn at level 9, args at level 100, k at level 200).

(* ===================================================================== *)
(** * 7. [text-conversions/read-text.js] *)
(* ===================================================================== *)

(** Object literals of the source. *)
Definition obj (props : list (string * Value)) : Value := VObj CPlain props.
Definition str (s : string) : Value := VStr (lit s).
#[global] Arguments saveFile : simpl never.

(** [handleArrayBuffer(response)], lines 241-249. *)
Definition handleArrayBuffer (response : Value) : Prog :=
  let%get data := getProp response "data" in
  if instanceofArrayBuffer data then
    let%native buf := Buffer_from @ [data] in Ret buf
  else
    let%get method := getProp data "arrayBuffer" in
    if truthy method then
      match method with
      | VFun result =>
          let%await collected := Settled result in
          let%native buf := Buffer_from @ [collected] in Ret buf
      | _ => Throw (TypeError "response.data.arrayBuffer is not a function")
      end
    else
      let%native buf := Buffer_from @ [data] in Ret buf.

(** The normalizer in the words of the specification: the three shapes of
    a body are probed in order.  A body is a binary sequence when it is an
    [ArrayBuffer]; it exposes the collect operation when its [arrayBuffer]
    property is a method; anything else is wrapped as it is. *)
Definition wrap (v : Value) : Prog :=
  let%native buf := Buffer_from @ [v] in Ret buf.

Definition collectOperation (body : Value) : option Outcome :=
  match getProp body "arrayBuffer" with
  | inr (VFun result) => Some result
  | _ => None
  end.

Definition spec_normalize (response : Value) : Prog :=
  let%get body := getProp response "data" in
  if instanceofArrayBuffer body then wrap body
  else match collectOperation body with
       | Some result => let%await collected := Settled result in wrap collected
       | None => wrap body
       end.

Definition extracting (fileName : Value) : World -> World :=
  print stdout [TLit "Extracting text from file "; TVal fileName; TLit "..."].

(** [extractPDFText(drive, fileId, fileName)], lines 117-134. *)
Definition extractPDFText (drive fileId fileName : Value) : Prog :=
  Do (extracting fileName) (
  let%await textResponse :=
    Call files_get [drive;
                    obj [("fileId", fileId); ("alt", str "media")];
                    obj [("responseType", str "arraybuffer")]] in
  let%call pdfBuffer := handleArrayBuffer textResponse in
  let%await pdfData := Call pdfParse [pdfBuffer] in
  let%get text := getProp pdfData "text" in
  Do (saveFile text fileName (lit "./saved-outputs/pdf")) (
  let%get text' := getProp pdfData "text" in
  Ret text')).

(** [extractDocumentText(drive, fileId, fileName)], lines 143-153. *)
Definition extractDocumentText (drive fileId fileName : Value) : Prog :=
  Do (extracting fileName) (
  let%await textResponse :=
    Call files_export [drive;
                       obj [("fileId", fileId); ("mimeType", str "text/plain")]] in
  let%get data := getProp textResponse "data" in
  let%get len := getProp data "length" in
  Do (print stdout [TLit "<<< Extracted "; TVal len;
                    TLit " characters from Google Doc >>>"]) (
  Do (saveFile data fileName (lit "./saved-outputs/document")) (
  Ret data))).

(** [extractSpreadsheetText(drive, fileId, fileName)], lines 162-175.
    [csvText.split] exists on strings only. *)
Definition extractSpreadsheetText (drive fileId fileName : Value) : Prog :=
  Do (extracting fileName) (
  let%await textResponse :=
    Call files_export [drive;
                       obj [("fileId", fileId); ("mimeType", str "text/csv")]] in
  let%get csvText := getProp textResponse "data" in
  match csvText with
  | VStr csv =>
      Do (saveFile (VStr (formattedText csv)) fileName
            (lit "./saved-outputs/spreadsheet")) (
      Ret (VStr (formattedText csv)))
  | VUndefined | VNull =>
      Throw (MkError [TLit "Cannot read properties of "; TVal csvText;
                      TLit " (reading 'split')"])
  | _ => Throw (TypeError "csvText.split is not a function")
  end).

(** [extractPresentationText(drive, fileId, fileName)], lines 184-193. *)
Definition extractPresentationText (drive fileId fileName : Value) : Prog :=
  Do (extracting fileName) (
  let%await textResponse :=
    Call files_export [drive;
                       obj [("fileId", fileId); ("mimeType", str "text/plain")]] in
  let%get data := getProp textResponse "data" in
  Do (saveFile data fileName (lit "./saved-outputs/presentation")) (
  Ret data)).

(** [extractWordDoc(drive, fileId, fileName)], lines 202-216. *)
Definition extractWordDoc (drive fileId fileName : Value) : Prog :=
  Do (extracting fileName) (
  let%await textResponse :=
    Call files_export [drive;
                       obj [("fileId", fileId); ("alt", str "media")];
                       obj [("responseType", str "arraybuffer")]] in
  let%call buffer := handleArrayBuffer textResponse in
  let%await result := Call mammoth_convertToText [buffer] in
  let%get value := getProp result "value" in
  Do (saveFile value fileName (lit "./saved-outputs/word-doc")) (
  let%get value' := getProp result "value" in
  Ret value')).

(** [extractPlainText(drive, fileId, fileName)], lines 225-234. *)
Definition extractPlainText (drive fileId fileName : Value) : Prog :=
  Do (extracting fileName) (
  let%await textResponse :=
    Call files_get [drive;
                    obj [("fileId", fileId); ("alt", str "media")];
                    obj [("responseType", str "text")]] in
  let%get data := getProp textResponse "data" in
  Do (saveFile data fileName (lit "./saved-outputs/plain-text")) (
  Ret data)).

(** The cases of the [switch] in [extractText], in the order of the source:
    the label and the extractor that the case calls. *)
Definition extractors : list (jsstring * (Value -> Value -> Value -> Prog)) :=
  [ (lit "application/pdf", extractPDFText);
    (lit "application/vnd.google-apps.document", extractDocumentText);
    (lit "application/vnd.google-apps.spreadsheet", extractSpreadsheetText);
    (lit "application/vnd.google-apps.presentation", extractPresentationText);
    (lit "application/vnd.openxmlformats-officedocument.wordprocessingml.document",
     extractWordDoc);
    (lit "text/plain", extractPlainText) ].

Definition unsupported (mimeType : Value) : Error :=
  MkError [TLit "Unsupported file type: "; TVal mimeType].

(** The [switch] of lines 88-104: each case is [return await f(drive,
    fileId, fileName)]. *)
Definition dispatch (drive fileId fileName mimeType : Value) : Prog :=
  switch mimeType
    (map (fun c => (fst c, let%call text := snd c drive fileId fileName in Ret text))
       extractors)
    (Throw (unsupported mimeType)).

#[global] Arguments dispatch : simpl never.

(** The arguments of the call for the metadata of a file. *)
Definition metadataCall (drive fileId : Value) : list Value :=
  [drive; obj [("fileId", fileId); ("fields", str "name, size, mimeType")]].

(** The [try] block of [extractText], lines 78-104. *)
Definition extractText_body (drive fileId : Value) : Prog :=
  let%await fileMetaData := Call files_get (metadataCall drive fileId) in
  let%get data := getProp fileMetaData "data" in
  let%get fileName := getProp data "name" in
  let%get data' := getProp fileMetaData "data" in
  let%get mimeType := getProp data' "mimeType" in
  dispatch drive fileId fileName mimeType.

(** [extractText(drive, fileId)], lines 76-108. *)
Definition extractText (drive fileId : Value) : Prog :=
  tryCatch (extractText_body drive fileId)
    (fun error =>
       Do (console_error (TLit "Error extracting text from file: " :: message error))
          (Ret VUndefined)).

(* ===================================================================== *)
(** * 8. [index.js] *)
(* ===================================================================== *)

(** The set [fileTypes] of line 10. *)
Definition fileTypes : list jsstring :=
  [ lit "application/pdf";
    lit "application/vnd.google-apps.document";
    lit "application/vnd.google-apps.spreadsheet";
    lit "application/vnd.google-apps.presentation";
    lit "application/vnd.openxmlformats-officedocument.wordprocessingml.document";
    lit "text/plain" ].

(** The callback of [files.forEach], lines 24-30. *)
Definition processFile (drive file : Value) : Prog :=
  let%get mimeType := getProp file "mimeType" in
  if Set_has fileTypes mimeType then
    let%get id := getProp file "id" in
    Spawn (extractText drive id) (Ret VUndefined)
  else
    let%get name := getProp file "name" in
    Do (print stdout [TLit "❌ Skipping file "; TVal name;
                      TLit " because it is not a supported file type"])
       (Ret VUndefined).

(** [len !== 0] for the value [len] of [files.length]. *)
Definition isNotZero (v : Value) : bool :=
  match v with
  | VNum n => negb (n =? 0)%Z
  | _ => true
  end.

(** Lines 23-33: what [main] does with the listing. *)
Definition processFiles (drive files : Value) : Prog :=
  let%get len := getProp files "length" in
  if isNotZero len then
    match files with
    | VArr items => forEach items (processFile drive)
    | _ => Throw (TypeError "files.forEach is not a function")
    end
  else
    Do (print stdout [TLit "❌ No Files Found"]) (Ret VUndefined).

(** The parameters of the listing, lines 16-19. *)
Definition listParams : Value :=
  obj [("pageSize", VNum 100);
       ("fields",
        str "nextPageToken, files(id, name, webViewLink, mimeType, kind)")].

(** [main()], lines 5-34. *)
Definition main : Prog :=
  let%await auth := Call authorize [] in
  let%native drive :=
    google_drive @ [obj [("version", str "v3"); ("auth", auth)]] in
  let%await res := Call files_list [drive; listParams] in
  let%get data := getProp res "data" in
  let%get files := getProp data "files" in
  processFiles drive files.

(* ===================================================================== *)
(** * 9. Running programs *)
(* ===================================================================== *)

(** ** One asynchronous function alone

    When nothing else runs, an asynchronous function goes from one [await]
    to the next; what it does to the world and how its promise settles
    depend on the answers of the outside only. *)
Fixpoint runAlone (env : Env) (p : Prog) (w : World) : World * Outcome :=
  match p with
  | Ret v => (w, Fulfilled v)
  | Throw e => (w, Rejected e)
  | Do f k => runAlone env k (f w)
  | Native fn args k => runAlone env (k (env fn args)) w
  | Await pr k => runAlone env (k (respond env pr)) w
  | Spawn t k => runAlone env k (fst (runAlone env t w))
  end.

(** How the promise of a call settles does not depend on the world. *)
Fixpoint outcome (env : Env) (p : Prog) : Outcome :=
  match p with
  | Ret v => Fulfilled v
  | Throw e => Rejected e
  | Do _ k => outcome env k
  | Native fn args k => outcome env (k (env fn args))
  | Await pr k => outcome env (k (respond env pr))
  | Spawn _ k => outcome env k
  end.

(** An outside that answers every call with the same value. *)
Definition answering (v : Value) : Env := fun _ _ => Fulfilled v.

(** The calls to the outside a program makes, in order. *)
Fixpoint calls (env : Env) (p : Prog) : list (External * list Value) :=
  match p with
  | Ret _ | Throw _ => []
  | Do _ k => calls env k
  | Native fn args k => (fn, args) :: calls env (k (env fn args))
  | Await (Call fn args) k => (fn, args) :: calls env (k (env fn args))
  | Await (Settled o) k => calls env (k o)
  | Spawn t k => calls env t ++ calls env k
  end.

(** A program that cannot end by throwing, whatever the outside answers.
    What a call made without [await] throws is not thrown to the caller. *)
Fixpoint neverThrows (p : Prog) : Prop :=
  match p with
  | Ret _ => True
  | Throw _ => False
  | Do _ k => neverThrows k
  | Native _ _ k | Await _ k => forall o, neverThrows (k o)
  | Spawn _ k => neverThrows k
  end.

(** Two facts about a world that, once true, stay true: a file is at a
    place, a line has been printed. *)
Definition hasFile (P : list jsstring) (w : World) : Prop :=
  is_Some (fs.read P (disk w)).

Definition hasLine (line : Stream * list Piece) (w : World) : Prop :=
  line ∈ console w.

(** A synchronous statement is steady when, on a disk where nothing stands
    in the way of the artifacts, it keeps the disk so, keeps the files that
    are there and the lines printed, and makes a new file only if it would
    make it on every such disk. *)
Definition steady (f : World -> World) : Prop :=
  forall w, writable (disk w) ->
    writable (disk (f w)) /\
    (forall P, hasFile P w -> hasFile P (f w)) /\
    (forall line, hasLine line w -> hasLine line (f w)) /\
    (forall P w', writable (disk w') ->
       hasFile P (f w) -> hasFile P w \/ hasFile P (f w')).

(** A fact that no steady statement undoes. *)
Definition lasting (fact : World -> Prop) : Prop :=
  forall f w, steady f -> writable (disk w) -> fact w -> fact (f w).

(** A program is orderly when its synchronous statements are steady and
    the calls it makes without [await] never throw and are orderly. *)
Fixpoint orderly (p : Prog) : Prop :=
  match p with
  | Ret _ | Throw _ => True
  | Do f k => steady f /\ orderly k
  | Native _ _ k | Await _ k => forall o, orderly (k o)
  | Spawn t k => neverThrows t /\ orderly t /\ orderly k
  end.

(** Under [env], the program reaches a statement that establishes [fact]
    on every disk where nothing stands in the way. *)
Fixpoint reaches (env : Env) (fact : World -> Prop) (p : Prog) : Prop :=
  match p with
  | Ret _ | Throw _ => False
  | Do f k =>
      (forall w, writable (disk w) -> fact (f w)) \/ reaches env fact k
  | Native fn args k => reaches env fact (k (env fn args))
  | Await pr k => reaches env fact (k (respond env pr))
  | Spawn t k => reaches env fact t \/ reaches env fact k
  end.

(** The two shapes of a request for content: an export to a target type,
    and a download of the stored bytes ([alt: 'media']). *)
Definition exportCall (drive fileId : Value) (target : string)
    : External * list Value :=
  (files_export, [drive; obj [("fileId", fileId); ("mimeType", str target)]]).

Definition mediaCall (fn : External) (drive fileId : Value) (responseType : string)
    : External * list Value :=
  (fn, [drive; obj [("fileId", fileId); ("alt", str "media")];
        obj [("responseType", str responseType)]]).

(** ** The event loop

    A suspended call of an asynchronous function waits in the queue with
    the promise it awaits and the rest of its body.  [settled] lists the
    promises returned by the calls that have ended, in the order in which
    they settled. *)
Record Task := mkTask {
  tid : nat;
  waiting : Promise;
  resume : Outcome -> Prog
}.

Record Loop := mkLoop {
  world : World;
  queue : list Task;
  settled : list (nat * Outcome);
  fresh : nat
}.

Definition settle (id : nat) (o : Outcome) (L : Loop) : Loop :=
  {| world := world L; queue := queue L;
     settled := settled L ++ [(id, o)]; fresh := fresh L |}.

Definition suspend (t : Task) (L : Loop) : Loop :=
  {| world := world L; queue := queue L ++ [t];
     settled := settled L; fresh := fresh L |}.

(** Run the call [id] from [p] until it suspends or ends.  A call made
    without [await] runs at once, up to its own first [await], and the
    caller goes on. *)
Fixpoint exec (env : Env) (id : nat) (p : Prog) (L : Loop) : Loop :=
  match p with
  | Ret v => settle id (Fulfilled v) L
  | Throw e => settle id (Rejected e) L
  | Do f k =>
      exec env id k {| world := f (world L); queue := queue L;
                       settled := settled L; fresh := fresh L |}
  | Native fn args k => exec env id (k (env fn args)) L
  | Await pr k => suspend {| tid := id; waiting := pr; resume := k |} L
  | Spawn t k =>
      exec env id k
        (exec env (fresh L) t
           {| world := world L; queue := queue L;
              settled := settled L; fresh := S (fresh L) |})
  end.

(** One turn of the loop: the promise awaited by a suspended call settles
    and the call resumes.  Which one is the scheduler's choice: [i] counts
    round the queue. *)
Definition step (env : Env) (i : nat) (L : Loop) : Loop :=
  match queue L !! (i mod length (queue L))%nat with
  | Some t =>
      exec env (tid t) (resume t (respond env (waiting t)))
        {| world := world L;
           queue := delete (i mod length (queue L))%nat (queue L);
           settled := settled L; fresh := fresh L |}
  | None => L
  end.

Definition run (env : Env) (schedule : list nat) (L : Loop) : Loop :=
  fold_left (fun L i => step env i L) schedule L.

(** The process starts by calling [p] as call number 0. *)
Definition start (env : Env) (p : Prog) (w : World) : Loop :=
  exec env 0%nat p {| world := w; queue := []; settled := []; fresh := 1 |}.

(** The number of turns a program still needs. *)
Fixpoint turns (env : Env) (p : Prog) : nat :=
  match p with
  | Ret _ | Throw _ => 0
  | Do _ k => turns env k
  | Native fn args k => turns env (k (env fn args))
  | Await pr k => S (turns env (k (respond env pr)))
  | Spawn t k => turns env t + turns env k
  end.

Definition taskTurns (env : Env) (t : Task) : nat :=
  S (turns env (resume t (respond env (waiting t)))).

Definition pending (env : Env) (L : Loop) : nat :=
  sum_list_with (taskTurns env) (queue L).

(** An extractor saves into the directory of category [c]: whatever the
    outside answers, all it does to the disk is at most one [saveFile] of
    some text under the file's name in that directory. *)
Definition savesInto (c : Category)
    (extractor : Value -> Value -> Value -> Prog) : Prop :=
  forall env drive fileId fileName w,
    let w' := fst (runAlone env (extractor drive fileId fileName) w) in
    disk w' = disk w \/
    exists text, disk w' = diskAfterSave text fileName (outputDir c) (disk w).

(** Three shapes of programs, for the order in which promises settle.  A
    program suspends first when it reaches an [await] before it can end; it
    finishes when it ends without suspending, the calls it makes on the way
    suspending first; it has the shape of [main] when it may suspend as
    long as it has made no call, and finishes after its first call. *)
Fixpoint suspendsFirst (p : Prog) : Prop :=
  match p with
  | Ret _ | Throw _ => False
  | Do _ k => suspendsFirst k
  | Native _ _ k => forall o, suspendsFirst (k o)
  | Await _ _ => True
  | Spawn t k => suspendsFirst t /\ suspendsFirst k
  end.

Fixpoint finishes (p : Prog) : Prop :=
  match p with
  | Ret _ | Throw _ => True
  | Do _ k => finishes k
  | Native _ _ k => forall o, finishes (k o)
  | Await _ _ => False
  | Spawn t k => suspendsFirst t /\ finishes k
  end.

Fixpoint mainShape (p : Prog) : Prop :=
  match p with
  | Ret _ | Throw _ => True
  | Do _ k => mainShape k
  | Native _ _ k | Await _ k => forall o, mainShape (k o)
  | Spawn t k => suspendsFirst t /\ finishes k
  end.

(** Between two turns, either [main] is the one suspended call and nothing
    has settled, or the promise of [main] was the first to settle. *)
Definition mainFirst (L : Loop) : Prop :=
  (settled L = [] /\
   exists pr k, queue L = [mkTask 0 pr k] /\ forall o, mainShape (k o)) \/
  (exists o rest, settled L = (0%nat, o) :: rest).

(** What holds of the loop between two turns of a batch: nothing stands in
    the way on the disk, the suspended calls are orderly, no call but the
    first has thrown or can throw. *)
Definition taskOk (t : Task) : Prop :=
  (forall o, orderly (resume t o)) /\
  (tid t <> 0%nat -> forall o, neverThrows (resume t o)).

Definition loopOk (L : Loop) : Prop :=
  writable (disk (world L)) /\
  Forall taskOk (queue L) /\
  (forall id o, (id, o) ∈ settled L -> id <> 0%nat -> exists v, o = Fulfilled v) /\
  fresh L <> 0%nat.

(** A suspended call that will establish [fact]. *)
Definition willReach (env : Env) (fact : World -> Prop) (t : Task) : Prop :=
  reaches env fact (resume t (respond env (waiting t))).

(** An entry of the listing is an object. *)
Definition isObject (v : Value) : Prop :=
  match v with VObj _ _ => True | _ => False end.

(* ===================================================================== *)
(** * 10. Sample runs *)
(* ===================================================================== *)

Definition emptyWorld : World := {| disk := Dir ∅; console := [] |}.

Definition sampleDrive : Value := obj [("client", str "drive v3")].

Definition docxType : jsstring :=
  lit "application/vnd.openxmlformats-officedocument.wordprocessingml.document".

Definition notAvailable : Outcome := Rejected (MkError [TLit "not available"]).

(** [Buffer.from] on the two binary classes. *)
Definition sampleBuffer (args : list Value) : Outcome :=
  match args with
  | [VObj (CArrayBuffer b) _] | [VObj (CBuffer b) _] => Fulfilled (VObj (CBuffer b) [])
  | _ => Rejected (TypeError "The first argument must be of type string or an instance of Buffer, ArrayBuffer, or Array or an Array-like Object.")
  end.

(** A drive with one plain-text file, [notes.txt]. *)
Definition notesEnv : Env := fun fn args =>
  match fn with
  | files_get =>
      match args with
      | [_; _] =>
          Fulfilled (obj [("data", obj [("name", str "notes.txt");
                                        ("mimeType", str "text/plain")])])
      | _ => Fulfilled (obj [("data", str "hello")])
      end
  | _ => notAvailable
  end.

(** A disk on which [saved-outputs] is a file. *)
Definition blockedWorld : World :=
  {| disk := Dir {[ lit "saved-outputs" := File (FText (lit "in the way")) ]};
     console := [] |}.

(** A drive with one word-processing document, [Report.docx]. *)
Definition reportEnv : Env := fun fn args =>
  match fn with
  | files_get =>
      Fulfilled (obj [("data", obj [("name", str "Report.docx");
                                    ("mimeType", VStr docxType)])])
  | files_export =>
      Fulfilled (obj [("data", VObj (CArrayBuffer [Byte.x50; Byte.x4b]) [])])
  | Buffer_from => sampleBuffer args
  | mammoth_convertToText =>
      Fulfilled (obj [("value", str "Quarterly report"); ("messages", VArr [])])
  | _ => notAvailable
  end.

(** A drive with four files: a PDF that the parser rejects, a native
    document, an archive, a plain-text file. *)
Definition fileEntry (id name mimeType : string) : Value :=
  obj [("kind", str "drive#file"); ("id", str id); ("name", str name);
       ("mimeType", str mimeType)].

Definition batchItems : list Value :=
  [ fileEntry "1" "broken.pdf" "application/pdf";
    fileEntry "2" "Plan" "application/vnd.google-apps.document";
    fileEntry "3" "archive.zip" "application/zip";
    fileEntry "4" "notes.txt" "text/plain" ].

Definition fileIdOf (args : list Value) : Value :=
  match args with
  | _ :: params :: _ =>
      match getProp params "fileId" with
      | inr id => id
      | inl _ => VUndefined
      end
  | _ => VUndefined
  end.

Definition hasId (id : Value) (entry : Value) : bool :=
  match getProp entry "id", id with
  | inr (VStr a), VStr b => bool_decide (a = b)
  | _, _ => false
  end.

Definition batchEnv : Env := fun fn args =>
  match fn with
  | authorize => Fulfilled (obj [("credentials", str "token")])
  | google_drive => Fulfilled sampleDrive
  | files_list => Fulfilled (obj [("data", obj [("files", VArr batchItems)])])
  | files_get =>
      match args with
      | [_; _] =>
          match List.find (hasId (fileIdOf args)) batchItems with
          | Some entry => Fulfilled (obj [("data", entry)])
          | None => Rejected (MkError [TLit "File not found"])
          end
      | _ =>
          if hasId (fileIdOf args) (fileEntry "1" "broken.pdf" "application/pdf") then
            Fulfilled (obj [("data",
                             VObj (CArrayBuffer [Byte.x25; Byte.x50; Byte.x44])
                               [])])
          else Fulfilled (obj [("data", str "hello")])
      end
  | files_export => Fulfilled (obj [("data", str "The plan")])
  | pdfParse => Rejected (MkError [TLit "Invalid PDF structure"])
  | Buffer_from => sampleBuffer args
  | mammoth_convertToText => notAvailable
  end.

Definition batchSchedule : list nat :=
  [0; 0; 2; 1; 0; 1; 1; 0; 2; 0; 1; 0; 0; 0; 0; 0; 0; 0; 0; 0]%nat.

(* ===================================================================== *)
(** * 11. The first version of [index.js] *)
(* ===================================================================== *)

(** Before the set [fileTypes] was introduced, the listing was restricted
    to native documents by its query, and every entry of the listing was
    handed to [extractText]. *)
Module earlier.

(** The parameters of the listing, lines 49-53. *)
Definition listParams : Value :=
  obj [("pageSize", VNum 10);
       ("q", str "mimeType='application/vnd.google-apps.document'");
       ("fields",
        str "nextPageToken, files(id, name, webViewLink, mimeType, kind)")].

(** The callback of [files.forEach], lines 58-60. *)
Definition processFile (drive file : Value) : Prog :=
  let%get id := getProp file "id" in
  Spawn (extractText drive id) (Ret VUndefined).

(** Lines 57-63. *)
Definition processFiles (drive files : Value) : Prog :=
  let%get len := getProp files "length" in
  if isNotZero len then
    match files with
    | VArr items => forEach items (processFile drive)
    | _ => Throw (TypeError "files.forEach is not a function")
    end
  else
    Do (print stdout [TLit "❌ No Files Found"]) (Ret VUndefined).

(** [main()], lines 41-64. *)
Definition main : Prog :=
  let%await auth := Call authorize [] in
  let%native drive :=
    google_drive @ [obj [("version", str "v3"); ("auth", auth)]] in
  let%await res := Call files_list [drive; listParams] in
  let%get data := getProp res "data" in
  let%get files := getProp data "files" in
  processFiles drive files.

End earlier.

(* ===================================================================== *)
(** * 12. Reading a listing, counting requests *)
(* ===================================================================== *)

(** The value of [v.k] where the read cannot throw. *)
Definition prop (v : Value) (k : string) : Value :=
  match getProp v k with
  | inr x => x
  | inl _ => VUndefined
  end.

(** The test of line 25 on an entry of the listing. *)
Definition supported (file : Value) : bool :=
  Set_has fileTypes (prop file "mimeType").

(** The line printed for an entry that is skipped, line 28. *)
Definition skippedLine (file : Value) : Stream * list Piece :=
  (stdout, [TLit "❌ Skipping file "; TVal (prop file "name");
            TLit " because it is not a supported file type"]).

Definition noFilesLine : Stream * list Piece :=
  (stdout, [TLit "❌ No Files Found"]).

(** The request on which the extraction of an entry first suspends. *)
Definition metadataRequest (drive file : Value) : Promise :=
  Call files_get (metadataCall drive (prop file "id")).

(** The extractor that saves into the directory of a category, and the
    MIME type whose case of the [switch] calls it. *)
Definition extractorOf (c : Category) : Value -> Value -> Value -> Prog :=
  match c with
  | pdf => extractPDFText
  | document => extractDocumentText
  | spreadsheet => extractSpreadsheetText
  | presentation => extractPresentationText
  | word_doc => extractWordDoc
  | plain_text => extractPlainText
  end.

Definition mimeTypeOf (c : Category) : jsstring :=
  match c with
  | pdf => lit "application/pdf"
  | document => lit "application/vnd.google-apps.document"
  | spreadsheet => lit "application/vnd.google-apps.spreadsheet"
  | presentation => lit "application/vnd.google-apps.presentation"
  | word_doc =>
      lit "application/vnd.openxmlformats-officedocument.wordprocessingml.document"
  | plain_text => lit "text/plain"
  end.

(** The request for the content that the extractor of a category sends:
    lines 119-124, 145-148, 164-167, 186-189, 204-207 and 227-230. *)
Definition contentRequest (c : Category) (drive fileId : Value)
    : External * list Value :=
  match c with
  | pdf => mediaCall files_get drive fileId "arraybuffer"
  | document => exportCall drive fileId "text/plain"
  | spreadsheet => exportCall drive fileId "text/csv"
  | presentation => exportCall drive fileId "text/plain"
  | word_doc => mediaCall files_export drive fileId "arraybuffer"
  | plain_text => mediaCall files_get drive fileId "text"
  end.

(** The calls that stay in the process: the wrapping of bytes and the two
    parsers. *)
Definition isLocalCall (c : External * list Value) : bool :=
  match fst c with
  | Buffer_from | pdfParse | mammoth_convertToText => true
  | _ => false
  end.

(* ===================================================================== *)
(** * 13. The content of an artifact at the end of a batch *)
(* ===================================================================== *)

(** Every synchronous statement that a program runs under [env], in its own
    body and in the calls it makes without [await], satisfies [S]. *)
Fixpoint everyDo (env : Env) (S : (World -> World) -> Prop) (p : Prog) : Prop :=
  match p with
  | Ret _ | Throw _ => True
  | Do f k => S f /\ everyDo env S k
  | Native fn args k => everyDo env S (k (env fn args))
  | Await pr k => everyDo env S (k (respond env pr))
  | Spawn t k => everyDo env S t /\ everyDo env S k
  end.

(** A suspended call all of whose statements will satisfy [S]. *)
Definition taskDoes (env : Env) (S : (World -> World) -> Prop) (t : Task) : Prop :=
  everyDo env S (resume t (respond env (waiting t))).

(** The file at [P] holds [data]; a statement leaves the place [P] alone,
    or puts [data] there, on every disk where nothing stands in the way. *)
Definition holds (P : list jsstring) (data : FileData) (w : World) : Prop :=
  fs.read P (disk w) = Some data.

Definition leaves (P : list jsstring) (f : World -> World) : Prop :=
  forall w, writable (disk w) -> fs.read P (disk (f w)) = fs.read P (disk w).

Definition puts (P : list jsstring) (data : FileData) (f : World -> World)
    : Prop :=
  forall w, writable (disk w) -> fs.read P (disk (f w)) = Some data.

(** The category whose case of the [switch] a MIME type selects. *)
Definition categoryOf (mimeType : Value) : option Category :=
  match mimeType with
  | VStr m =>
      List.find (fun c => bool_decide (mimeTypeOf c = m))
        [pdf; document; spreadsheet; presentation; word_doc; plain_text]
  | _ => None
  end.

(** What the extraction of a file saves, and where, as the answers of the
    outside determine it: the metadata give a name that is a string and a
    supported type, the extractor of the type returns a string or a
    [Buffer]. *)
Definition savedBy (env : Env) (drive fileId : Value)
    : option (list jsstring * FileData) :=
  match env files_get (metadataCall drive fileId) with
  | Fulfilled meta =>
      match prop (prop meta "data") "name",
            categoryOf (prop (prop meta "data") "mimeType") with
      | VStr name, Some c =>
          match outcome env (extractorOf c drive fileId (VStr name)) with
          | Fulfilled text =>
              match fs.toFileData text with
              | Some data => Some (artifactPlace c name, data)
              | None => None
              end
          | Rejected _ => None
          end
      | _, _ => None
      end
  | Rejected _ => None
  end.

(* ===================================================================== *)
(** * 14. [auth/authorize.js] *)
(* ===================================================================== *)

(** [Buffer.from(s)] for a string: the UTF-8 encoding of its code units, a
    surrogate that has no partner becoming U+FFFD.  This is also what
    [fs.writeFileSync] puts on the disk for a string. *)
Definition byte_of (n : N) : Byte.byte := default Byte.x00 (Byte.of_N n).

Fixpoint utf8 (s : jsstring) : bytes :=
  match s with
  | [] => []
  | c :: rest =>
      if c <? 128 then byte_of c :: utf8 rest
      else if c <? 2048 then
        byte_of (192 + c / 64) :: byte_of (128 + c mod 64) :: utf8 rest
      else if (55296 <=? c) && (c <? 56320) then
        match rest with
        | d :: rest' =>
            if (56320 <=? d) && (d <? 57344) then
              let cp := 65536 + (c - 55296) * 1024 + (d - 56320) in
              byte_of (240 + cp / 262144) :: byte_of (128 + (cp / 4096) mod 64) ::
              byte_of (128 + (cp / 64) mod 64) :: byte_of (128 + cp mod 64) ::
              utf8 rest'
            else Byte.xef :: Byte.xbf :: Byte.xbd :: utf8 rest
        | [] => [Byte.xef; Byte.xbf; Byte.xbd]
        end
      else if (56320 <=? c) && (c <? 57344) then
        Byte.xef :: Byte.xbf :: Byte.xbd :: utf8 rest
      else
        byte_of (224 + c / 4096) :: byte_of (128 + (c / 64) mod 64) ::
        byte_of (128 + c mod 64) :: utf8 rest
  end.

(** The bytes of a file. *)
Definition content (data : FileData) : bytes :=
  match data with
  | FText s => utf8 s
  | FBytes b => b
  end.

(** [fs.readFileSync(p)], without an encoding: a [Buffer] with the bytes of
    the file. *)
Definition readFileSync (p : jsstring) (root : Node) : Error + Value :=
  match fs.resolve p with
  | Some segs =>
      match fs.stat segs root with
      | Some (fs.KFile data) => inr (VObj (CBuffer (content data)) [])
      | Some fs.KDir =>
          inl (MkError [TLit "EISDIR: illegal operation on a directory, read"])
      | None => inl (fs.errno "ENOENT: no such file or directory" "open" p)
      end
  | None => inl (fs.errno "EACCES: permission denied" "open" p)
  end.

(** [v[0]] *)
Definition index0 (v : Value) : Error + Value :=
  match v with
  | VUndefined | VNull =>
      inl (MkError [TLit "Cannot read properties of "; TVal v;
                    TLit " (reading '0')"])
  | VArr items => inr (default VUndefined (head items))
  | VStr s => inr (match s with c :: _ => VStr [c] | [] => VUndefined end)
  | VObj _ _ => getProp v "0"
  | _ => inr VUndefined
  end.

(** A synchronous expression that reads the disk and may throw, and one
    that does not touch the world. *)
Definition fromDisk {A} (q : Node -> Error + A) : Sync A :=
  fun w => (q (disk w), w).

Definition lift {A} (r : Error + A) : Sync A := fun w => (r, w).

Module auth.

(** What the file asks of other packages: [JSON], the OAuth2 client of
    [googleapis], and [readline].  The constructor and the methods of the
    client return or throw; a method that changes the client gives the
    client after the call.  [question] is the line typed at the prompt,
    [getToken] the error or the token that its callback receives. *)
Record Lib := {
  JSON_parse : Value -> Error + Value;
  JSON_stringify : Value -> Error + Value;
  OAuth2 : Value -> Value -> Value -> Error + Value;
  setCredentials : Value -> Value -> Error + Value;
  generateAuthUrl : Value -> Value -> Error + Value;
  question : jsstring -> jsstring;
  getToken : Value -> Value -> Error + Value
}.

(** How a call ends: its promise settles, or an exception leaves a
    callback, uncaught, and the promise never settles. *)
Inductive End :=
| Settles (o : Outcome)
| Uncaught (e : Error).

(** Lines 5-6. *)
Definition SCOPES : list jsstring :=
  [ lit "https://www.googleapis.com/auth/drive.readonly";
    lit "https://www.googleapis.com/auth/drive.file" ].

Definition TOKEN_PATH : jsstring := lit "token.json".

(** [const { client_secret, client_id, redirect_uris } = v], line 10. *)
Definition destructure (v : Value) : Error + (Value * Value * Value) :=
  match v with
  | VUndefined | VNull =>
      inl (MkError [TLit "Cannot destructure property 'client_secret' of 'credentials.installed' as it is ";
                    TVal v; TLit "."])
  | _ => inr (prop v "client_secret", prop v "client_id", prop v "redirect_uris")
  end.

(** Lines 9-11 of [authorize]: the client, from [credentials.json]. *)
Definition newClient (lib : Lib) : Sync Value :=
  buffer ← fromDisk (readFileSync (lit "credentials.json")) ;
  credentials ← lift (JSON_parse lib buffer) ;
  installed ← lift (getProp credentials "installed") ;
  fields ← lift (destructure installed) ;
  let '(client_secret, client_id, redirect_uris) := fields in
  uri ← lift (index0 redirect_uris) ;
  lift (OAuth2 lib client_id client_secret uri).

(** The [try] block of [authorize], lines 15-17: the client with the
    token of [token.json]. *)
Definition withStoredToken (lib : Lib) (oAuth2Client : Value) : Sync Value :=
  token ← fromDisk (readFileSync TOKEN_PATH) ;
  parsed ← lift (JSON_parse lib token) ;
  lift (setCredentials lib oAuth2Client parsed).

(** [getNewToken(oAuth2Client)], lines 23-49.  The callback of
    [rl.question] and the callback of [getToken] run after the function
    has returned its promise: what they throw is not caught by anyone. *)
Definition getNewToken (lib : Lib) (oAuth2Client : Value) (w : World)
    : End * World :=
  match generateAuthUrl lib oAuth2Client
          (obj [("access_type", str "offline");
                ("scope", VArr (map VStr SCOPES))]) with
  | inl e => (Settles (Rejected e), w)
  | inr authUrl =>
      let w1 := print stdout [TLit "Authorize this app by visiting this url:";
                              TLit " "; TVal authUrl] w in
      let code := question lib (lit "Enter code from URL: ") in
      match getToken lib oAuth2Client (VStr code) with
      | inl err => (Settles (Rejected err), w1)
      | inr token =>
          match setCredentials lib oAuth2Client token with
          | inl e => (Uncaught e, w1)
          | inr client =>
              match JSON_stringify lib token with
              | inl e => (Uncaught e, w1)
              | inr text =>
                  match fs.writeFileSync TOKEN_PATH text (disk w1) with
                  | inl e => (Uncaught e, w1)
                  | inr d =>
                      (Settles (Fulfilled client),
                       print stdout [TLit "Token stored to"; TLit " ";
                                     TStr TOKEN_PATH]
                         {| disk := d; console := console w1 |})
                  end
              end
          end
      end
  end.

(** [authorize()], lines 8-21. *)
Definition authorize (lib : Lib) (w : World) : End * World :=
  match newClient lib w with
  | (inl e, w1) => (Settles (Rejected e), w1)
  | (inr oAuth2Client, w1) =>
      match withStoredToken lib oAuth2Client w1 with
      | (inr client, w2) => (Settles (Fulfilled client), w2)
      | (inl _, w2) => getNewToken lib oAuth2Client w2
      end
  end.

End auth.

(* ===================================================================== *)
(** * 15. A sample authorization *)
(* ===================================================================== *)

(** Libraries that know two texts: the credentials and the token. *)
Definition sampleToken : Value := obj [("access_token", str "ya29.sample")].

Definition sampleLib : auth.Lib :=
  {| auth.JSON_parse := fun v =>
       match v with
       | VObj (CBuffer b) _ =>
           if decide (map Byte.to_N b = map Byte.to_N (utf8 (lit "the credentials"))) then
             inr (obj [("installed",
                        obj [("client_id", str "id"); ("client_secret", str "secret");
                             ("redirect_uris", VArr [str "http://localhost"])])])
           else if decide (map Byte.to_N b = map Byte.to_N (utf8 (lit "the token")))
           then inr sampleToken
           else inl (MkError [TLit "Unexpected token in JSON"])
       | _ => inl (MkError [TLit "Unexpected token in JSON"])
       end;
     auth.JSON_stringify := fun _ => inr (str "the token");
     auth.OAuth2 := fun client_id client_secret uri =>
       inr (obj [("_clientId", client_id); ("_clientSecret", client_secret);
                 ("redirectUri", uri)]);
     auth.setCredentials := fun client token =>
       inr (match client with
            | VObj c props => VObj c (props ++ [("credentials", token)])
            | _ => client
            end);
     auth.generateAuthUrl := fun _ _ => inr (str "https://accounts.example/auth");
     auth.question := fun _ => lit "4/sample-code";
     auth.getToken := fun _ _ => inr sampleToken |}.

Definition sampleClient : Value :=
  obj [("_clientId", str "id"); ("_clientSecret", str "secret");
       ("redirectUri", str "http://localhost")].

(** A working directory with [credentials.json] and nothing else, and one
    where a directory has the place of [token.json]. *)
Definition freshWorld : World :=
  {| disk := Dir {[ lit "credentials.json" := File (FText (lit "the credentials")) ]};
     console := [] |}.

Definition tokenDirWorld : World :=
  {| disk := Dir (<[ lit "token.json" := Dir ∅ ]>
                    {[ lit "credentials.json" :=
                         File (FText (lit "the credentials")) ]});
     console := [] |}.
(* ===================================================================== *)
(** * Theorems *)
(* ===================================================================== *)

(** ** Tactics *)

(** Case analysis on what the outside answers and on what a property
    read gives, along the body of a program. *)

Ltac case_prog :=
  repeat (cbn;
          match goal with
          | |- context [orThrow _ ?o] => destruct o eqn:?
          | |- context [get ?e _] => destruct e eqn:?
          | |- context [match ?x with _ => _ end] => destruct x eqn:?
          | |- context [if ?x then _ else _] => destruct x eqn:?
          end);
  cbn.

(* ===================================================================== *)
(** * A. Strings and the spreadsheet extractor *)
(* ===================================================================== *)

Lemma trimStart_nil_iff s : Str.trimStart s = [] ↔ forallb Str.isWhiteSpace s = true.
Proof.
  induction s as [|c s IH]; simpl; [done|].
  destruct (Str.isWhiteSpace c); simpl; [done|]. split; discriminate.
Qed.

Lemma trim_nil_iff s : Str.trim s = [] ↔ forallb Str.isWhiteSpace s = true.
Proof.
  unfold Str.trim, Str.trimEnd. rewrite <- trimStart_nil_iff. split.
  - intros H. apply (f_equal (@rev N)) in H. rewrite rev_involutive in H.
    simpl in H. destruct (Str.trimStart s) as [|c t] eqn:E; [done|].
    exfalso. simpl in H.
    assert (Hne : Str.trimStart (rev t ++ [c]) ≠ []).
    { clear -E. assert (Hc : Str.isWhiteSpace c = false).
      { clear -E. induction s as [|x s IH]; simpl in E; [done|].
        destruct (Str.isWhiteSpace x) eqn:Ex; [auto|]. congruence. }
      induction (rev t) as [|y r IH]; simpl.
      - rewrite Hc. done.
      - destruct (Str.isWhiteSpace y); [exact IH | done]. }
    done.
  - intros ->. done.
Qed.

Lemma truthy_trim line :
  Str.truthy (Str.trim line) = negb (spec_blank line).
Proof.
  unfold spec_blank. destruct (forallb Str.isWhiteSpace line) eqn:E.
  - apply trim_nil_iff in E. rewrite E. done.
  - destruct (Str.trim line) eqn:Et; [|done].
    apply trim_nil_iff in Et. congruence.
Qed.

Lemma replaceAll_split_join c d s :
  Str.replaceAll c d s = Str.join d (Str.split c s).
Proof.
  induction s as [|x s IH]; simpl; [done|].
  destruct (x =? c) eqn:E.
  - rewrite IH. destruct (Str.split c s) eqn:Es; [|done].
    destruct s; simpl in Es; [done|].
    destruct (n =? c); [done|]. destruct (Str.split c s); done.
  - rewrite IH. destruct (Str.split c s) as [|l ls] eqn:Es.
    + destruct s; simpl in Es; [done|].
      destruct (n =? c); [done|]. destruct (Str.split c s); done.
    + simpl. destruct ls; done.
Qed.

Lemma filter_blank body :
  List.filter (fun line => Str.truthy (Str.trim line)) (Str.split LF body) =
  List.filter (fun line => negb (spec_blank line)) (Str.split LF body).
Proof.
  induction (Str.split LF body) as [|l ls IH]; simpl; [done|].
  rewrite truthy_trim, IH. done.
Qed.

Lemma formattedText_spec body : formattedText body = spec_flatten body.
Proof.
  unfold formattedText, spec_flatten. rewrite filter_blank. f_equal.
  apply map_ext. intros line. apply replaceAll_split_join.
Qed.

Lemma replaceAll_no_char c by_ s : c ∉ by_ -> c ∉ Str.replaceAll c by_ s.
Proof.
  intros Hby. induction s as [|x s IH]; simpl; [apply not_elem_of_nil|].
  destruct (x =? c) eqn:E.
  - rewrite elem_of_app. by intros [?|?].
  - apply not_elem_of_cons. split; [|done]. apply N.eqb_neq in E. congruence.
Qed.

Lemma join_no_char c sep (l : list jsstring) :
  c ∉ sep -> Forall (fun s => c ∉ s) l -> c ∉ Str.join sep l.
Proof.
  intros Hsep Hl. induction Hl as [|s l Hs Hl IH]; [apply not_elem_of_nil|].
  destruct l as [|t l]; [done|].
  change (Str.join sep (s :: t :: l)) with (s ++ sep ++ Str.join sep (t :: l)).
  rewrite !elem_of_app. by intros [?|[?|?]].
Qed.

Lemma formattedText_no_comma body : COMMA ∉ formattedText body.
Proof.
  unfold formattedText. apply join_no_char.
  - apply (bool_decide_unpack _). vm_compute. exact I.
  - apply Forall_forall. intros s Hs. apply list_elem_of_fmap in Hs as [line [-> _]].
    apply replaceAll_no_char. apply (bool_decide_unpack _). vm_compute. exact I.
Qed.

Lemma formattedText_no_blank_line body line :
  line ∈ List.filter (fun line => Str.truthy (Str.trim line)) (Str.split LF body) ->
  spec_blank line = false.
Proof.
  intros Hin. apply list_elem_of_In, filter_In in Hin as [_ Hin].
  rewrite truthy_trim in Hin. by apply negb_true_iff.
Qed.

(** C3.  For every export body, the spreadsheet extractor's text is the
    body split into lines, without the lines made of white space only, with
    [" | "] in the place of every comma, joined with newlines: no comma is
    left in it; this is what [extractSpreadsheetText] saves and returns
    when the export answers with the body; and the body
    ["a,b,c\n\n1,2,3\n"] gives ["a | b | c\n1 | 2 | 3"]. *)
Theorem spreadsheet_flattening :
  (forall body, formattedText body = spec_flatten body) /\
  (forall body, COMMA ∉ formattedText body) /\
  (forall body drive fileId fileName w,
      runAlone (answering (obj [("data", VStr body)]))
        (extractSpreadsheetText drive fileId fileName) w =
      (saveFile (VStr (spec_flatten body)) fileName
         (lit "./saved-outputs/spreadsheet") (extracting fileName w),
       Fulfilled (VStr (spec_flatten body)))) /\
  formattedText (lit "a,b,c" ++ [LF; LF] ++ lit "1,2,3" ++ [LF]) =
    lit "a | b | c" ++ [LF] ++ lit "1 | 2 | 3".
Proof.
  split; [exact formattedText_spec|].
  split; [exact formattedText_no_comma|]. split; [|reflexivity].
  intros. rewrite <- formattedText_spec. reflexivity.
Qed.

(* ===================================================================== *)
(** * B. Paths *)
(* ===================================================================== *)

(** [path.parse] and [path.join] on the examples of Node's documentation
    and on the edges of the extension rule. *)

Example parse_ex1 : path.name (path.parse (lit "/home/user/dir/file.txt")) = lit "file". Proof. reflexivity. Qed.
Example parse_ex2 : path.name (path.parse (lit "Report.docx")) = lit "Report". Proof. reflexivity. Qed.
Example parse_ex3 : path.name (path.parse (lit ".bashrc")) = lit ".bashrc". Proof. reflexivity. Qed.
Example parse_ex4 : path.name (path.parse (lit "a.b.c")) = lit "a.b". Proof. reflexivity. Qed.
Example parse_ex5 : path.name (path.parse (lit "..")) = lit "..". Proof. reflexivity. Qed.
Example parse_ex6 : path.name (path.parse (lit "...")) = lit "..". Proof. reflexivity. Qed.
Example parse_ex7 : path.name (path.parse (lit "a/b.txt//")) = lit "b". Proof. reflexivity. Qed.
Example parse_ex8 : path.name (path.parse []) = []. Proof. reflexivity. Qed.
Example parse_ex9 : path.name (path.parse (lit "file.")) = lit "file". Proof. reflexivity. Qed.
Example parse_ex10 : path.name (path.parse (lit "..x")) = lit ".". Proof. reflexivity. Qed.
Example join_ex1 : path.join (lit "./saved-outputs/word-doc") (lit "Report-converted.txt") = lit "saved-outputs/word-doc/Report-converted.txt". Proof. reflexivity. Qed.
Example join_ex2 : path.join (lit "/foo/bar") (lit "baz/asdf/quux/..") = lit "/foo/bar/baz/asdf". Proof. reflexivity. Qed.
Example join_ex3 : path.normalize (lit "/foo/bar//baz/asdf/quux/..") = lit "/foo/bar/baz/asdf". Proof. reflexivity. Qed.
Example join_ex4 : path.normalize (lit "../../a/../b/") = lit "../../b/". Proof. reflexivity. Qed.
Example join_ex5 : path.normalize (lit "a/..") = lit ".". Proof. reflexivity. Qed.
Example join_ex6 : path.normalize (lit "/..") = lit "/". Proof. reflexivity. Qed.
Example join_ex7 : path.normalize (lit "./") = lit "./". Proof. reflexivity. Qed.

(** ** Segments *)

Lemma elem_of_rev {A} (x : A) l : x ∈ rev l <-> x ∈ l.
Proof. rewrite !list_elem_of_In. symmetry. apply in_rev. Qed.

Lemma takeWhile_notSlash l : SLASH ∉ path.takeWhile path.notSlash l.
Proof.
  induction l as [|c l IH]; simpl; [apply not_elem_of_nil|].
  unfold path.notSlash at 1. destruct (c =? SLASH) eqn:E; simpl.
  - apply not_elem_of_nil.
  - apply not_elem_of_cons. split; [|done]. apply N.eqb_neq in E. congruence.
Qed.

Lemma dropWhile_subseteq f l : path.dropWhile f l ⊆ l.
Proof.
  induction l as [|c l IH]; simpl; [done|].
  destruct (f c); [|done]. set_solver.
Qed.

Lemma lastComponent_no_slash p : SLASH ∉ path.lastComponent p.
Proof.
  unfold path.lastComponent. rewrite elem_of_rev. apply takeWhile_notSlash.
Qed.

Lemma parse_name_no_slash p : SLASH ∉ path.name (path.parse p).
Proof.
  unfold path.parse. pose proof (lastComponent_no_slash p) as Hb.
  destruct (path.dropWhile _ _) as [|x [|y before]] eqn:E;
    cbn [path.name]; try done.
  case_decide; cbn [path.name]; [done|].
  rewrite elem_of_rev. intros Hin. apply Hb.
  rewrite <- elem_of_rev.
  apply (dropWhile_subseteq path.notDot).
  rewrite E. by apply list_elem_of_further.
Qed.

Lemma split_nonempty c s : Str.split c s <> [].
Proof.
  destruct s as [|x s]; simpl; [done|].
  destruct (x =? c); [done|]. destruct (Str.split c s); done.
Qed.

Lemma split_no_sep c s : c ∉ s -> Str.split c s = [s].
Proof.
  induction s as [|x s IH]; simpl; [done|]. intros Hn.
  apply not_elem_of_cons in Hn as [Hx Hs].
  destruct (x =? c) eqn:E; [apply N.eqb_eq in E; congruence|].
  by rewrite IH.
Qed.

Lemma split_app c a b :
  Str.split c (a ++ c :: b) = Str.split c a ++ Str.split c b.
Proof.
  induction a as [|x a IH]; simpl.
  - by rewrite N.eqb_refl.
  - destruct (x =? c); [by rewrite IH|].
    rewrite IH. pose proof (split_nonempty c a).
    destruct (Str.split c a); done.
Qed.

Lemma normalizeSegments_snoc b f : goodSegment f -> forall l acc,
  path.normalizeSegments b acc (l ++ [f]) = path.normalizeSegments b acc l ++ [f].
Proof.
  intros (_ & H0 & H1 & H2). induction l as [|s l IH]; intros acc; simpl.
  - rewrite decide_False by (intros [?|?]; done).
    by rewrite decide_False by done.
  - repeat case_decide; try done; destruct acc; try done; repeat case_decide; done.
Qed.

Lemma normalizeSegments_good b l : Forall goodSegment l -> forall acc,
  path.normalizeSegments b acc l = rev acc ++ l.
Proof.
  induction 1 as [|s l (_ & H0 & H1 & H2) Hl IH]; intros acc; simpl.
  - by rewrite app_nil_r.
  - rewrite decide_False by (intros [?|?]; done).
    rewrite decide_False by done. rewrite IH. simpl. by rewrite <- app_assoc.
Qed.

Lemma join_snoc sep l f :
  Str.join sep (l ++ [f]) =
  match l with [] => f | _ => Str.join sep l ++ sep ++ f end.
Proof.
  induction l as [|x l IH]; simpl; [done|].
  destruct l as [|y l]; simpl in *; [done|].
  rewrite IH. by rewrite <- !app_assoc.
Qed.

Lemma split_join l :
  l <> [] -> Forall (fun s => SLASH ∉ s) l ->
  Str.split SLASH (Str.join [SLASH] l) = l.
Proof.
  intros Hne Hl. induction Hl as [|s l Hs Hl IH]; [done|].
  destruct l as [|t l].
  - by apply split_no_sep.
  - change (Str.join [SLASH] (s :: t :: l))
      with (s ++ SLASH :: Str.join [SLASH] (t :: l)).
    rewrite split_app. rewrite (split_no_sep _ s) by done.
    rewrite IH by done. done.
Qed.

Lemma goodSegment_artifactName name : goodSegment (artifactName name).
Proof.
  unfold goodSegment, artifactName. split; [|split; [|split]].
  - rewrite elem_of_app. intros [H|H].
    + by apply parse_name_no_slash in H.
    + revert H. apply (bool_decide_unpack _). vm_compute. exact I.
  - intros H. apply (f_equal length) in H. rewrite length_app in H.
    simpl in H. vm_compute (length (lit _)) in H. lia.
  - intros H. apply (f_equal length) in H. rewrite length_app in H.
    simpl in H. vm_compute (length (lit _)) in H. lia.
  - intros H. apply (f_equal length) in H. rewrite length_app in H.
    simpl in H. vm_compute (length (lit _)) in H. lia.
Qed.

Lemma trailingSeparator_app a f :
  f <> [] -> SLASH ∉ f -> path.trailingSeparator (a ++ f) = false.
Proof.
  intros Hne Hf. unfold path.trailingSeparator. rewrite rev_app_distr.
  destruct (rev f) as [|x r] eqn:E.
  - apply (f_equal (@rev N)) in E. rewrite rev_involutive in E. done.
  - simpl. apply N.eqb_neq. intros ->. apply Hf. rewrite <- elem_of_rev, E.
    apply list_elem_of_here.
Qed.

Lemma join_snoc_nonempty sep l f : f <> [] -> Str.join sep (l ++ [f]) <> [].
Proof.
  intros Hf. rewrite join_snoc. destruct l; [done|].
  intros H. apply app_eq_nil in H as [_ H]. apply app_eq_nil in H as [_ H]. done.
Qed.

Lemma normalize_relative p :
  p <> [] -> path.isAbsolute p = false -> path.trailingSeparator p = false ->
  Str.join [SLASH] (path.normalizeSegments true [] (Str.split SLASH p)) <> [] ->
  path.normalize p =
    Str.join [SLASH] (path.normalizeSegments true [] (Str.split SLASH p)).
Proof.
  intros Hp Habs Htr Hres. unfold path.normalize.
  destruct p as [|c p]; [done|]. rewrite Habs, Htr. cbn [negb].
  destruct (Str.join _ _); done.
Qed.

Lemma path_join_dir_file d f :
  d <> [] -> path.isAbsolute d = false -> goodSegment f ->
  path.join d f =
    Str.join [SLASH] (path.normalizeSegments true [] (Str.split SLASH d) ++ [f]).
Proof.
  intros Hd Habs Hf. pose proof Hf as (Hns & Hne & _).
  assert (Hj : path.join d f = path.normalize (d ++ SLASH :: f)).
  { unfold path.join. destruct d; [done|]. destruct f; done. }
  rewrite Hj, normalize_relative.
  - rewrite split_app, (split_no_sep _ f) by done.
    by rewrite normalizeSegments_snoc.
  - by destruct d.
  - by destruct d.
  - change (d ++ SLASH :: f) with (d ++ [SLASH] ++ f). rewrite app_assoc.
    by apply trailingSeparator_app.
  - rewrite split_app, (split_no_sep _ f) by done.
    rewrite normalizeSegments_snoc by done. by apply join_snoc_nonempty.
Qed.

Lemma resolve_segments l :
  l <> [] -> Forall goodSegment l -> fs.resolve (Str.join [SLASH] l) = Some l.
Proof.
  intros Hne Hl. unfold fs.resolve.
  assert (Habs : path.isAbsolute (Str.join [SLASH] l) = false).
  { destruct Hl as [|s l (Hs & Hs0 & _) Hl]; [done|].
    destruct s as [|c s]; [done|].
    assert (Hc : (c =? SLASH) = false).
    { apply N.eqb_neq. intros ->. apply Hs. apply list_elem_of_here. }
    destruct l; exact Hc. }
  rewrite Habs. rewrite split_join; [|done|].
  - rewrite normalizeSegments_good by done. simpl.
    destruct Hl as [|s l (_ & _ & _ & Hs) Hl]; [done|].
    by rewrite decide_False.
  - eapply Forall_impl; [exact Hl|]. by intros s (? & _).
Qed.

Lemma outputDir_segments c :
  path.normalizeSegments true [] (Str.split SLASH (outputDir c)) =
    [lit "saved-outputs"; lit (dirName c)].
Proof. destruct c; reflexivity. Qed.

Lemma goodSegment_dir c :
  goodSegment (lit "saved-outputs") /\ goodSegment (lit (dirName c)).
Proof.
  assert (H : forall s, bool_decide (goodSegment s) = true -> goodSegment s).
  { intros s. apply bool_decide_eq_true. }
  split; [|destruct c]; apply H; vm_compute; reflexivity.
Qed.

Lemma artifactPath_outputDir c name :
  artifactPath (outputDir c) name = Str.join [SLASH] (artifactPlace c name).
Proof.
  unfold artifactPath.
  rewrite path_join_dir_file.
  - by rewrite outputDir_segments.
  - by destruct c.
  - by destruct c.
  - apply goodSegment_artifactName.
Qed.

Lemma resolve_artifactPath c name :
  fs.resolve (artifactPath (outputDir c) name) = Some (artifactPlace c name).
Proof.
  rewrite artifactPath_outputDir. apply resolve_segments.
  - unfold artifactPlace. discriminate.
  - destruct (goodSegment_dir c) as [Hso Hc]. unfold artifactPlace.
    apply List.Forall_cons; [exact Hso|].
    apply List.Forall_cons; [exact Hc|].
    apply List.Forall_cons; [apply goodSegment_artifactName|].
    apply List.Forall_nil.
Qed.

Lemma resolve_outputDir c :
  fs.resolve (outputDir c) = Some [lit "saved-outputs"; lit (dirName c)].
Proof. destruct c; reflexivity. Qed.

Lemma resolve_dir_file c f :
  goodSegment f ->
  fs.resolve (outputDir c ++ SLASH :: f) =
    Some [lit "saved-outputs"; lit (dirName c); f].
Proof.
  intros Hf. pose proof Hf as (Hns & _). unfold fs.resolve.
  assert (Habs : path.isAbsolute (outputDir c ++ SLASH :: f) = false)
    by (by destruct c).
  rewrite Habs, split_app, (split_no_sep _ f) by done.
  rewrite normalizeSegments_snoc, outputDir_segments by done. reflexivity.
Qed.

(** ** The base name *)

Lemma takeWhile_all f l :
  (forall x, x ∈ l -> f x = true) -> path.takeWhile f l = l.
Proof.
  induction l as [|c l IH]; intros H; simpl; [done|].
  rewrite H by apply list_elem_of_here. rewrite IH; [done|].
  intros x Hx. apply H. by apply list_elem_of_further.
Qed.

Lemma dropWhile_app_all f a b :
  (forall x, x ∈ a -> f x = true) ->
  path.dropWhile f (a ++ b) = path.dropWhile f b.
Proof.
  induction a as [|c a IH]; intros H; simpl; [done|].
  rewrite H by apply list_elem_of_here. apply IH.
  intros x Hx. apply H. by apply list_elem_of_further.
Qed.

Lemma notSlash_true (l : jsstring) x : SLASH ∉ l -> x ∈ l -> path.notSlash x = true.
Proof.
  intros Hl Hx. unfold path.notSlash. apply negb_true_iff, N.eqb_neq.
  by intros ->.
Qed.

Lemma notDot_true (l : jsstring) x : DOT ∉ l -> x ∈ l -> path.notDot x = true.
Proof.
  intros Hl Hx. unfold path.notDot. apply negb_true_iff, N.eqb_neq.
  by intros ->.
Qed.

Lemma lastComponent_plain name : SLASH ∉ name -> path.lastComponent name = name.
Proof.
  intros Hn. unfold path.lastComponent.
  assert (Hr : forall x, x ∈ rev name -> path.notSlash x = true).
  { intros x Hx. apply (notSlash_true name); [done|]. by apply elem_of_rev. }
  assert (Hd : path.dropWhile (fun c => c =? SLASH) (rev name) = rev name).
  { destruct (rev name) as [|c r]; [done|]. simpl.
    specialize (Hr c (list_elem_of_here _ _)). unfold path.notSlash in Hr.
    apply negb_true_iff in Hr. by rewrite Hr. }
  rewrite Hd, takeWhile_all by done. apply rev_involutive.
Qed.

Lemma parse_name_no_extension name :
  SLASH ∉ name -> DOT ∉ name -> path.name (path.parse name) = name.
Proof.
  intros Hs Hd. unfold path.parse. rewrite lastComponent_plain by done.
  rewrite <- (app_nil_r (rev name)), dropWhile_app_all; [done|].
  intros x Hx. apply (notDot_true name); [done|]. by apply elem_of_rev.
Qed.

Lemma parse_name_strips_extension stem ext :
  stem <> [] -> SLASH ∉ stem -> SLASH ∉ ext -> DOT ∉ ext ->
  stem ++ DOT :: ext <> [DOT; DOT] ->
  path.name (path.parse (stem ++ DOT :: ext)) = stem.
Proof.
  intros Hne Hs Hse Hde Hdots. unfold path.parse.
  rewrite lastComponent_plain.
  2:{ rewrite elem_of_app, elem_of_cons. intros [?|[?|?]]; done. }
  rewrite rev_app_distr. simpl. rewrite <- app_assoc.
  rewrite dropWhile_app_all.
  2:{ intros x Hx. apply (notDot_true ext); [done|]. by apply elem_of_rev. }
  change ([DOT] ++ rev stem) with (DOT :: rev stem).
  change (path.dropWhile path.notDot (DOT :: rev stem)) with (DOT :: rev stem).
  destruct (rev stem) as [|y before] eqn:E.
  { apply (f_equal (@rev N)) in E. rewrite rev_involutive in E. done. }
  rewrite decide_False by done. cbn [path.name].
  rewrite <- E. apply rev_involutive.
Qed.

Lemma parse_name_last_component name :
  path.lastComponent name <> [DOT; DOT] ->
  path.name (path.parse name) = spec_stripExtension (path.lastComponent name).
Proof.
  intros Hdots. unfold path.parse, spec_stripExtension.
  destruct (path.dropWhile _ _) as [|x [|y before]]; try reflexivity.
  by rewrite decide_False.
Qed.

Lemma spec_artifactPath_place c name :
  SLASH ∉ name -> name <> [DOT; DOT] ->
  fs.resolve (spec_artifactPath c name) = Some (artifactPlace c name).
Proof.
  intros Hs Hdots. unfold spec_artifactPath.
  rewrite <- (lastComponent_plain name Hs) at 1.
  rewrite <- parse_name_last_component by (by rewrite lastComponent_plain).
  assert (E : lit "./saved-outputs/" ++ lit (dirName c) ++ [SLASH] ++
              path.name (path.parse name) ++ lit "-converted.txt" =
              outputDir c ++ SLASH :: artifactName name).
  { unfold outputDir. rewrite <- app_assoc. reflexivity. }
  rewrite E. apply resolve_dir_file, goodSegment_artifactName.
Qed.

(* ===================================================================== *)
(** * C. The file system *)
(* ===================================================================== *)

Lemma mkdirp_lookup segs : forall n n',
  fs.mkdirp segs n = inr n' -> exists es, fs.lookup segs n' = Some (Dir es).
Proof.
  induction segs as [|s rest IH]; intros [d|es] n' H; simpl in H; try discriminate.
  - injection H as <-. eauto.
  - destruct (fs.mkdirp rest _) as [e|child] eqn:E; [discriminate|].
    injection H as <-. simpl. rewrite lookup_insert_eq. eauto.
Qed.

Lemma mkdirp_idem segs : forall n n',
  fs.mkdirp segs n = inr n' -> fs.mkdirp segs n' = inr n'.
Proof.
  induction segs as [|s rest IH]; intros [d|es] n' H; simpl in H; try discriminate.
  - injection H as <-. reflexivity.
  - destruct (fs.mkdirp rest _) as [e|child] eqn:E; [discriminate|].
    injection H as <-. simpl. rewrite lookup_insert_eq. simpl.
    rewrite (IH _ _ E). by rewrite insert_insert_eq.
Qed.

Lemma store_idem segs data : forall n n',
  fs.store segs data n = inr n' -> fs.store segs data n' = inr n'.
Proof.
  induction segs as [|s rest IH]; intros [d|es] n' H; simpl in H; try discriminate.
  - injection H as <-. reflexivity.
  - destruct (es !! s) as [child|] eqn:Es.
    + destruct (fs.store rest data child) as [e|child'] eqn:E; [discriminate|].
      injection H as <-. simpl. rewrite lookup_insert_eq.
      rewrite (IH _ _ E). by rewrite insert_insert_eq.
    + destruct rest; [|discriminate]. injection H as <-.
      simpl. rewrite lookup_insert_eq. by rewrite insert_insert_eq.
Qed.

Lemma store_lookup_is_Some q : forall p data n n',
  fs.store p data n = inr n' -> is_Some (fs.lookup q n) -> is_Some (fs.lookup q n').
Proof.
  induction q as [|s qr IH]; intros p data n n' H Hq; simpl; [eauto|].
  simpl in Hq. destruct n as [d|es]; [by destruct Hq|].
  destruct (es !! s) as [c|] eqn:Es; [|by destruct Hq].
  destruct p as [|t pr]; simpl in H; [discriminate|].
  destruct (es !! t) as [child|] eqn:Et.
  - destruct (fs.store pr data child) as [e|child'] eqn:E; [discriminate|].
    injection H as <-. destruct (decide (t = s)) as [->|Hne].
    + rewrite lookup_insert_eq. rewrite Es in Et. injection Et as ->.
      eapply IH; eauto.
    + rewrite lookup_insert_ne by done. rewrite Es. done.
  - destruct pr; [|discriminate]. injection H as <-.
    destruct (decide (t = s)) as [->|Hne]; [congruence|].
    rewrite lookup_insert_ne by done. rewrite Es. done.
Qed.

Lemma mkdirSync_exists p d d' :
  fs.mkdirSync p d = inr d' -> fs.existsSync p d' = true.
Proof.
  unfold fs.mkdirSync, fs.existsSync. destruct (fs.resolve p) as [segs|]; [|done].
  destruct (fs.mkdirp segs d) as [e|r] eqn:E; [done|]. intros [= <-].
  apply mkdirp_lookup in E as [es ->]. by apply bool_decide_eq_true.
Qed.

Lemma writeFileSync_exists p q text d d' :
  fs.writeFileSync p text d = inr d' ->
  fs.existsSync q d = true -> fs.existsSync q d' = true.
Proof.
  unfold fs.writeFileSync, fs.existsSync.
  destruct (fs.toFileData text) as [data|]; [|done].
  destruct (fs.resolve p) as [segs|]; [|done].
  destruct (fs.store segs data d) as [e|r] eqn:E; [done|]. intros [= <-].
  destruct (fs.resolve q) as [qs|]; [|done].
  rewrite !bool_decide_eq_true. eapply store_lookup_is_Some; eauto.
Qed.

Lemma writeFileSync_idem p text d d' :
  fs.writeFileSync p text d = inr d' -> fs.writeFileSync p text d' = inr d'.
Proof.
  unfold fs.writeFileSync.
  destruct (fs.toFileData text) as [data|]; [|done].
  destruct (fs.resolve p) as [segs|]; [|done].
  destruct (fs.store segs data d) as [e|r] eqn:E; [done|]. intros [= <-].
  by rewrite (store_idem _ _ _ _ E).
Qed.

Lemma diskAfterSave_idempotent text originalFileName outputDir d :
  diskAfterSave text originalFileName outputDir
    (diskAfterSave text originalFileName outputDir d) =
  diskAfterSave text originalFileName outputDir d.
Proof.
  assert (Hstep : forall d1, fs.existsSync outputDir d1 = true ->
     diskAfterSave text originalFileName outputDir
       (match originalFileName with
        | VStr s =>
            match fs.writeFileSync (artifactPath outputDir s) text d1 with
            | inr d2 => d2
            | inl _ => d1
            end
        | _ => d1
        end) =
     match originalFileName with
     | VStr s =>
         match fs.writeFileSync (artifactPath outputDir s) text d1 with
         | inr d2 => d2
         | inl _ => d1
         end
     | _ => d1
     end).
  { intros d1 Hex. unfold diskAfterSave.
    destruct originalFileName; try (rewrite Hex; reflexivity).
    destruct (fs.writeFileSync _ text d1) as [e|d2] eqn:Ew.
    - rewrite Hex, Ew. reflexivity.
    - rewrite (writeFileSync_exists _ _ _ _ _ Ew Hex).
      by rewrite (writeFileSync_idem _ _ _ _ Ew). }
  unfold diskAfterSave at 2 3.
  destruct (fs.existsSync outputDir d) eqn:Ex.
  - by apply Hstep.
  - destruct (fs.mkdirSync outputDir d) as [e|d1] eqn:Em.
    + unfold diskAfterSave. by rewrite Ex, Em.
    + apply Hstep. eapply mkdirSync_exists; eauto.
Qed.

(** ** What [stat] sees after [mkdir] and after a write *)

Lemma stat_nil n : fs.stat [] n = Some (fs.kindOf n).
Proof. reflexivity. Qed.

Lemma stat_cons s q es :
  fs.stat (s :: q) (Dir es) =
  match es !! s with Some c => fs.stat q c | None => None end.
Proof. unfold fs.stat. simpl. by destruct (es !! s). Qed.

Lemma stat_empty q : fs.stat q (Dir ∅) = match q with [] => Some fs.KDir | _ => None end.
Proof. destruct q; [done|]. by rewrite stat_cons, lookup_empty. Qed.

Lemma stat_mkdirp p : forall n n' q,
  fs.mkdirp p n = inr n' ->
  fs.stat q n' = if bool_decide (q `prefix_of` p) then Some fs.KDir else fs.stat q n.
Proof.
  induction p as [|s rest IH]; intros [data|es] n' q H; simpl in H; try discriminate.
  - injection H as <-. case_bool_decide as Hp; [|done].
    apply prefix_nil_inv in Hp as ->. done.
  - destruct (fs.mkdirp rest _) as [e|child] eqn:E; [discriminate|].
    injection H as <-. destruct q as [|t qr].
    { rewrite bool_decide_eq_true_2 by apply prefix_nil. done. }
    rewrite !stat_cons. destruct (decide (t = s)) as [->|Hne].
    + rewrite lookup_insert_eq. rewrite (IH _ _ qr E).
      destruct (decide (qr `prefix_of` rest)) as [Hp|Hp].
      * rewrite !bool_decide_eq_true_2; [done| |done]. by apply prefix_cons.
      * rewrite !bool_decide_eq_false_2; [|by intros ?%prefix_cons_inv_2|done].
        destruct (es !! s); simpl; [done|]. rewrite stat_empty.
        destruct qr; [|done]. destruct Hp. apply prefix_nil.
    + rewrite lookup_insert_ne by done.
      rewrite bool_decide_eq_false_2; [done|]. by intros ?%prefix_cons_inv_1.
Qed.

Lemma stat_store p data : forall n n' q,
  fs.store p data n = inr n' ->
  fs.stat q n' = if bool_decide (q = p) then Some (fs.KFile data) else fs.stat q n.
Proof.
  induction p as [|s rest IH]; intros [d0|es] n' q H; simpl in H; try discriminate.
  - injection H as <-. case_bool_decide as Hq; [by subst|]. by destruct q.
  - destruct (es !! s) as [child|] eqn:Es.
    + destruct (fs.store rest data child) as [e|child'] eqn:E; [discriminate|].
      injection H as <-. destruct q as [|t qr]; [done|].
      rewrite !stat_cons. destruct (decide (t = s)) as [->|Hne].
      * rewrite lookup_insert_eq, Es, (IH _ _ qr E).
        repeat case_bool_decide; congruence.
      * rewrite lookup_insert_ne by done. case_bool_decide; congruence.
    + destruct rest; [|discriminate]. injection H as <-.
      destruct q as [|t qr]; [done|].
      rewrite !stat_cons. destruct (decide (t = s)) as [->|Hne].
      * rewrite lookup_insert_eq, Es. destruct qr; [by rewrite bool_decide_eq_true_2|].
        by rewrite bool_decide_eq_false_2.
      * rewrite lookup_insert_ne by done. case_bool_decide; congruence.
Qed.

Lemma mkdirp_succeeds p : forall n,
  (forall q data, q `prefix_of` p -> fs.stat q n <> Some (fs.KFile data)) ->
  exists n', fs.mkdirp p n = inr n'.
Proof.
  induction p as [|s rest IH]; intros [d0|es] H; simpl.
  - destruct (H [] d0); [apply prefix_nil|done].
  - eauto.
  - destruct (H [] d0); [apply prefix_nil|done].
  - destruct (IH (default (Dir ∅) (es !! s))) as [child ->]; [|eauto].
    intros q data Hq Hst. apply (H (s :: q) data); [by apply prefix_cons|].
    rewrite stat_cons. destruct (es !! s); [done|]. simpl in Hst.
    rewrite stat_empty in Hst. by destruct q.
Qed.

Lemma store_succeeds q f data : forall n,
  fs.stat q n = Some fs.KDir -> fs.stat (q ++ [f]) n <> Some fs.KDir ->
  exists n', fs.store (q ++ [f]) data n = inr n'.
Proof.
  induction q as [|s qr IH]; intros [d0|es] Hq Hf; simpl in *; try discriminate.
  - rewrite stat_cons in Hf. destruct (es !! f) as [[d1|es1]|]; simpl; eauto. done.
  - rewrite stat_cons in Hq, Hf. destruct (es !! s) as [c|]; [|done].
    destruct (IH c Hq Hf) as [c' ->]. eauto.
Qed.

Lemma existsSync_stat p segs n :
  fs.resolve p = Some segs ->
  fs.existsSync p n = bool_decide (is_Some (fs.stat segs n)).
Proof.
  intros Hr. unfold fs.existsSync, fs.stat. rewrite Hr.
  apply bool_decide_ext. by rewrite fmap_is_Some.
Qed.

Lemma prefix_of_pair {A} (q : list A) a b :
  q `prefix_of` [a; b] -> q = [] \/ q = [a] \/ q = [a; b].
Proof.
  intros [k Hk]. destruct q as [|x [|y [|z q]]]; simplify_eq/=; auto.
Qed.

Lemma read_stat q n :
  fs.read q n = match fs.stat q n with Some (fs.KFile d) => Some d | _ => None end.
Proof. reflexivity. Qed.

Lemma read_None_not_file q n :
  (forall d, fs.stat q n <> Some (fs.KFile d)) -> fs.read q n = None.
Proof.
  intros H. rewrite read_stat. destruct (fs.stat q n) as [[d|]|] eqn:E; try done.
  by destruct (H d).
Qed.

(** ** [saveFile] on a disk where nothing stands in the way *)

(** The directory of a category on a writable disk: once [saveFile] has
    looked for it and created it if needed, it is there. *)
Lemma ensureDir_writable c n :
  writable n ->
  exists n1,
    (if fs.existsSync (outputDir c) n then Some n
     else match fs.mkdirSync (outputDir c) n with
          | inr d' => Some d'
          | inl _ => None
          end) = Some n1 /\
    writable n1 /\
    fs.stat [lit "saved-outputs"; lit (dirName c)] n1 = Some fs.KDir /\
    (forall q, fs.read q n1 = fs.read q n).
Proof.
  intros Hw. pose proof Hw as (Hroot & H1 & H2 & H3).
  rewrite (existsSync_stat _ _ _ (resolve_outputDir c)).
  case_bool_decide as Hex.
  - exists n. repeat split; try done.
    destruct Hex as [[d|] Hk]; [|done]. by destruct (H2 _ _ Hk).
  - unfold fs.mkdirSync. rewrite resolve_outputDir.
    destruct (mkdirp_succeeds [lit "saved-outputs"; lit (dirName c)] n) as [n1 Hn1].
    { intros q data [->| [->| ->]]%prefix_of_pair; [congruence|apply H1|apply H2]. }
    rewrite Hn1. exists n1. split; [done|].
    pose proof (fun q => stat_mkdirp _ _ _ q Hn1) as Hst.
    assert (Hread : forall q, fs.read q n1 = fs.read q n).
    { intros q. rewrite (read_stat q n1), Hst. case_bool_decide as Hp; [|done].
      symmetry. apply read_None_not_file. intros d.
      apply prefix_of_pair in Hp as [->| [->| ->]];
        [congruence|apply H1|apply H2]. }
    split; [|split; [|done]].
    + split; [|split; [|split]].
      * rewrite Hst. by rewrite bool_decide_eq_true_2 by apply prefix_nil.
      * intros data. rewrite Hst. case_bool_decide; [done|apply H1].
      * intros c' data. rewrite Hst. case_bool_decide; [done|apply H2].
      * intros c' f. rewrite Hst. rewrite bool_decide_eq_false_2; [apply H3|].
        intros Hp. apply prefix_length in Hp. simpl in Hp. lia.
    + rewrite Hst. by rewrite bool_decide_eq_true_2.
Qed.

Lemma writeFileSync_writable c s text data n1 :
  writable n1 ->
  fs.stat [lit "saved-outputs"; lit (dirName c)] n1 = Some fs.KDir ->
  fs.toFileData text = Some data ->
  exists n2,
    fs.writeFileSync (artifactPath (outputDir c) s) text n1 = inr n2 /\
    writable n2 /\
    fs.stat [lit "saved-outputs"; lit (dirName c)] n2 = Some fs.KDir /\
    (forall q, fs.read q n2 =
               if bool_decide (q = artifactPlace c s) then Some data
               else fs.read q n1).
Proof.
  intros Hw Hd Ht. pose proof Hw as (Hroot & H1 & H2 & H3).
  unfold fs.writeFileSync. rewrite Ht, resolve_artifactPath.
  destruct (store_succeeds [lit "saved-outputs"; lit (dirName c)]
              (artifactName s) data n1 Hd (H3 _ _)) as [n2 Hn2].
  change ([lit "saved-outputs"; lit (dirName c)] ++ [artifactName s])
    with (artifactPlace c s) in Hn2.
  rewrite Hn2. exists n2. split; [done|].
  pose proof (fun q => stat_store _ _ _ _ q Hn2) as Hst.
  split; [|split].
  - split; [|split; [|split]].
    + by rewrite Hst, bool_decide_eq_false_2.
    + intros d. rewrite Hst, bool_decide_eq_false_2 by done. apply H1.
    + intros c' d. rewrite Hst, bool_decide_eq_false_2 by done. apply H2.
    + intros c' f. rewrite Hst. case_bool_decide; [done|apply H3].
  - by rewrite Hst, bool_decide_eq_false_2.
  - intros q. rewrite !read_stat, Hst. by case_bool_decide.
Qed.

Lemma diskAfterSave_writable text originalFileName c n :
  writable n ->
  writable (diskAfterSave text originalFileName (outputDir c) n) /\
  fs.stat [lit "saved-outputs"; lit (dirName c)]
    (diskAfterSave text originalFileName (outputDir c) n) = Some fs.KDir /\
  forall q,
    fs.read q (diskAfterSave text originalFileName (outputDir c) n) =
    match fs.toFileData text, originalFileName with
    | Some data, VStr s =>
        if bool_decide (q = artifactPlace c s) then Some data else fs.read q n
    | _, _ => fs.read q n
    end.
Proof.
  intros Hw. destruct (ensureDir_writable c n Hw) as (n1 & E1 & Hw1 & Hd1 & Hr1).
  unfold diskAfterSave. rewrite E1.
  assert (Hkeep : writable n1 /\
            fs.stat [lit "saved-outputs"; lit (dirName c)] n1 = Some fs.KDir /\
            forall q, fs.read q n1 = fs.read q n) by done.
  destruct originalFileName as [| | | |s| | |];
    try (destruct (fs.toFileData text); exact Hkeep).
  destruct (fs.toFileData text) as [data|] eqn:Et.
  - destruct (writeFileSync_writable c s text data n1 Hw1 Hd1 Et)
      as (n2 & -> & Hw2 & Hd2 & Hr2).
    split; [done|]. split; [done|]. intros q. rewrite Hr2. by rewrite Hr1.
  - unfold fs.writeFileSync. rewrite Et. exact Hkeep.
Qed.

Lemma saveFile_afterSave text originalFileName outputDir w :
  saveFile text originalFileName outputDir w =
  afterSave text originalFileName outputDir w.
Proof.
  unfold saveFile, afterSave, stry, mbind, mret, Sync_bind, Sync_ret, sbind,
    onDiskRead.
  destruct (fs.existsSync outputDir (disk w)) eqn:Ex; cbn [negb].
  - unfold sret at 1. destruct originalFileName; cbn; try reflexivity.
    unfold onDisk, artifactPath, artifactName. cbn.
    destruct (fs.writeFileSync _ text (disk w)); reflexivity.
  - unfold onDisk at 1. destruct (fs.mkdirSync outputDir (disk w)) as [e|d1]; cbn;
      [reflexivity|].
    destruct originalFileName; cbn; try reflexivity.
    unfold onDisk, artifactPath, artifactName. cbn.
    destruct (fs.writeFileSync _ text d1); reflexivity.
Qed.

Lemma afterSave_disk text originalFileName outputDir w :
  disk (afterSave text originalFileName outputDir w) =
  diskAfterSave text originalFileName outputDir (disk w).
Proof.
  unfold afterSave, diskAfterSave.
  destruct (fs.existsSync outputDir (disk w)).
  - destruct originalFileName; try reflexivity.
    destruct (fs.writeFileSync _ text (disk w)); reflexivity.
  - destruct (fs.mkdirSync outputDir (disk w)) as [e|d1]; [reflexivity|].
    destruct originalFileName; try reflexivity. cbn.
    destruct (fs.writeFileSync _ text d1); reflexivity.
Qed.

Lemma saveFile_disk text originalFileName outputDir w :
  disk (saveFile text originalFileName outputDir w) =
  diskAfterSave text originalFileName outputDir (disk w).
Proof. rewrite saveFile_afterSave. apply afterSave_disk. Qed.

Lemma saveFile_idempotent_disk text originalFileName outputDir w :
  disk (saveFile text originalFileName outputDir
          (saveFile text originalFileName outputDir w)) =
  disk (saveFile text originalFileName outputDir w).
Proof. rewrite !saveFile_disk. apply diskAfterSave_idempotent. Qed.

Lemma saveFile_success_console text s c w data :
  writable (disk w) -> fs.toFileData text = Some data ->
  console (saveFile text (VStr s) (outputDir c) w) =
    console w ++
    (if fs.existsSync (outputDir c) (disk w) then [] else [createdLine]) ++
    [savedLine (artifactPath (outputDir c) s)].
Proof.
  intros Hw Ht. rewrite saveFile_afterSave. unfold afterSave.
  destruct (ensureDir_writable c (disk w) Hw) as (n1 & E1 & Hw1 & Hd1 & _).
  destruct (fs.existsSync (outputDir c) (disk w)).
  - injection E1 as <-.
    destruct (writeFileSync_writable c s text data _ Hw1 Hd1 Ht) as (n2 & -> & _).
    reflexivity.
  - destruct (fs.mkdirSync (outputDir c) (disk w)) as [e|d1]; [discriminate|].
    injection E1 as <-. cbn [disk console].
    destruct (writeFileSync_writable c s text data _ Hw1 Hd1 Ht) as (n2 & -> & _).
    cbn. by rewrite <- app_assoc.
Qed.

Lemma saveFile_console_grows text originalFileName dir w :
  exists more, console (saveFile text originalFileName dir w) = console w ++ more.
Proof.
  rewrite saveFile_afterSave. unfold afterSave.
  destruct (fs.existsSync dir (disk w)).
  - destruct originalFileName; try (eexists; reflexivity).
    destruct (fs.writeFileSync _ text (disk w)); eexists; reflexivity.
  - destruct (fs.mkdirSync dir (disk w)) as [e|d1]; [eexists; reflexivity|].
    destruct originalFileName; cbn [disk console];
      try (eexists; rewrite <- app_assoc; reflexivity).
    destruct (fs.writeFileSync _ text d1); eexists; cbn [console];
      rewrite <- app_assoc; reflexivity.
Qed.

Lemma saveFile_reports text originalFileName dir w :
  (exists p, last (console (saveFile text originalFileName dir w)) =
               Some (savedLine p)) \/
  (exists e, last (console (saveFile text originalFileName dir w)) =
               Some (errorSavingLine e)).
Proof.
  rewrite saveFile_afterSave. unfold afterSave.
  destruct (fs.existsSync dir (disk w)).
  - destruct originalFileName;
      try (right; eexists; cbn [console]; apply last_snoc).
    destruct (fs.writeFileSync _ text (disk w));
      [right|left]; eexists; cbn [console]; apply last_snoc.
  - destruct (fs.mkdirSync dir (disk w)) as [e|d1];
      [right; eexists; cbn [console]; apply last_snoc|].
    destruct originalFileName;
      try (right; eexists; cbn [console]; apply last_snoc).
    destruct (fs.writeFileSync _ text _);
      [right|left]; eexists; cbn [console]; apply last_snoc.
Qed.

Lemma writable_empty : writable (disk emptyWorld).
Proof.
  change (disk emptyWorld) with (Dir ∅).
  split; [reflexivity|]. split; [|split]; intros;
    rewrite stat_empty; discriminate.
Qed.

Lemma no_file_empty P : ~ hasFile P emptyWorld.
Proof.
  unfold hasFile. change (disk emptyWorld) with (Dir ∅).
  rewrite read_stat, stat_empty. destruct P; by intros [? ?].
Qed.

(* ===================================================================== *)
(** * D. The artifact: its path, and saving twice *)
(* ===================================================================== *)

Lemma extractors_save_into :
  savesInto pdf extractPDFText /\ savesInto document extractDocumentText /\
  savesInto spreadsheet extractSpreadsheetText /\
  savesInto presentation extractPresentationText /\
  savesInto word_doc extractWordDoc /\ savesInto plain_text extractPlainText.
Proof.
  repeat split; intros env drive fileId fileName w;
    unfold extractPDFText, extractDocumentText, extractSpreadsheetText,
      extractPresentationText, extractWordDoc, extractPlainText,
      handleArrayBuffer;
    case_prog;
    first [ left; reflexivity
          | right; eexists; rewrite saveFile_disk; reflexivity ].
Qed.






(* ===================================================================== *)
(** * E. The calls to the drive *)
(* ===================================================================== *)

Lemma extractDocumentText_calls env drive fileId fileName :
  calls env (extractDocumentText drive fileId fileName) =
    [exportCall drive fileId "text/plain"].
Proof. unfold extractDocumentText, exportCall. case_prog; done. Qed.

Lemma extractPresentationText_calls env drive fileId fileName :
  calls env (extractPresentationText drive fileId fileName) =
    [exportCall drive fileId "text/plain"].
Proof. unfold extractPresentationText, exportCall. case_prog; done. Qed.

Lemma extractSpreadsheetText_calls env drive fileId fileName :
  calls env (extractSpreadsheetText drive fileId fileName) =
    [exportCall drive fileId "text/csv"].
Proof. unfold extractSpreadsheetText, exportCall. case_prog; done. Qed.

Lemma calls_awaitCall_Ret env p :
  calls env (let%call text := p in Ret text) = calls env p.
Proof.
  unfold awaitCall.
  induction p as [v|e|f k IH|fn args k IH|pr k IH|t IHt k IHk]; cbn; auto.
  - f_equal. apply IH.
  - destruct pr; [f_equal|]; apply IH.
  - f_equal. apply IHk.
Qed.

(** C7.  Whatever the drive answers, the only call a native document or a
    native presentation makes is an export asking for [text/plain], and the
    only call a native spreadsheet makes is an export asking for
    [text/csv]; this is so for the extractors and for the case of the
    [switch] that their MIME types select. *)
Theorem export_target_types env drive fileId fileName :
  calls env (dispatch drive fileId fileName
               (str "application/vnd.google-apps.document")) =
    [(files_export,
      [drive; obj [("fileId", fileId); ("mimeType", str "text/plain")]])] /\
  calls env (dispatch drive fileId fileName
               (str "application/vnd.google-apps.presentation")) =
    [(files_export,
      [drive; obj [("fileId", fileId); ("mimeType", str "text/plain")]])] /\
  calls env (dispatch drive fileId fileName
               (str "application/vnd.google-apps.spreadsheet")) =
    [(files_export,
      [drive; obj [("fileId", fileId); ("mimeType", str "text/csv")]])].
Proof.
  repeat split.
  - change (dispatch drive fileId fileName
              (str "application/vnd.google-apps.document"))
      with (let%call text := extractDocumentText drive fileId fileName in Ret text).
    rewrite calls_awaitCall_Ret. apply extractDocumentText_calls.
  - change (dispatch drive fileId fileName
              (str "application/vnd.google-apps.presentation"))
      with (let%call text := extractPresentationText drive fileId fileName in Ret text).
    rewrite calls_awaitCall_Ret. apply extractPresentationText_calls.
  - change (dispatch drive fileId fileName
              (str "application/vnd.google-apps.spreadsheet"))
      with (let%call text := extractSpreadsheetText drive fileId fileName in Ret text).
    rewrite calls_awaitCall_Ret. apply extractSpreadsheetText_calls.
Qed.

(** C2.  The content of a word-processing document is asked from
    [drive.files.export] with [alt: 'media'], a response type and no target
    type, and [drive.files.get] is never called; the PDF and plain-text
    extractors ask [drive.files.get] with the same parameters. *)
Theorem extractWordDoc_calls_export env drive fileId fileName :
  head (calls env (extractWordDoc drive fileId fileName)) =
    Some (mediaCall files_export drive fileId "arraybuffer") /\
  Forall (fun c => fst c <> files_get)
    (calls env (extractWordDoc drive fileId fileName)) /\
  head (calls env (extractPDFText drive fileId fileName)) =
    Some (mediaCall files_get drive fileId "arraybuffer") /\
  head (calls env (extractPlainText drive fileId fileName)) =
    Some (mediaCall files_get drive fileId "text").
Proof.
  repeat split.
  unfold extractWordDoc, handleArrayBuffer.
  case_prog; repeat constructor; done.
Qed.

(* ===================================================================== *)
(** * F. The response-body normalizer *)
(* ===================================================================== *)

(** The claim C8 as it is stated fails on a response without a body: the
    probe for the collect operation reads a property of [undefined] and
    throws; [Buffer.from] is not called. *)
Lemma normalize_undefined_body_throws :
  handleArrayBuffer (obj [("data", VUndefined)]) <>
    spec_normalize (obj [("data", VUndefined)]) /\
  (forall env, calls env (handleArrayBuffer (obj [("data", VUndefined)])) = []) /\
  (forall env, calls env (spec_normalize (obj [("data", VUndefined)])) =
                 [(Buffer_from, [VUndefined])]).
Proof.
  split; [|split; [reflexivity|]].
  - intros H. cbv in H. discriminate H.
  - intros env. cbv. destruct (env Buffer_from [VUndefined]); reflexivity.
Qed.

(** C8, amended.  The shapes are probed in order and the first match wins:
    an [ArrayBuffer] body is wrapped at once, without any [await], even when
    it also has an [arrayBuffer] property; otherwise a body with an
    [arrayBuffer] method is collected and what was collected is wrapped;
    otherwise a body that is neither [undefined] nor [null] and whose
    [arrayBuffer] property is absent or falsy is wrapped as it is.  The
    bodies left out end in a [TypeError]: reading the property of
    [undefined] or [null] throws, and so does calling a truthy property
    that is not a function. *)
Theorem normalize_probe_order response body :
  getProp response "data" = inr body ->
  (instanceofArrayBuffer body = true ->
     handleArrayBuffer response = wrap body) /\
  (instanceofArrayBuffer body = false ->
     forall result, getProp body "arrayBuffer" = inr (VFun result) ->
     handleArrayBuffer response =
       (let%await collected := Settled result in wrap collected)) /\
  (instanceofArrayBuffer body = false ->
     forall property, getProp body "arrayBuffer" = inr property ->
     truthy property = false ->
     handleArrayBuffer response = wrap body) /\
  (body = VUndefined \/ body = VNull ->
     exists e, handleArrayBuffer response = Throw e) /\
  (instanceofArrayBuffer body = false ->
     forall property, getProp body "arrayBuffer" = inr property ->
     truthy property = true -> (forall result, property <> VFun result) ->
     handleArrayBuffer response =
       Throw (TypeError "response.data.arrayBuffer is not a function")).
Proof.
  intros Hdata. unfold handleArrayBuffer. rewrite Hdata. cbn [get].
  repeat split.
  - intros ->. reflexivity.
  - intros -> result ->. reflexivity.
  - intros -> property -> Hfalsy. cbn [get]. rewrite Hfalsy. reflexivity.
  - intros [-> | ->]; eexists; reflexivity.
  - intros -> property -> Htruthy Hnot. cbn [get]. rewrite Htruthy.
    destruct property; try reflexivity. destruct (Hnot result). reflexivity.
Qed.

(** An [ArrayBuffer] that also has an [arrayBuffer] method is wrapped
    without being collected. *)
Lemma normalize_probe_order_witness :
  handleArrayBuffer
    (obj [("data", VObj (CArrayBuffer [Byte.x25; Byte.x50])
                     [("arrayBuffer", VFun (Fulfilled VNull))])]) =
  wrap (VObj (CArrayBuffer [Byte.x25; Byte.x50])
          [("arrayBuffer", VFun (Fulfilled VNull))]).
Proof.
  exact (proj1 (normalize_probe_order
                  (obj [("data", VObj (CArrayBuffer [Byte.x25; Byte.x50])
                                   [("arrayBuffer", VFun (Fulfilled VNull))])])
                  _ eq_refl) eq_refl).
Defined.

(* ===================================================================== *)
(** * G. Dispatch on the MIME type *)
(* ===================================================================== *)

Lemma Set_has_fileTypes_inv m :
  Set_has fileTypes m = true -> exists s, m = VStr s /\ s ∈ fileTypes.
Proof.
  destruct m; try discriminate. simpl. intros H.
  apply bool_decide_eq_true in H. eauto.
Qed.

Lemma dispatch_unsupported drive fileId fileName m :
  Set_has fileTypes m = false ->
  dispatch drive fileId fileName m = Throw (unsupported m).
Proof.
  destruct m; try reflexivity. simpl. intros H.
  apply bool_decide_eq_false in H. unfold dispatch, switch. simpl.
  repeat case_bool_decide; try reflexivity; subst s; destruct H;
    unfold fileTypes; set_solver.
Qed.

Lemma dispatch_extractor drive fileId fileName m f :
  (m, f) ∈ extractors ->
  dispatch drive fileId fileName (VStr m) =
    (let%call text := f drive fileId fileName in Ret text).
Proof.
  intros Hin. unfold extractors in Hin.
  repeat (apply elem_of_cons in Hin as [[= -> ->] | Hin]; [reflexivity|]).
  inversion Hin.
Qed.

Lemma dispatch_cases drive fileId fileName m :
  dispatch drive fileId fileName m = Throw (unsupported m) \/
  exists l f, (l, f) ∈ extractors /\
    dispatch drive fileId fileName m =
      (let%call text := f drive fileId fileName in Ret text).
Proof.
  destruct (Set_has fileTypes m) eqn:E.
  - right. apply Set_has_fileTypes_inv in E as (s & -> & Hs).
    unfold fileTypes in Hs.
    repeat (apply elem_of_cons in Hs as [-> | Hs];
            [eexists _, _; split; [|reflexivity]; unfold extractors;
             repeat first [apply list_elem_of_here | apply list_elem_of_further]|]).
    inversion Hs.
  - left. by apply dispatch_unsupported.
Qed.



(* ===================================================================== *)
(** * H. How [extractText] settles *)
(* ===================================================================== *)

Lemma runAlone_outcome env p : forall w, snd (runAlone env p w) = outcome env p.
Proof.
  induction p as [v|e|f k IH|fn args k IH|pr k IH|t IHt k IHk]; intros w; cbn; auto.
Qed.

Lemma outcome_andThen env p k :
  outcome env (andThen p k) = outcome env (k (outcome env p)).
Proof.
  induction p as [v|e|f p IH|fn args c IH|pr c IH|t IHt p IHp]; cbn; auto.
Qed.

Lemma runAlone_andThen env p k : forall w,
  fst (runAlone env (andThen p k) w) =
  fst (runAlone env (k (outcome env p)) (fst (runAlone env p w))).
Proof.
  induction p as [v|e|f p IH|fn args c IH|pr c IH|t IHt p IHp]; intros w; cbn; auto.
Qed.

Lemma neverThrows_outcome env p :
  neverThrows p -> exists v, outcome env p = Fulfilled v.
Proof.
  induction p as [v|e|f k IH|fn args k IH|pr k IH|t IHt k IHk]; cbn; eauto.
  done.
Qed.

Lemma neverThrows_andThen p k :
  (forall o, neverThrows (k o)) -> neverThrows (andThen p k).
Proof.
  intros Hk.
  induction p as [v|e|f p IH|fn args c IH|pr c IH|t IHt p IHp]; cbn; auto.
Qed.

Lemma neverThrows_extractText drive fileId : neverThrows (extractText drive fileId).
Proof.
  unfold extractText, tryCatch. apply neverThrows_andThen.
  intros [v|e]; exact I.
Qed.

Lemma outcome_extractText env drive fileId :
  outcome env (extractText drive fileId) =
  match outcome env (extractText_body drive fileId) with
  | Fulfilled text => Fulfilled text
  | Rejected _ => Fulfilled VUndefined
  end.
Proof.
  unfold extractText, tryCatch. rewrite outcome_andThen.
  by destruct (outcome env (extractText_body drive fileId)).
Qed.

Lemma console_extractText_failure env drive fileId w e :
  outcome env (extractText_body drive fileId) = Rejected e ->
  last (console (fst (runAlone env (extractText drive fileId) w))) =
    Some (stderr, TLit "Error extracting text from file: " :: message e).
Proof.
  intros He. unfold extractText, tryCatch. rewrite runAlone_andThen, He.
  cbn. apply last_snoc.
Qed.

Lemma body_metadata_failure env drive fileId e :
  env files_get (metadataCall drive fileId) = Rejected e ->
  outcome env (extractText_body drive fileId) = Rejected e.
Proof. intros He. unfold extractText_body. cbn. by rewrite He. Qed.

Lemma body_unsupported env drive fileId name mimeType :
  env files_get (metadataCall drive fileId) =
    Fulfilled (obj [("data", obj [("name", name); ("mimeType", mimeType)])]) ->
  Set_has fileTypes mimeType = false ->
  outcome env (extractText_body drive fileId) = Rejected (unsupported mimeType).
Proof.
  intros He Hm. unfold extractText_body. cbn.
  rewrite He. cbn. change (getProp (obj [("data", obj [("name", name); ("mimeType", mimeType)])]) "data") with (@inr Error _ (obj [("name", name); ("mimeType", mimeType)])).
  cbn.
  change (getProp (obj [("name", name); ("mimeType", mimeType)]) "name") with (@inr Error _ name).
  change (getProp (obj [("name", name); ("mimeType", mimeType)]) "mimeType") with (@inr Error _ mimeType).
  cbn. by rewrite dispatch_unsupported.
Qed.

Lemma body_dispatch env drive fileId name m f :
  env files_get (metadataCall drive fileId) =
    Fulfilled (obj [("data", obj [("name", name); ("mimeType", VStr m)])]) ->
  (m, f) ∈ extractors ->
  outcome env (extractText_body drive fileId) = outcome env (f drive fileId name).
Proof.
  intros He Hin. unfold extractText_body. cbn. rewrite He. cbn.
  change (getProp (obj [("data", obj [("name", name); ("mimeType", VStr m)])]) "data")
    with (@inr Error _ (obj [("name", name); ("mimeType", VStr m)])).
  cbn.
  change (getProp (obj [("name", name); ("mimeType", VStr m)]) "name")
    with (@inr Error _ name).
  change (getProp (obj [("name", name); ("mimeType", VStr m)]) "mimeType")
    with (@inr Error _ (VStr m)).
  cbn. rewrite (dispatch_extractor _ _ _ _ _ Hin).
  unfold awaitCall. rewrite outcome_andThen. cbn.
  by destruct (outcome env (f drive fileId name)).
Qed.




(* ===================================================================== *)
(** * I. The batch *)
(* ===================================================================== *)

(** ** Steady statements and orderly programs *)

Lemma steady_print s msg : steady (print s msg).
Proof.
  intros w Hw. split; [exact Hw|]. split; [auto|]. split.
  - intros line Hl. unfold hasLine in *. cbn. apply elem_of_app. by left.
  - intros P w' Hw' HP. by left.
Qed.

Lemma steady_saveFile text originalFileName c :
  steady (saveFile text originalFileName (outputDir c)).
Proof.
  intros w Hw. unfold hasFile. rewrite saveFile_disk.
  destruct (diskAfterSave_writable text originalFileName c (disk w) Hw)
    as (Hw1 & _ & Hr).
  split; [done|]. split; [|split].
  - intros P HP. rewrite Hr.
    destruct (fs.toFileData text); [|done].
    destruct originalFileName; try done. by case_bool_decide.
  - intros line Hl. unfold hasLine in *.
    destruct (saveFile_console_grows text originalFileName (outputDir c) w)
      as [more ->].
    apply elem_of_app. by left.
  - intros P w' Hw' HP. rewrite saveFile_disk.
    destruct (diskAfterSave_writable text originalFileName c (disk w') Hw')
      as (_ & _ & Hr').
    rewrite Hr'. rewrite Hr in HP.
    destruct (fs.toFileData text); [|by left].
    destruct originalFileName; try by left.
    case_bool_decide; [by right|by left].
Qed.

Lemma lasting_hasFile P : lasting (hasFile P).
Proof. intros f w Hf Hw HP. by apply (Hf w Hw). Qed.

Lemma lasting_hasLine line : lasting (hasLine line).
Proof. intros f w Hf Hw HP. by apply (Hf w Hw). Qed.

Lemma orderly_andThen p k :
  orderly p -> (forall o, orderly (k o)) -> orderly (andThen p k).
Proof.
  intros Hp Hk.
  induction p as [v|e|f p IH|fn args c IH|pr c IH|t IHt p IHp]; cbn in *; auto.
  - destruct Hp. auto.
  - destruct Hp as (? & ? & ?). auto.
Qed.

Ltac solve_orderly :=
  repeat (cbn; intros;
          match goal with
          | |- True => exact I
          | |- orderly (andThen _ _) => apply orderly_andThen
          | |- _ /\ _ => split
          | |- steady (print _ _) => apply steady_print
          | |- steady (extracting _) => apply steady_print
          | |- steady (console_error _) => apply steady_print
          | |- steady (saveFile ?text ?name (lit ?dir)) =>
              lazymatch dir with
              | "./saved-outputs/pdf"%string =>
                  exact (steady_saveFile text name pdf)
              | "./saved-outputs/document"%string =>
                  exact (steady_saveFile text name document)
              | "./saved-outputs/spreadsheet"%string =>
                  exact (steady_saveFile text name spreadsheet)
              | "./saved-outputs/presentation"%string =>
                  exact (steady_saveFile text name presentation)
              | "./saved-outputs/word-doc"%string =>
                  exact (steady_saveFile text name word_doc)
              | "./saved-outputs/plain-text"%string =>
                  exact (steady_saveFile text name plain_text)
              end
          | |- context [orThrow _ ?o] => destruct o
          | |- context [get ?e _] => destruct e
          | |- context [match ?x with _ => _ end] => destruct x
          | |- context [if ?x then _ else _] => destruct x
          end).

Lemma orderly_extractors drive fileId fileName m f :
  (m, f) ∈ extractors -> orderly (f drive fileId fileName).
Proof.
  intros Hin. unfold extractors in Hin.
  repeat (apply elem_of_cons in Hin as [[= -> ->] | Hin];
          [unfold extractPDFText, extractDocumentText, extractSpreadsheetText,
             extractPresentationText, extractWordDoc, extractPlainText,
             awaitCall, handleArrayBuffer; solve_orderly|]).
  inversion Hin.
Qed.

Lemma orderly_dispatch drive fileId fileName m :
  orderly (dispatch drive fileId fileName m).
Proof.
  destruct (dispatch_cases drive fileId fileName m) as [-> | (l & f & Hin & ->)].
  - exact I.
  - unfold awaitCall. apply orderly_andThen.
    + by apply (orderly_extractors _ _ _ l).
    + intros [v|e]; cbn; intros [v'|e']; exact I.
Qed.

Lemma orderly_extractText drive fileId : orderly (extractText drive fileId).
Proof.
  unfold extractText, tryCatch. apply orderly_andThen.
  - unfold extractText_body. cbn. intros [fileMetaData|e]; cbn; [|exact I].
    destruct (getProp fileMetaData "data") as [e|data]; cbn; [exact I|].
    destruct (getProp data "name") as [e|name]; cbn; [exact I|].
    destruct (getProp data "mimeType") as [e|mimeType]; cbn; [exact I|].
    apply orderly_dispatch.
  - intros [v|e]; cbn; [exact I|]. split; [apply steady_print|exact I].
Qed.

Lemma orderly_processFile drive file : orderly (processFile drive file).
Proof.
  unfold processFile.
  destruct (getProp file "mimeType") as [e|mimeType]; cbn; [exact I|].
  destruct (Set_has fileTypes mimeType).
  - destruct (getProp file "id") as [e|id]; cbn; [exact I|].
    split; [apply neverThrows_extractText|].
    split; [apply orderly_extractText|exact I].
  - destruct (getProp file "name") as [e|name]; cbn; [exact I|].
    split; [apply steady_print|exact I].
Qed.

Lemma orderly_forEach items callback :
  (forall item, orderly (callback item)) -> orderly (forEach items callback).
Proof.
  intros Hcb. induction items as [|item rest IH]; cbn; [exact I|].
  unfold seq. apply orderly_andThen; [apply Hcb|].
  intros [v|e]; cbn; [exact IH|exact I].
Qed.

Lemma orderly_processFiles drive files : orderly (processFiles drive files).
Proof.
  unfold processFiles.
  destruct (getProp files "length") as [e|len]; cbn; [exact I|].
  destruct (isNotZero len).
  - destruct files; try exact I. apply orderly_forEach, orderly_processFile.
  - split; [apply steady_print|exact I].
Qed.

Lemma orderly_main : orderly main.
Proof.
  unfold main. cbn. intros [auth|e]; cbn; [|exact I].
  intros [drive|e]; cbn; [|exact I].
  intros [res|e]; cbn; [|exact I].
  destruct (getProp res "data") as [e|data]; cbn; [exact I|].
  destruct (getProp data "files") as [e|files]; cbn; [exact I|].
  apply orderly_processFiles.
Qed.

(** ** One turn of the loop, and a run *)

Lemma Exists_delete {A} (Q : A -> Prop) (l : list A) j x :
  l !! j = Some x -> Exists Q l -> Q x \/ Exists Q (delete j l).
Proof.
  revert j. induction l as [|y l IH]; intros j Hj Hex; [done|].
  destruct j as [|j]; simpl in *.
  - injection Hj as ->. apply Exists_cons in Hex as [?|?]; auto.
  - apply Exists_cons in Hex as [?|Hex].
    + right. by apply Exists_cons_hd.
    + destruct (IH j Hj Hex); [by left|]. right. by apply Exists_cons_tl.
Qed.

Lemma Forall_delete_list {A} (Q : A -> Prop) (l : list A) j :
  Forall Q l -> Forall Q (delete j l).
Proof.
  revert j. induction l as [|y l IH]; intros j H; [done|].
  apply Forall_cons in H as [Hy Hl]. destruct j; simpl; [done|].
  apply Forall_cons. auto.
Qed.

(** What one run of a call, from a point of its body to its next
    suspension or to its end, keeps and achieves. *)
Lemma exec_spec env p : forall id L,
  loopOk L -> orderly p -> (id <> 0%nat -> neverThrows p) ->
  loopOk (exec env id p L) /\
  (exists new, queue (exec env id p L) = queue L ++ new /\
     forall fact, lasting fact -> reaches env fact p ->
       fact (world (exec env id p L)) \/ Exists (willReach env fact) new) /\
  (forall fact, lasting fact -> fact (world L) -> fact (world (exec env id p L))).
Proof.
  induction p as [v|e|f k IH|fn args k IH|pr k IH|t IHt k IHk];
    intros id L HL Hord Hnt; cbn [exec].
  - destruct HL as (Hw & Hq & Hs & Hf). split; [|split].
    + split; [done|]. split; [done|]. split; [|done].
      intros id' o Hin Hid. cbn in Hin. apply elem_of_app in Hin as [Hin|Hin].
      * eauto.
      * apply list_elem_of_singleton in Hin as [= -> ->]. eauto.
    + exists []. split; [cbn; by rewrite app_nil_r|]. intros fact _ [].
    + auto.
  - destruct HL as (Hw & Hq & Hs & Hf). split; [|split].
    + split; [done|]. split; [done|]. split; [|done].
      intros id' o Hin Hid. cbn in Hin. apply elem_of_app in Hin as [Hin|Hin].
      * eauto.
      * apply list_elem_of_singleton in Hin as [= -> ->]. destruct (Hnt Hid).
    + exists []. split; [cbn; by rewrite app_nil_r|]. intros fact _ [].
    + auto.
  - destruct Hord as [Hf Hk]. destruct HL as (Hw & Hq & Hs & Hfr).
    destruct (Hf (world L) Hw) as (Hw' & _).
    set (L1 := {| world := f (world L); queue := queue L;
                  settled := settled L; fresh := fresh L |}).
    assert (HL1 : loopOk L1) by (split; [exact Hw'|]; split; [exact Hq|]; split; [exact Hs|exact Hfr]).
    destruct (IH id L1 HL1 Hk Hnt) as (Hok & (new & Hnew & Hreach) & Hlast).
    split; [done|]. split.
    + exists new. split; [done|]. intros fact Hfact [Hnow|Hlater].
      * left. apply Hlast; [done|]. by apply Hnow.
      * by apply Hreach.
    + intros fact Hfact Hnow. apply Hlast; [done|]. by apply Hfact.
  - apply IH; [done|apply Hord|intros H; apply (Hnt H)].
  - destruct HL as (Hw & Hq & Hs & Hfr). split; [|split].
    + split; [done|]. split; [|done]. cbn.
      apply Forall_app. split; [done|]. apply Forall_singleton.
      split; [apply Hord|intros H; apply (Hnt H)].
    + eexists. split; [reflexivity|]. intros fact _ Hr. right.
      by apply Exists_cons_hd.
    + auto.
  - destruct Hord as (Hnt_t & Hord_t & Hord_k).
    destruct HL as (Hw & Hq & Hs & Hfr).
    set (L0 := {| world := world L; queue := queue L;
                  settled := settled L; fresh := S (fresh L) |}).
    assert (HL0 : loopOk L0) by (split; [exact Hw|]; split; [exact Hq|]; split; [exact Hs|done]).
    destruct (IHt (fresh L) L0 HL0 Hord_t (fun _ => Hnt_t))
      as (Hok1 & (new1 & Hnew1 & Hreach1) & Hlast1).
    destruct (IHk id _ Hok1 Hord_k Hnt)
      as (Hok2 & (new2 & Hnew2 & Hreach2) & Hlast2).
    split; [done|]. split.
    + exists (new1 ++ new2). split.
      { rewrite Hnew2, Hnew1. by rewrite <- app_assoc. }
      intros fact Hfact [Ht|Hk].
      * destruct (Hreach1 fact Hfact Ht) as [Hnow|Hex].
        -- left. by apply Hlast2.
        -- right. apply Exists_app. by left.
      * destruct (Hreach2 fact Hfact Hk) as [Hnow|Hex]; [by left|].
        right. apply Exists_app. by right.
    + intros fact Hfact Hnow. apply Hlast2; [done|]. by apply Hlast1.
Qed.

Lemma step_spec env i L :
  loopOk L ->
  loopOk (step env i L) /\
  (forall fact, lasting fact ->
     fact (world L) \/ Exists (willReach env fact) (queue L) ->
     fact (world (step env i L)) \/
     Exists (willReach env fact) (queue (step env i L))).
Proof.
  intros HL. unfold step.
  destruct (queue L !! (i mod length (queue L))%nat) as [t|] eqn:Et; [|auto].
  set (j := (i mod length (queue L))%nat) in *.
  set (L0 := {| world := world L; queue := delete j (queue L);
                settled := settled L; fresh := fresh L |}).
  destruct HL as (Hw & Hq & Hs & Hfr).
  assert (Ht : taskOk t).
  { rewrite Forall_forall in Hq. apply Hq. by eapply list_elem_of_lookup_2. }
  assert (HL0 : loopOk L0).
  { split; [done|]. split; [|done]. by apply Forall_delete_list. }
  destruct Ht as [Hord Hnt].
  destruct (exec_spec env (resume t (respond env (waiting t))) (tid t) L0 HL0
              (Hord _) (fun H => Hnt H _))
    as (Hok & (new & Hnew & Hreach) & Hlast).
  split; [done|]. intros fact Hfact [Hnow|Hex].
  - left. by apply Hlast.
  - destruct (Exists_delete _ _ _ _ Et Hex) as [Hthis|Hother].
    + destruct (Hreach fact Hfact Hthis) as [?|?]; [by left|].
      right. rewrite Hnew. apply Exists_app. by right.
    + right. rewrite Hnew. apply Exists_app. by left.
Qed.

Lemma run_spec env schedule : forall L,
  loopOk L ->
  loopOk (run env schedule L) /\
  (forall fact, lasting fact ->
     fact (world L) \/ Exists (willReach env fact) (queue L) ->
     fact (world (run env schedule L)) \/
     Exists (willReach env fact) (queue (run env schedule L))).
Proof.
  induction schedule as [|i rest IH]; intros L HL; cbn; [auto|].
  destruct (step_spec env i L HL) as [Hok Hstep].
  destruct (IH _ Hok) as [Hok' Hrun].
  split; [done|]. intros fact Hfact H. apply Hrun; [done|]. by apply Hstep.
Qed.

(** ** Every batch comes to its end *)

Lemma pending_exec env p : forall id L,
  pending env (exec env id p L) = (pending env L + turns env p)%nat.
Proof.
  induction p as [v|e|f k IH|fn args k IH|pr k IH|t IHt k IHk];
    intros id L; cbn [exec turns].
  - unfold pending. cbn. lia.
  - unfold pending. cbn. lia.
  - rewrite IH. reflexivity.
  - apply IH.
  - unfold pending. cbn. rewrite sum_list_with_app. cbn. unfold taskTurns. cbn. lia.
  - rewrite IHk, IHt. unfold pending. cbn. lia.
Qed.

Lemma sum_list_delete {A} (g : A -> nat) (l : list A) j x :
  l !! j = Some x ->
  sum_list_with g l = (g x + sum_list_with g (delete j l))%nat.
Proof.
  revert j. induction l as [|y l IH]; intros j Hj; [done|].
  destruct j as [|j]; simpl in *.
  - by injection Hj as ->.
  - rewrite (IH j Hj). lia.
Qed.

Lemma pending_step env i L :
  queue L <> [] -> S (pending env (step env i L)) = pending env L.
Proof.
  intros Hne. unfold step.
  assert (Hj : (i mod length (queue L) < length (queue L))%nat).
  { apply Nat.mod_upper_bound. by destruct (queue L). }
  destruct (lookup_lt_is_Some_2 _ _ Hj) as [t Et]. rewrite Et.
  rewrite pending_exec. unfold pending. cbn [queue].
  rewrite (sum_list_delete _ _ _ _ Et).
  change (taskTurns env t) with (S (turns env (resume t (respond env (waiting t))))).
  lia.
Qed.

Lemma pending_zero env L : pending env L = 0%nat -> queue L = [].
Proof. unfold pending. destruct (queue L); [done|]. cbn. unfold taskTurns. lia. Qed.

Lemma step_idle env i L : queue L = [] -> step env i L = L.
Proof. intros H. unfold step. rewrite H. reflexivity. Qed.

Lemma run_drains env schedule : forall L,
  (pending env L <= length schedule)%nat -> queue (run env schedule L) = [].
Proof.
  induction schedule as [|i rest IH]; intros L Hle; cbn in *.
  - apply (pending_zero env). lia.
  - apply IH. destruct (queue L) as [|t q] eqn:Eq.
    + rewrite step_idle by done. unfold pending. rewrite Eq. cbn. lia.
    + pose proof (pending_step env i L) as Hs. rewrite Eq in Hs.
      specialize (Hs ltac:(done)). lia.
Qed.

Lemma pending_start env p w : pending env (start env p w) = turns env p.
Proof. unfold start. rewrite pending_exec. reflexivity. Qed.

(** ** From one extraction alone to the batch *)

Lemma runAlone_writable env p : forall w,
  orderly p -> writable (disk w) -> writable (disk (fst (runAlone env p w))).
Proof.
  induction p as [v|e|f k IH|fn args k IH|pr k IH|t IHt k IHk];
    intros w Hord Hw; cbn in *; auto.
  - destruct Hord as [Hf Hk]. apply IH; [done|]. by apply (Hf w Hw).
  - destruct Hord as (_ & Ht & Hk). auto.
Qed.

Lemma alone_reaches env P p : forall w,
  orderly p -> writable (disk w) -> ~ hasFile P w ->
  hasFile P (fst (runAlone env p w)) -> reaches env (hasFile P) p.
Proof.
  induction p as [v|e|f k IH|fn args k IH|pr k IH|t IHt k IHk];
    intros w Hord Hw Hno Hyes; cbn in *; eauto.
  - destruct Hord as [Hf Hk]. destruct (Hf w Hw) as (Hw' & _ & _ & Hmake).
    destruct (fs.read P (disk (f w))) as [data|] eqn:E.
    + left. intros w' Hw''.
      destruct (Hmake P w' Hw'') as [?|?]; [by unfold hasFile; rewrite E|done|done].
    + right. apply (IH (f w)); auto. unfold hasFile. rewrite E. by intros [? ?].
  - destruct Hord as (_ & Ht & Hk).
    destruct (fs.read P (disk (fst (runAlone env t w)))) as [data|] eqn:E.
    + left. apply (IHt w); auto. unfold hasFile. by rewrite E.
    + right. apply (IHk (fst (runAlone env t w))); auto.
      * by apply runAlone_writable.
      * unfold hasFile. rewrite E. by intros [? ?].
Qed.

Lemma reaches_andThen env fact p k :
  reaches env fact p \/ reaches env fact (k (outcome env p)) ->
  reaches env fact (andThen p k).
Proof.
  induction p as [v|e|f p IH|fn args c IH|pr c IH|t IHt p IHp]; cbn.
  - by intros [[]|?].
  - by intros [[]|?].
  - intros [[?|?]|?]; auto.
  - auto.
  - auto.
  - intros [[?|?]|?]; auto.
Qed.

Lemma reaches_error_line env drive fileId e :
  outcome env (extractText_body drive fileId) = Rejected e ->
  reaches env
    (hasLine (stderr, TLit "Error extracting text from file: " :: message e))
    (extractText drive fileId).
Proof.
  intros He. unfold extractText, tryCatch. apply reaches_andThen. right.
  rewrite He. cbn. left. intros w _. unfold hasLine. cbn.
  apply elem_of_app. right. apply list_elem_of_here.
Qed.

Lemma processFile_object env drive file :
  isObject file -> exists v, outcome env (processFile drive file) = Fulfilled v.
Proof.
  destruct file; try done. intros _. unfold processFile.
  change (getProp (VObj c props) "mimeType") with
    (@inr Error _ (match List.find (fun kv => String.eqb (fst kv) "mimeType") props with
                   | Some kv => snd kv | None => VUndefined end)).
  cbn. destruct (Set_has _ _).
  - change (getProp (VObj c props) "id") with
      (@inr Error _ (match List.find (fun kv => String.eqb (fst kv) "id") props with
                     | Some kv => snd kv | None => VUndefined end)).
    cbn. eauto.
  - change (getProp (VObj c props) "name") with
      (@inr Error _ (match List.find (fun kv => String.eqb (fst kv) "name") props with
                     | Some kv => snd kv | None => VUndefined end)).
    cbn. eauto.
Qed.

Lemma reaches_forEach env fact drive items file :
  Forall isObject items -> file ∈ items ->
  reaches env fact (processFile drive file) ->
  reaches env fact (forEach items (processFile drive)).
Proof.
  intros Hobj Hin Hfile. induction Hobj as [|item rest Hitem Hrest IH].
  - inversion Hin.
  - cbn. unfold seq. apply reaches_andThen.
    apply elem_of_cons in Hin as [<- | Hin]; [by left|]. right.
    destruct (processFile_object env drive item Hitem) as [v ->]. cbn. auto.
Qed.

Lemma reaches_main_file env fact auth drive items file :
  env authorize [] = Fulfilled auth ->
  env google_drive [obj [("version", str "v3"); ("auth", auth)]] = Fulfilled drive ->
  env files_list [drive; listParams] =
    Fulfilled (obj [("data", obj [("files", VArr items)])]) ->
  Forall isObject items -> file ∈ items ->
  reaches env fact (processFile drive file) ->
  reaches env fact main.
Proof.
  intros Hauth Hdrive Hlist Hobj Hin Hreach.
  unfold main. cbn. rewrite Hauth. cbn. rewrite Hdrive. cbn. rewrite Hlist. cbn.
  change (getProp (obj [("data", obj [("files", VArr items)])]) "data")
    with (@inr Error _ (obj [("files", VArr items)])).
  cbn.
  change (getProp (obj [("files", VArr items)]) "files")
    with (@inr Error _ (VArr items)).
  cbn. unfold processFiles.
  change (getProp (VArr items) "length")
    with (@inr Error _ (VNum (Z.of_nat (length items)))).
  cbn. destruct items as [|item rest]; [inversion Hin|].
  cbn [length isNotZero]. replace (Z.of_nat (S (length rest)) =? 0)%Z with false
    by (symmetry; apply Z.eqb_neq; lia).
  cbn [negb]. by apply (reaches_forEach env fact drive _ file).
Qed.

Lemma loopOk_start w :
  writable (disk w) ->
  loopOk {| world := w; queue := []; settled := []; fresh := 1 |}.
Proof.
  intros Hw. split; [exact Hw|]. split; [constructor|]. split; [|done].
  intros id o Hin. inversion Hin.
Qed.



(* ===================================================================== *)
(** * J. The order in which promises settle *)
(* ===================================================================== *)

Lemma exec_settled_grows env p : forall id L,
  exists more, settled (exec env id p L) = settled L ++ more.
Proof.
  induction p as [v|e|f k IH|fn args k IH|pr k IH|t IHt k IHk];
    intros id L; cbn [exec].
  - eexists. reflexivity.
  - eexists. reflexivity.
  - destruct (IH id {| world := f (world L); queue := queue L;
                       settled := settled L; fresh := fresh L |}) as [more Hm].
    exists more. exact Hm.
  - apply IH.
  - exists []. cbn. by rewrite app_nil_r.
  - destruct (IHk id (exec env (fresh L) t
                        {| world := world L; queue := queue L;
                           settled := settled L; fresh := S (fresh L) |}))
      as [more2 ->].
    destruct (IHt (fresh L) {| world := world L; queue := queue L;
                               settled := settled L; fresh := S (fresh L) |})
      as [more1 ->].
    exists (more1 ++ more2). cbn. by rewrite app_assoc.
Qed.

Lemma exec_suspendsFirst env p : forall id L,
  suspendsFirst p -> settled (exec env id p L) = settled L.
Proof.
  induction p as [v|e|f k IH|fn args k IH|pr k IH|t IHt k IHk];
    intros id L Hp; cbn in *; try done.
  - by rewrite IH.
  - by apply IH.
  - destruct Hp as [Ht Hk]. rewrite IHk by done. by rewrite IHt.
Qed.

Lemma exec_finishes env p : forall id L,
  finishes p -> exists o, settled (exec env id p L) = settled L ++ [(id, o)].
Proof.
  induction p as [v|e|f k IH|fn args k IH|pr k IH|t IHt k IHk];
    intros id L Hp; cbn in *; try done.
  - eauto.
  - eauto.
  - destruct (IH id {| world := f (world L); queue := queue L;
                       settled := settled L; fresh := fresh L |} Hp) as [o Ho].
    exists o. exact Ho.
  - by apply IH.
  - destruct Hp as [Ht Hk].
    destruct (IHk id (exec env (fresh L) t
                        {| world := world L; queue := queue L;
                           settled := settled L; fresh := S (fresh L) |}) Hk)
      as [o ->].
    rewrite exec_suspendsFirst by done. eauto.
Qed.

Lemma exec_mainShape env p : forall L,
  mainShape p -> settled L = [] -> queue L = [] ->
  mainFirst (exec env 0%nat p L).
Proof.
  induction p as [v|e|f k IH|fn args k IH|pr k IH|t IHt k IHk];
    intros L Hp Hs Hq; cbn [exec].
  - right. cbn. rewrite Hs. eauto.
  - right. cbn. rewrite Hs. eauto.
  - apply IH; done.
  - apply IH; [apply Hp|done|done].
  - left. cbn. rewrite Hs, Hq. eauto.
  - destruct Hp as [Ht Hk]. right.
    destruct (exec_finishes env k 0%nat
                (exec env (fresh L) t
                   {| world := world L; queue := queue L;
                      settled := settled L; fresh := S (fresh L) |}) Hk)
      as [o ->].
    rewrite exec_suspendsFirst by done. cbn. rewrite Hs. eauto.
Qed.

Lemma step_mainFirst env i L : mainFirst L -> mainFirst (step env i L).
Proof.
  intros [(Hs & pr & k & Hq & Hk) | (o & rest & Hs)]; unfold step.
  - rewrite Hq. cbn [length]. rewrite Nat.mod_1_r. cbn.
    apply exec_mainShape; [apply Hk|done|done].
  - destruct (queue L !! _) as [t|]; [|right; eauto].
    destruct (exec_settled_grows env (resume t (respond env (waiting t))) (tid t)
                {| world := world L;
                   queue := delete (i mod length (queue L))%nat (queue L);
                   settled := settled L; fresh := fresh L |}) as [more Hm].
    right. rewrite Hm. cbn. rewrite Hs. eauto.
Qed.

Lemma run_mainFirst env schedule : forall L,
  mainFirst L -> mainFirst (run env schedule L).
Proof.
  induction schedule as [|i rest IH]; intros L HL; cbn; [done|].
  by apply IH, step_mainFirst.
Qed.

Lemma finishes_mainShape p : finishes p -> mainShape p.
Proof.
  induction p as [v|e|f k IH|fn args k IH|pr k IH|t IHt k IHk]; cbn; auto.
  done.
Qed.

Lemma finishes_andThen p k :
  finishes p -> (forall o, finishes (k o)) -> finishes (andThen p k).
Proof.
  intros Hp Hk.
  induction p as [v|e|f p IH|fn args c IH|pr c IH|t IHt p IHp]; cbn in *; auto;
    destruct Hp; auto.
Qed.

Lemma suspendsFirst_extractText drive fileId :
  suspendsFirst (extractText drive fileId).
Proof. exact I. Qed.

Lemma finishes_processFiles drive files : finishes (processFiles drive files).
Proof.
  unfold processFiles.
  destruct (getProp files "length") as [e|len]; cbn; [exact I|].
  destruct (isNotZero len); [|exact I].
  destruct files; try exact I.
  induction items as [|item rest IH]; cbn; [exact I|].
  unfold seq. apply finishes_andThen.
  - unfold processFile.
    destruct (getProp item "mimeType") as [e|m]; cbn; [exact I|].
    destruct (Set_has fileTypes m).
    + destruct (getProp item "id") as [e|id]; cbn; [exact I|]. done.
    + destruct (getProp item "name") as [e|name]; cbn; exact I.
  - intros [v|e]; cbn; [exact IH|exact I].
Qed.

Lemma mainShape_main : mainShape main.
Proof.
  unfold main. cbn. intros [auth|e]; cbn; [|exact I].
  intros [drive|e]; cbn; [|exact I].
  intros [res|e]; cbn; [|exact I].
  destruct (getProp res "data") as [e|data]; cbn; [exact I|].
  destruct (getProp data "files") as [e|files]; cbn; [exact I|].
  apply finishes_mainShape, finishes_processFiles.
Qed.

(** C1.  The promise of [main] is the first to settle, whatever the drive
    answers and in whatever order the awaited promises settle: no
    extraction has ended when [main] resolves.  On the batch of four files,
    after the two turns that answer [authorize] and the listing, [main] has
    resolved while the three extractions it started are suspended on the
    request for their metadata and nothing is on the disk. *)
Theorem main_resolves_before_extractions :
  (forall env w schedule,
     let L := run env schedule (start env main w) in
     settled L = [] \/ exists o rest, settled L = (0%nat, o) :: rest) /\
  (let L := run batchEnv [0; 0]%nat (start batchEnv main emptyWorld) in
   settled L = [(0%nat, Fulfilled VUndefined)] /\
   map tid (queue L) = [1; 2; 3]%nat /\
   map waiting (queue L) =
     [ Call files_get (metadataCall sampleDrive (str "1"));
       Call files_get (metadataCall sampleDrive (str "2"));
       Call files_get (metadataCall sampleDrive (str "4")) ] /\
   disk (world L) = Dir ∅).
Proof.
  split.
  - intros env w schedule L.
    assert (HL : mainFirst L).
    { apply run_mainFirst, exec_mainShape; [apply mainShape_main|done|done]. }
    destruct HL as [(Hs & _) | Hs]; auto.
  - vm_compute. repeat split.
Qed.

(* ===================================================================== *)
(** * K. What [saveFile] does to the disk, on every disk *)
(* ===================================================================== *)

(** ** What [mkdir] and a write leave of the files *)

Lemma mkdirp_no_file_on_the_way p : forall n n' q data,
  fs.mkdirp p n = inr n' -> q `prefix_of` p -> fs.stat q n <> Some (fs.KFile data).
Proof.
  induction p as [|s rest IH]; intros [d0|es] n' q data H Hq; simpl in H;
    try discriminate.
  - apply prefix_nil_inv in Hq as ->. done.
  - destruct (fs.mkdirp rest _) as [e|child] eqn:E; [discriminate|].
    destruct q as [|t qr]; [done|].
    assert (t = s) as -> by (by apply prefix_cons_inv_1 in Hq).
    apply prefix_cons_inv_2 in Hq. rewrite stat_cons.
    destruct (es !! s) as [c|] eqn:Es; [|done]. simpl in E.
    by apply (IH _ _ _ _ E).
Qed.

Lemma read_mkdirp p n n' q :
  fs.mkdirp p n = inr n' -> fs.read q n' = fs.read q n.
Proof.
  intros H. rewrite !read_stat, (stat_mkdirp _ _ _ q H).
  case_bool_decide as Hq; [|done].
  destruct (fs.stat q n) as [[d|]|] eqn:E; try done.
  by destruct (mkdirp_no_file_on_the_way _ _ _ _ d H Hq).
Qed.

Lemma read_store p data n n' q :
  fs.store p data n = inr n' ->
  fs.read q n' = if bool_decide (q = p) then Some data else fs.read q n.
Proof.
  intros H. rewrite !read_stat, (stat_store _ _ _ _ q H). by case_bool_decide.
Qed.

Lemma read_mkdirSync p n n' q :
  fs.mkdirSync p n = inr n' -> fs.read q n' = fs.read q n.
Proof.
  unfold fs.mkdirSync. destruct (fs.resolve p) as [segs|]; [|done].
  destruct (fs.mkdirp segs n) as [e|r] eqn:E; [done|]. intros [= <-].
  by eapply read_mkdirp.
Qed.

Lemma writeFileSync_inv p text n n' :
  fs.writeFileSync p text n = inr n' ->
  exists data segs,
    fs.toFileData text = Some data /\ fs.resolve p = Some segs /\
    fs.store segs data n = inr n'.
Proof.
  unfold fs.writeFileSync. destruct (fs.toFileData text) as [data|]; [|done].
  destruct (fs.resolve p) as [segs|]; [|done].
  destruct (fs.store segs data n) as [e|r] eqn:E; [done|]. intros [= <-]. eauto.
Qed.

(** The world before the write: the directory has been looked for and
    created if it was missing. *)
Lemma afterSave_cases text originalFileName dir w :
  (exists e,
     fs.existsSync dir (disk w) = false /\ fs.mkdirSync dir (disk w) = inl e /\
     afterSave text originalFileName dir w =
       {| disk := disk w; console := console w ++ [errorSavingLine e] |}) \/
  exists w1,
    (forall q, fs.read q (disk w1) = fs.read q (disk w)) /\
    disk w1 = (if fs.existsSync dir (disk w) then disk w
               else match fs.mkdirSync dir (disk w) with
                    | inr d => d
                    | inl _ => disk w
                    end) /\
    ((exists e,
        ((forall name, originalFileName <> VStr name) \/
         exists name, originalFileName = VStr name /\
           fs.writeFileSync (artifactPath dir name) text (disk w1) = inl e) /\
        afterSave text originalFileName dir w =
          {| disk := disk w1; console := console w1 ++ [errorSavingLine e] |}) \/
     (exists name d2,
        originalFileName = VStr name /\
        fs.writeFileSync (artifactPath dir name) text (disk w1) = inr d2 /\
        afterSave text originalFileName dir w =
          {| disk := d2;
             console := console w1 ++ [savedLine (artifactPath dir name)] |})).
Proof.
  unfold afterSave.
  destruct (fs.existsSync dir (disk w)) eqn:Ex.
  - right. exists w. split; [done|]. split; [done|].
    destruct originalFileName as [| | | |s| | |];
      try (left; eexists; split; [left; intros; discriminate|reflexivity]).
    destruct (fs.writeFileSync _ text (disk w)) as [e|d2] eqn:Ew.
    + left. exists e. split; [|done]. right. eauto.
    + right. exists s, d2. done.
  - destruct (fs.mkdirSync dir (disk w)) as [e|d1] eqn:Em; [left; eauto|].
    right. exists {| disk := d1; console := console w ++ [createdLine] |}.
    split; [intros q; cbn; by eapply read_mkdirSync|].
    split; [done|].
    destruct originalFileName as [| | | |s| | |];
      try (left; eexists; split; [left; intros; discriminate|reflexivity]).
    cbn [disk console].
    destruct (fs.writeFileSync _ text d1) as [e|d2] eqn:Ew.
    + left. exists e. split; [|done]. right. eauto.
    + right. exists s, d2. done.
Qed.

(** X1.  Whatever the disk, the directory, the name and the text, a call
    of [saveFile] changes the content of at most one file: every place of
    the tree holds the file it held before, or it is the place of the
    artifact, the name is a string, the text is a string or a [Buffer],
    and the artifact holds exactly the text. *)
Theorem saveFile_changes_one_file text originalFileName dir w q :
  fs.read q (disk (saveFile text originalFileName dir w)) = fs.read q (disk w) \/
  exists name data,
    originalFileName = VStr name /\ fs.toFileData text = Some data /\
    fs.resolve (artifactPath dir name) = Some q /\
    fs.read q (disk (saveFile text originalFileName dir w)) = Some data.
Proof.
  rewrite saveFile_afterSave.
  destruct (afterSave_cases text originalFileName dir w)
    as [(e & _ & _ & ->) | (w1 & Hr & _ & [(e & _ & ->) | (name & d2 & -> & Hw & ->)])];
    cbn [disk]; auto.
  apply writeFileSync_inv in Hw as (data & segs & Ht & Hres & Hst).
  rewrite (read_store _ _ _ _ q Hst). case_bool_decide as Hq; [|auto].
  subst q. right. eauto 10.
Qed.

(** X2.  The last line [saveFile] prints tells the truth about the disk,
    whatever the disk: when it is the line [Saved to p], the name is a
    string, [p] is the path of its artifact and the file at [p] holds the
    text; when it is the line [Error saving file], no file has changed. *)
Theorem saveFile_report_is_truthful text originalFileName dir w :
  (forall p,
     last (console (saveFile text originalFileName dir w)) = Some (savedLine p) ->
     exists name data place,
       originalFileName = VStr name /\ p = artifactPath dir name /\
       fs.toFileData text = Some data /\ fs.resolve p = Some place /\
       fs.read place (disk (saveFile text originalFileName dir w)) = Some data) /\
  (forall e,
     last (console (saveFile text originalFileName dir w)) =
       Some (errorSavingLine e) ->
     forall q, fs.read q (disk (saveFile text originalFileName dir w)) =
               fs.read q (disk w)).
Proof.
  rewrite saveFile_afterSave.
  destruct (afterSave_cases text originalFileName dir w)
    as [(e & _ & _ & ->) | (w1 & Hr & _ & [(e & _ & ->) | (name & d2 & -> & Hw & ->)])];
    cbn [disk console]; rewrite ?last_snoc; (split; [intros p [= Hp]|intros e' [= He]]);
    try done.
  subst p.
  apply writeFileSync_inv in Hw as (data & segs & Ht & Hres & Hst).
  exists name, data, segs. repeat (split; [done|]).
  rewrite (read_store _ _ _ _ segs Hst). by rewrite bool_decide_eq_true_2.
Qed.

(** A note saved on an empty disk, and a save with [saved-outputs] in the
    way. *)
Lemma saveFile_report_is_truthful_witness :
  (exists name data place,
     str "notes.txt" = VStr name /\
     lit "saved-outputs/plain-text/notes-converted.txt" =
       artifactPath (outputDir plain_text) name /\
     fs.toFileData (str "hello") = Some data /\
     fs.resolve (lit "saved-outputs/plain-text/notes-converted.txt") =
       Some place /\
     fs.read place
       (disk (saveFile (str "hello") (str "notes.txt") (outputDir plain_text)
                emptyWorld)) = Some data) /\
  (forall q,
     fs.read q (disk (saveFile (str "hello") (str "notes.txt")
                        (outputDir plain_text) blockedWorld)) =
     fs.read q (disk blockedWorld)).
Proof.
  split.
  - exact (proj1 (saveFile_report_is_truthful (str "hello") (str "notes.txt")
                    (outputDir plain_text) emptyWorld)
             (lit "saved-outputs/plain-text/notes-converted.txt") eq_refl).
  - exact (proj2 (saveFile_report_is_truthful (str "hello") (str "notes.txt")
                    (outputDir plain_text) blockedWorld)
             (fs.errno "ENOTDIR: not a directory" "mkdir"
                (lit "./saved-outputs/plain-text")) eq_refl).
Defined.

(** X3.  A call of [saveFile] whose name is not a string, or whose text is
    neither a string nor a [Buffer], ends with the line [Error saving
    file] and writes no file; the directory is looked for and created all
    the same, before the arguments are looked at: the disk is left as the
    [mkdir] leaves it. *)
Theorem saveFile_unwritten text originalFileName dir w :
  (forall name, originalFileName <> VStr name) \/ fs.toFileData text = None ->
  (exists e, last (console (saveFile text originalFileName dir w)) =
               Some (errorSavingLine e)) /\
  disk (saveFile text originalFileName dir w) =
    (if fs.existsSync dir (disk w) then disk w
     else match fs.mkdirSync dir (disk w) with
          | inr d => d
          | inl _ => disk w
          end).
Proof.
  intros Hbad. rewrite saveFile_afterSave.
  destruct (afterSave_cases text originalFileName dir w)
    as [(e & Hex & Hmk & ->) |
        (w1 & Hr & Hd & [(e & _ & ->) | (name & d2 & -> & Hw & ->)])].
  - cbn [disk console]. rewrite last_snoc, Hex, Hmk. eauto.
  - cbn [disk console]. rewrite last_snoc. split; [eauto|done].
  - exfalso. destruct Hbad as [Hn|Ht]; [by destruct (Hn name)|].
    apply writeFileSync_inv in Hw as (data & segs & Ht' & _). congruence.
Qed.

(** A file without a name, on an empty disk: the directory of the PDFs is
    there afterwards, and it is empty. *)
Lemma saveFile_unwritten_witness :
  (exists e,
     last (console (saveFile (str "hello") VUndefined (outputDir pdf) emptyWorld)) =
       Some (errorSavingLine e)) /\
  disk (saveFile (str "hello") VUndefined (outputDir pdf) emptyWorld) =
    Dir {[ lit "saved-outputs" := Dir {[ lit "pdf" := Dir ∅ ]} ]}.
Proof.
  exact (saveFile_unwritten (str "hello") VUndefined (outputDir pdf) emptyWorld
           (or_introl (fun name (H : VUndefined = VStr name) =>
                         eq_ind VUndefined
                           (fun v => match v with VUndefined => True | _ => False end)
                           I _ H))).
Defined.

(** ** Two saves *)

Lemma store_overwrite segs d1 d2 : forall n n1,
  fs.store segs d1 n = inr n1 -> fs.store segs d2 n1 = fs.store segs d2 n.
Proof.
  induction segs as [|s rest IH]; intros [d|es] n1 H; simpl in H; try discriminate.
  - injection H as <-. reflexivity.
  - destruct (es !! s) as [child|] eqn:Es.
    + destruct (fs.store rest d1 child) as [e|child'] eqn:E; [discriminate|].
      injection H as <-. simpl. rewrite lookup_insert_eq, Es.
      rewrite (IH _ _ E). destruct (fs.store rest d2 child); [done|].
      by rewrite insert_insert_eq.
    + destruct rest; [|discriminate]. injection H as <-.
      simpl. rewrite lookup_insert_eq, Es. by rewrite insert_insert_eq.
Qed.

Lemma writeFileSync_overwrite p t1 t2 n n1 :
  fs.writeFileSync p t1 n = inr n1 ->
  is_Some (fs.toFileData t2) ->
  fs.writeFileSync p t2 n1 = fs.writeFileSync p t2 n.
Proof.
  intros (d1 & segs & Ht1 & Hres & Hst)%writeFileSync_inv [d2 Ht2].
  unfold fs.writeFileSync. rewrite Ht2, Hres.
  by rewrite (store_overwrite _ _ d2 _ _ Hst).
Qed.

Lemma store_succeeds_again segs d1 d2 : forall n n1,
  fs.store segs d1 n = inr n1 -> exists n2, fs.store segs d2 n = inr n2.
Proof.
  induction segs as [|s rest IH]; intros [d|es] n1 H; simpl in *; try discriminate.
  - eauto.
  - destruct (es !! s) as [child|] eqn:Es.
    + destruct (fs.store rest d1 child) as [e|c1] eqn:E1; [discriminate|].
      destruct (IH _ _ E1) as [c2 ->]. eauto.
    + destruct rest; [eauto|discriminate].
Qed.

Lemma diskAfterSave_overwrite t1 t2 n1 n2 dir d :
  artifactName n1 = artifactName n2 -> is_Some (fs.toFileData t2) ->
  diskAfterSave t2 (VStr n2) dir (diskAfterSave t1 (VStr n1) dir d) =
  diskAfterSave t2 (VStr n2) dir d.
Proof.
  intros Hname Ht2.
  assert (Hp : artifactPath dir n1 = artifactPath dir n2)
    by (unfold artifactPath; by rewrite Hname).
  assert (Hstep : forall d1, fs.existsSync dir d1 = true ->
     diskAfterSave t2 (VStr n2) dir
       (match fs.writeFileSync (artifactPath dir n1) t1 d1 with
        | inr d2 => d2
        | inl _ => d1
        end) =
     match fs.writeFileSync (artifactPath dir n2) t2 d1 with
     | inr d2 => d2
     | inl _ => d1
     end).
  { intros d1 Hex. unfold diskAfterSave.
    destruct (fs.writeFileSync (artifactPath dir n1) t1 d1) as [e|d2] eqn:Ew.
    - by rewrite Hex.
    - rewrite (writeFileSync_exists _ _ _ _ _ Ew Hex).
      rewrite <- Hp, (writeFileSync_overwrite _ _ _ _ _ Ew Ht2).
      destruct (fs.writeFileSync (artifactPath dir n1) t2 d1) as [e|d3] eqn:Ew2;
        [|done].
      exfalso. apply writeFileSync_inv in Ew as (x1 & segs & _ & Hres & Hst).
      destruct Ht2 as [x2 Ht2]. unfold fs.writeFileSync in Ew2.
      rewrite Ht2, Hres in Ew2.
      destruct (store_succeeds_again _ _ x2 _ _ Hst) as [r2 Hr2].
      by rewrite Hr2 in Ew2. }
  unfold diskAfterSave at 2.
  destruct (fs.existsSync dir d) eqn:Ex.
  - rewrite Hstep by done. unfold diskAfterSave. by rewrite Ex.
  - destruct (fs.mkdirSync dir d) as [e|d1] eqn:Em.
    + reflexivity.
    + rewrite Hstep by (by eapply mkdirSync_exists).
      unfold diskAfterSave. by rewrite Ex, Em.
Qed.

Lemma lastComponent_after_slash dir name :
  SLASH ∉ name -> name <> [] ->
  path.lastComponent (dir ++ SLASH :: name) = name.
Proof.
  intros Hs Hne. unfold path.lastComponent.
  rewrite rev_app_distr. cbn [rev]. rewrite <- app_assoc. cbn [app].
  assert (Hr : forall x, x ∈ rev name -> path.notSlash x = true).
  { intros x Hx. apply (notSlash_true name); [done|]. by apply elem_of_rev. }
  destruct (rev name) as [|c r] eqn:E.
  { apply (f_equal (@rev N)) in E. rewrite rev_involutive in E. done. }
  pose proof (Hr c (list_elem_of_here _ _)) as Hc. unfold path.notSlash in Hc.
  apply negb_true_iff in Hc. cbn [app path.dropWhile]. rewrite Hc.
  assert (Ht : forall l, (forall x, x ∈ l -> path.notSlash x = true) ->
                 path.takeWhile path.notSlash (l ++ SLASH :: rev dir) = l).
  { clear. induction l as [|y l IH]; intros H; cbn.
    - reflexivity.
    - rewrite H by apply list_elem_of_here. rewrite IH; [done|].
      intros x Hx. apply H. by apply list_elem_of_further. }
  change (c :: r ++ SLASH :: rev dir) with ((c :: r) ++ SLASH :: rev dir).
  rewrite Ht by done. rewrite <- E. apply rev_involutive.
Qed.

Lemma parse_lastComponent p q :
  path.lastComponent p = path.lastComponent q -> path.parse p = path.parse q.
Proof. unfold path.parse. by intros ->. Qed.



(** What [stat] sees after a save into the directory of a category, on a
    disk where nothing stands in the way. *)
Lemma stat_diskAfterSave text name c n :
  writable n ->
  forall q,
    fs.stat q (diskAfterSave text (VStr name) (outputDir c) n) =
    if bool_decide (is_Some (fs.toFileData text) /\ q = artifactPlace c name)
    then fs.KFile <$> fs.toFileData text
    else if bool_decide (q `prefix_of` [lit "saved-outputs"; lit (dirName c)])
         then Some fs.KDir
         else fs.stat q n.
Proof.
  intros Hw. pose proof Hw as (Hroot & H1 & H2 & H3).
  assert (Hdir : exists n1,
    (if fs.existsSync (outputDir c) n then Some n
     else match fs.mkdirSync (outputDir c) n with
          | inr d' => Some d'
          | inl _ => None
          end) = Some n1 /\
    forall q, fs.stat q n1 =
      if bool_decide (q `prefix_of` [lit "saved-outputs"; lit (dirName c)])
      then Some fs.KDir else fs.stat q n).
  { destruct (ensureDir_writable c n Hw) as (n1 & E1 & Hw1 & Hd1 & Hr1).
    exists n1. split; [done|]. revert E1.
    rewrite (existsSync_stat _ _ _ (resolve_outputDir c)).
    case_bool_decide as Hex.
    - intros [= <-] q. case_bool_decide as Hq; [|done].
      apply prefix_of_pair in Hq as [->| [->| ->]]; [done| |done].
      destruct n as [d0|es]; [done|]. rewrite stat_cons in Hd1 |- *.
      destruct (es !! lit "saved-outputs") as [[d1|es1]|] eqn:E; try done.
    - unfold fs.mkdirSync. rewrite resolve_outputDir.
      destruct (fs.mkdirp _ n) as [e|n1'] eqn:Em; [done|]. intros [= <-] q.
      apply (stat_mkdirp _ _ _ q Em). }
  destruct Hdir as (n1 & E1 & Hst1).
  destruct (ensureDir_writable c n Hw) as (n1' & E1' & Hw1 & Hd1 & _).
  rewrite E1 in E1'. injection E1' as <-.
  intros q. unfold diskAfterSave. rewrite E1.
  destruct (fs.toFileData text) as [data|] eqn:Et.
  - destruct (writeFileSync_writable c name text data n1 Hw1 Hd1 Et)
      as (n2 & Ew & _).
    rewrite Ew. apply writeFileSync_inv in Ew as (data' & segs & Ht' & Hres & Hstore).
    rewrite resolve_artifactPath in Hres. injection Hres as <-.
    assert (data' = data) as -> by congruence.
    rewrite (stat_store _ _ _ _ q Hstore), Hst1.
    repeat (let H := fresh "Hc" in case_bool_decide as H); try done.
    all: try (exfalso; intuition eauto; fail).
    all: try (destruct Hc as [_ ->]; intuition congruence).
  - unfold fs.writeFileSync. rewrite Et.
    rewrite bool_decide_eq_false_2 by (by intros [[? ?] _]). apply Hst1.
Qed.

Lemma artifactPlace_not_dir c name c' :
  ~ artifactPlace c name `prefix_of` [lit "saved-outputs"; lit (dirName c')].
Proof. intros H%prefix_length. simpl in H. lia. Qed.

Lemma saves_commute_stat t1 t2 n1 n2 c1 c2 n :
  writable n -> artifactPlace c1 n1 <> artifactPlace c2 n2 ->
  forall q,
    fs.stat q (diskAfterSave t1 (VStr n1) (outputDir c1)
                 (diskAfterSave t2 (VStr n2) (outputDir c2) n)) =
    fs.stat q (diskAfterSave t2 (VStr n2) (outputDir c2)
                 (diskAfterSave t1 (VStr n1) (outputDir c1) n)).
Proof.
  intros Hw Hne q.
  destruct (diskAfterSave_writable t1 (VStr n1) c1 n Hw) as (Hw1 & _).
  destruct (diskAfterSave_writable t2 (VStr n2) c2 n Hw) as (Hw2 & _).
  rewrite (stat_diskAfterSave t1 n1 c1 _ Hw2), (stat_diskAfterSave t2 n2 c2 _ Hw).
  rewrite (stat_diskAfterSave t2 n2 c2 _ Hw1), (stat_diskAfterSave t1 n1 c1 _ Hw).
  pose proof (artifactPlace_not_dir c1 n1 c1). pose proof (artifactPlace_not_dir c1 n1 c2).
  pose proof (artifactPlace_not_dir c2 n2 c1). pose proof (artifactPlace_not_dir c2 n2 c2).
  repeat (let H := fresh "Hc" in case_bool_decide as H); try done.
  all: try (exfalso; intuition (subst; eauto); fail).
  all: try (intuition congruence).

Qed.

Lemma artifactPlace_differ c1 c2 n1 n2 :
  c1 <> c2 \/ artifactName n1 <> artifactName n2 ->
  artifactPlace c1 n1 <> artifactPlace c2 n2.
Proof.
  intros [Hc|Hn] [= Hdir Hname]; [|done].
  destruct Hc. destruct c1, c2; try reflexivity; vm_compute in Hdir; discriminate.
Qed.



(* ===================================================================== *)
(** * L. The lines of the spreadsheet text *)
(* ===================================================================== *)

Lemma split_lines_no_sep c s : Forall (fun l => c ∉ l) (Str.split c s).
Proof.
  induction s as [|x s IH]; simpl.
  - apply Forall_singleton, not_elem_of_nil.
  - destruct (x =? c) eqn:E.
    + apply List.Forall_cons; [apply not_elem_of_nil|exact IH].
    + apply N.eqb_neq in E.
      destruct (Str.split c s) as [|l ls].
      * apply Forall_singleton. apply not_elem_of_cons. split; [congruence|].
        apply not_elem_of_nil.
      * apply Forall_cons in IH as [Hl Hls].
        apply List.Forall_cons; [|done].
        apply not_elem_of_cons. split; [congruence|done].
Qed.

Lemma split_join_lines c l :
  l <> [] -> Forall (fun s => c ∉ s) l -> Str.split c (Str.join [c] l) = l.
Proof.
  intros Hne Hl. induction Hl as [|s l Hs Hl IH]; [done|].
  destruct l as [|t l].
  - by apply split_no_sep.
  - change (Str.join [c] (s :: t :: l)) with (s ++ c :: Str.join [c] (t :: l)).
    rewrite split_app. rewrite (split_no_sep _ s) by done.
    rewrite IH by done. done.
Qed.

Lemma replaceAll_keeps_absent x c by_ s :
  x ∉ s -> x ∉ by_ -> x ∉ Str.replaceAll c by_ s.
Proof.
  intros Hs Hby. induction s as [|y s IH]; simpl; [done|].
  apply not_elem_of_cons in Hs as [Hy Hs].
  destruct (y =? c).
  - rewrite elem_of_app. intros [?|?]; [done|by apply IH].
  - apply not_elem_of_cons. split; [done|by apply IH].
Qed.

Lemma replaceAll_absent c by_ s : c ∉ s -> Str.replaceAll c by_ s = s.
Proof.
  induction s as [|y s IH]; simpl; [done|]. intros [Hy Hs]%not_elem_of_cons.
  destruct (y =? c) eqn:E; [apply N.eqb_eq in E; congruence|].
  by rewrite IH.
Qed.

Lemma cells_not_blank line :
  spec_blank line = false ->
  spec_blank (Str.replaceAll COMMA (lit " | ") line) = false.
Proof.
  unfold spec_blank. induction line as [|x line IH]; simpl; [done|].
  destruct (x =? COMMA) eqn:E.
  - intros _. reflexivity.
  - simpl. destruct (Str.isWhiteSpace x); simpl; [exact IH|done].
Qed.

Lemma blank_lines_iff body :
  forallb Str.isWhiteSpace body = true <->
  Forall (fun line => spec_blank line = true) (Str.split LF body).
Proof.
  unfold spec_blank. induction body as [|x body IH]; simpl.
  - split; [intros _; by apply Forall_singleton|done].
  - destruct (x =? LF) eqn:E.
    + apply N.eqb_eq in E. subst x. simpl. rewrite IH. split.
      * intros H. by apply List.Forall_cons.
      * by intros [_ H]%Forall_cons.
    + pose proof (split_nonempty LF body) as Hne.
      destruct (Str.split LF body) as [|l ls]; [done|].
      rewrite andb_true_iff, IH. split.
      * intros [Hx [Hl Hls]%Forall_cons]. apply List.Forall_cons; [|done].
        simpl. by rewrite Hx.
      * intros [Hl Hls]%Forall_cons. simpl in Hl.
        apply andb_true_iff in Hl as [Hx Hl]. split; [done|].
        by apply List.Forall_cons.
Qed.

Lemma filter_nil_iff {A} (f : A -> bool) l :
  List.filter f l = [] <-> Forall (fun x => f x = false) l.
Proof.
  induction l as [|x l IH]; simpl; [by split|].
  destruct (f x) eqn:E.
  - split; [done|]. intros [H _]%Forall_cons. congruence.
  - rewrite IH. split; [by intros H; apply List.Forall_cons|by intros [_ H]%Forall_cons].
Qed.

Lemma filter_all {A} (f : A -> bool) l :
  Forall (fun x => f x = true) l -> List.filter f l = l.
Proof.
  induction 1 as [|x l Hx Hl IH]; simpl; [done|]. by rewrite Hx, IH.
Qed.

Lemma join_nonempty sep (l : list jsstring) :
  l <> [] -> Forall (fun s => s <> []) l -> Str.join sep l <> [].
Proof.
  intros Hne Hl. destruct Hl as [|s l Hs Hl]; [done|].
  destruct l; simpl; [done|]. by destruct s.
Qed.

(** The lines that are kept, and what becomes of them. *)
Lemma formattedText_kept body :
  formattedText body =
  Str.join [LF]
    (map (Str.replaceAll COMMA (lit " | "))
       (List.filter (fun line => negb (spec_blank line)) (Str.split LF body))).
Proof. unfold formattedText. by rewrite filter_blank. Qed.

Lemma kept_lines body :
  let out := map (Str.replaceAll COMMA (lit " | "))
               (List.filter (fun line => negb (spec_blank line))
                  (Str.split LF body)) in
  Forall (fun line => spec_blank line = false /\ (LF ∉ line) /\ (COMMA ∉ line)) out.
Proof.
  cbn zeta. apply Forall_forall. intros line Hin.
  apply list_elem_of_fmap in Hin as (l0 & -> & Hin).
  apply list_elem_of_In, filter_In in Hin as [Hin Hnb].
  apply negb_true_iff in Hnb. split; [by apply cells_not_blank|]. split.
  - apply replaceAll_keeps_absent.
    + pose proof (split_lines_no_sep LF body) as H. rewrite Forall_forall in H.
      apply H. by apply list_elem_of_In.
    + apply (bool_decide_unpack _). vm_compute. exact I.
  - apply replaceAll_no_char. apply (bool_decide_unpack _). vm_compute. exact I.
Qed.

(** X6.  The lines of the text that [extractSpreadsheetText] saves are the
    lines of the body that are not blank, in their order, each with its
    commas replaced: as many lines as the body has lines that are not
    blank, none of them blank, so that the text neither starts nor ends
    with a line break and has no two line breaks in a row.  The kept lines
    are not trimmed: what surrounds their cells stays, a carriage return
    before the line break included.  When every line of the body is blank
    the text is empty. *)
Theorem formattedText_lines body :
  let kept := List.filter (fun line => negb (spec_blank line)) (Str.split LF body) in
  (kept = [] -> formattedText body = []) /\
  (kept <> [] ->
     Str.split LF (formattedText body) =
       map (Str.replaceAll COMMA (lit " | ")) kept /\
     Forall (fun line => spec_blank line = false)
       (Str.split LF (formattedText body))).
Proof.
  cbn zeta. rewrite formattedText_kept. split; [by intros ->|]. intros Hne.
  pose proof (kept_lines body) as Hk. cbn zeta in Hk.
  assert (E : Str.split LF (Str.join [LF]
                (map (Str.replaceAll COMMA (lit " | "))
                   (List.filter (fun line => negb (spec_blank line))
                      (Str.split LF body)))) =
              map (Str.replaceAll COMMA (lit " | "))
                (List.filter (fun line => negb (spec_blank line))
                   (Str.split LF body))).
  { apply split_join_lines.
    - by destruct (List.filter _ _).
    - eapply Forall_impl; [exact Hk|]. by intros l (_ & ? & _). }
  rewrite E. split; [done|]. eapply Forall_impl; [exact Hk|]. by intros l (? & _).
Qed.


(** A body with Windows line ends and a blank line. *)
Lemma formattedText_lines_witness :
  Str.split LF (formattedText (lit "a,b" ++ [13; LF; 32; LF] ++ lit "1,2" ++ [13; LF])) =
    [lit "a | b" ++ [13]; lit "1 | 2" ++ [13]] /\
  Forall (fun line => spec_blank line = false)
    (Str.split LF
       (formattedText (lit "a,b" ++ [13; LF; 32; LF] ++ lit "1,2" ++ [13; LF]))).
Proof.
  apply (proj2 (formattedText_lines
                  (lit "a,b" ++ [13; LF; 32; LF] ++ lit "1,2" ++ [13; LF]))).
  vm_compute. discriminate.
Defined.

(** X7.  Formatting is idempotent: the text that [extractSpreadsheetText]
    produces is left as it is when it is formatted again. *)
Theorem formattedText_idempotent body :
  formattedText (formattedText body) = formattedText body.
Proof.
  rewrite (formattedText_kept (formattedText body)).
  rewrite (formattedText_kept body).
  pose proof (kept_lines body) as Hk. cbn zeta in Hk.
  set (out := map _ (List.filter _ (Str.split LF body))) in *.
  destruct out as [|l0 ls] eqn:Eout; [reflexivity|].
  rewrite split_join_lines; [|done|].
  2:{ eapply Forall_impl; [exact Hk|]. by intros l (_ & ? & _). }
  rewrite filter_all.
  2:{ eapply Forall_impl; [exact Hk|]. intros l (-> & _). done. }
  f_equal. rewrite <- (map_id (l0 :: ls)) at 2. apply map_ext_Forall.
  eapply Forall_impl; [exact Hk|]. intros l (_ & _ & ?). by apply replaceAll_absent.
Qed.

(** X8.  The text that [extractSpreadsheetText] saves is empty exactly
    when the body of the export holds nothing but white space and line
    breaks. *)
Theorem formattedText_empty_iff body :
  formattedText body = [] <-> forallb Str.isWhiteSpace body = true.
Proof.
  rewrite formattedText_kept, blank_lines_iff. split.
  - intros Hj.
    assert (Hnil : List.filter (fun line => negb (spec_blank line))
                     (Str.split LF body) = []).
    { destruct (List.filter _ _) as [|l ls] eqn:E; [done|]. exfalso.
      revert Hj. apply join_nonempty; [done|].
      pose proof (kept_lines body) as Hk. cbn zeta in Hk. rewrite E in Hk.
      eapply Forall_impl; [exact Hk|]. intros s (Hb & _) ->. done. }
    apply filter_nil_iff in Hnil. eapply Forall_impl; [exact Hnil|].
    intros l Hl. by apply negb_false_iff.
  - intros Hall.
    assert (Hnil : List.filter (fun line => negb (spec_blank line))
                     (Str.split LF body) = []).
    { apply filter_nil_iff. eapply Forall_impl; [exact Hall|].
      intros l ->. done. }
    by rewrite Hnil.
Qed.


(* ===================================================================== *)
(** * M. One extraction: what is saved, what is asked *)
(* ===================================================================== *)

Lemma extractors_categories :
  extractors = map (fun c => (mimeTypeOf c, extractorOf c))
                 [pdf; document; spreadsheet; presentation; word_doc; plain_text].
Proof. reflexivity. Qed.

Lemma outputDir_literal c :
  outputDir c =
  match c with
  | pdf => lit "./saved-outputs/pdf"
  | document => lit "./saved-outputs/document"
  | spreadsheet => lit "./saved-outputs/spreadsheet"
  | presentation => lit "./saved-outputs/presentation"
  | word_doc => lit "./saved-outputs/word-doc"
  | plain_text => lit "./saved-outputs/plain-text"
  end.
Proof. by destruct c. Qed.

Lemma extractor_ends env c drive fileId fileName w (Q : World * Outcome -> Prop) :
  (forall e, Q (extracting fileName w, Rejected e)) ->
  (forall text w0, disk w0 = disk w ->
     Q (saveFile text fileName (outputDir c) w0, Fulfilled text)) ->
  Q (runAlone env (extractorOf c drive fileId fileName) w).
Proof.
  rewrite outputDir_literal. intros Hfail Hsave.
  destruct c; unfold extractorOf, extractPDFText, extractDocumentText,
    extractSpreadsheetText, extractPresentationText, extractWordDoc,
    extractPlainText, awaitCall, handleArrayBuffer;
    case_prog; first [apply Hfail | apply Hsave; reflexivity].
Qed.

(** X9.  Each of the six extractors, whatever the outside answers and
    whatever the disk: when it throws, it has printed its line [Extracting
    text from file] and done nothing else, the disk is as it was; when it
    returns a text, the last thing it did was to call [saveFile] with that
    very text, the name it was given and the directory of its category,
    and nothing before that call touched the disk. *)
Theorem extraction_saves_what_it_returns env c drive fileId fileName w :
  let r := runAlone env (extractorOf c drive fileId fileName) w in
  match snd r with
  | Rejected _ => fst r = extracting fileName w
  | Fulfilled text =>
      exists w0, disk w0 = disk w /\
                 fst r = saveFile text fileName (outputDir c) w0
  end.
Proof.
  cbn zeta. apply extractor_ends; cbn; eauto.
Qed.

Lemma runAlone_andThen_pair env p k : forall w,
  runAlone env (andThen p k) w =
  runAlone env (k (snd (runAlone env p w))) (fst (runAlone env p w)).
Proof.
  induction p as [v|e|f p IH|fn args c IH|pr c IH|t IHt p IHp]; intros w; cbn; auto.
Qed.

Lemma extractor_category l f :
  (l, f) ∈ extractors -> exists c, l = mimeTypeOf c /\ f = extractorOf c.
Proof.
  rewrite extractors_categories. intros (c & [= -> ->] & _)%list_elem_of_fmap. eauto.
Qed.

Lemma extractText_body_ends env drive fileId w (Q : World * Outcome -> Prop) :
  (forall e, Q (w, Rejected e)) ->
  (forall e name, Q (extracting name w, Rejected e)) ->
  (forall text name c w0, disk w0 = disk w ->
     Q (saveFile text name (outputDir c) w0, Fulfilled text)) ->
  Q (runAlone env (extractText_body drive fileId) w).
Proof.
  intros Hearly Hfail Hsave. unfold extractText_body. cbn.
  destruct (env files_get (metadataCall drive fileId)) as [meta|e]; cbn; [|apply Hearly].
  destruct (getProp meta "data") as [e|data]; cbn; [apply Hearly|].
  destruct (getProp data "name") as [e|name]; cbn; [apply Hearly|].
  destruct (getProp data "mimeType") as [e|mimeType]; cbn; [apply Hearly|].
  destruct (dispatch_cases drive fileId name mimeType)
    as [-> | (l & f & (c & -> & ->)%extractor_category & ->)]; [apply Hearly|].
  unfold awaitCall. rewrite runAlone_andThen_pair.
  apply (extractor_ends env c drive fileId name w
           (fun r => Q (runAlone env (let%await text := Settled r.2 in Ret text) r.1))).
  - intros e. cbn. apply Hfail.
  - intros text w0 Hw0. cbn. by apply Hsave.
Qed.





Lemma calls_andThen env p k :
  calls env (andThen p k) = calls env p ++ calls env (k (outcome env p)).
Proof.
  induction p as [v|e|f p IH|fn args c IH|pr c IH|t IHt p IHp]; cbn; auto.
  - by rewrite IH.
  - destruct pr; cbn; by rewrite IH.
  - rewrite IHp. by rewrite <- app_assoc.
Qed.

Lemma extractor_calls env c drive fileId fileName :
  exists rest,
    calls env (extractorOf c drive fileId fileName) =
      contentRequest c drive fileId :: rest /\
    forallb isLocalCall rest = true /\ (length rest <= 2)%nat.
Proof.
  destruct c; unfold extractorOf, contentRequest, mediaCall, exportCall,
    extractPDFText, extractDocumentText,
    extractSpreadsheetText, extractPresentationText, extractWordDoc,
    extractPlainText, awaitCall, handleArrayBuffer;
    case_prog; eexists; (split; [reflexivity|]); cbn; split; (reflexivity || lia).
Qed.


(** X13.  [handleArrayBuffer] calls [Buffer.from] at most once and returns
    what that call returns: either it throws before any call, or it makes
    exactly one call, on the body of the response or on what the
    [arrayBuffer] method of the body gave, and ends as that call ends.
    When the promise of the [arrayBuffer] method is rejected,
    [handleArrayBuffer] is rejected with the same error and [Buffer.from]
    is not called. *)
Theorem handleArrayBuffer_wraps_once env response :
  ((calls env (handleArrayBuffer response) = [] /\
    exists e, outcome env (handleArrayBuffer response) = Rejected e) \/
   (exists x,
      calls env (handleArrayBuffer response) = [(Buffer_from, [x])] /\
      outcome env (handleArrayBuffer response) = env Buffer_from [x] /\
      (getProp response "data" = inr x \/
       exists body,
         getProp response "data" = inr body /\
         getProp body "arrayBuffer" = inr (VFun (Fulfilled x))))) /\
  (forall body e,
     getProp response "data" = inr body ->
     instanceofArrayBuffer body = false ->
     getProp body "arrayBuffer" = inr (VFun (Rejected e)) ->
     calls env (handleArrayBuffer response) = [] /\
     outcome env (handleArrayBuffer response) = Rejected e).
Proof.
  split.
  - unfold handleArrayBuffer.
    destruct (getProp response "data") as [e|body] eqn:Hdata; cbn [get];
      [left; cbn; eauto|].
    destruct (instanceofArrayBuffer body).
    { right. exists body. cbn. destruct (env Buffer_from [body]); cbn; auto. }
    destruct (getProp body "arrayBuffer") as [e|method] eqn:Hm; cbn [get];
      [left; cbn; eauto|].
    destruct (truthy method).
    + destruct method as [| | | | | | |[x|e]]; try (left; cbn; eauto; fail).
      right. exists x. cbn. destruct (env Buffer_from [x]); cbn; eauto 10.
    + right. exists body. cbn. destruct (env Buffer_from [body]); cbn; auto.
  - intros body e Hdata Hab Hm. unfold handleArrayBuffer.
    rewrite Hdata. cbn [get]. rewrite Hab, Hm. cbn [get].
    change (truthy (VFun (Rejected e))) with true. cbn. done.
Qed.


(** A body whose stream cannot be collected. *)
Lemma handleArrayBuffer_wraps_once_witness :
  calls reportEnv
    (handleArrayBuffer
       (obj [("data",
              obj [("arrayBuffer",
                    VFun (Rejected (MkError [TLit "stream closed"])))])])) = [] /\
  outcome reportEnv
    (handleArrayBuffer
       (obj [("data",
              obj [("arrayBuffer",
                    VFun (Rejected (MkError [TLit "stream closed"])))])])) =
    Rejected (MkError [TLit "stream closed"]).
Proof.
  exact (proj2 (handleArrayBuffer_wraps_once reportEnv
                  (obj [("data",
                         obj [("arrayBuffer",
                               VFun (Rejected (MkError [TLit "stream closed"])))])]))
           (obj [("arrayBuffer", VFun (Rejected (MkError [TLit "stream closed"])))])
           (MkError [TLit "stream closed"]) eq_refl eq_refl eq_refl).
Defined.

(* ===================================================================== *)
(** * N. What [main] starts *)
(* ===================================================================== *)

Lemma getProp_isObject v k : isObject v -> getProp v k = inr (prop v k).
Proof. by destruct v. Qed.

Lemma processFile_supported drive file :
  isObject file -> supported file = true ->
  processFile drive file =
    Spawn (extractText drive (prop file "id")) (Ret VUndefined).
Proof.
  intros Hfile Hs. unfold processFile.
  rewrite (getProp_isObject file "mimeType" Hfile). cbn [get].
  fold (supported file). rewrite Hs.
  by rewrite (getProp_isObject file "id" Hfile).
Qed.

Lemma processFile_skipped drive file :
  isObject file -> supported file = false ->
  processFile drive file =
    Do (print stdout [TLit "❌ Skipping file "; TVal (prop file "name");
                      TLit " because it is not a supported file type"])
       (Ret VUndefined).
Proof.
  intros Hfile Hs. unfold processFile.
  rewrite (getProp_isObject file "mimeType" Hfile). cbn [get].
  fold (supported file). rewrite Hs.
  by rewrite (getProp_isObject file "name" Hfile).
Qed.

Lemma exec_extractText env id drive fileId L :
  exists k,
    exec env id (extractText drive fileId) L =
    suspend (mkTask id (Call files_get (metadataCall drive fileId)) k) L.
Proof. eexists. reflexivity. Qed.

(** The entries of the listing, one after the other: an extraction is
    started and suspends on its first request, or a line is printed. *)
Lemma exec_forEach env id drive items : forall L,
  Forall isObject items ->
  exists tasks,
    exec env id (forEach items (processFile drive)) L =
      {| world :=
           {| disk := disk (world L);
              console := console (world L) ++
                map skippedLine
                  (List.filter (fun file => negb (supported file)) items) |};
         queue := queue L ++ tasks;
         settled := settled L ++ [(id, Fulfilled VUndefined)];
         fresh := (fresh L + length (List.filter supported items))%nat |} /\
    map waiting tasks = map (metadataRequest drive) (List.filter supported items) /\
    map tid tasks = List.seq (fresh L) (length (List.filter supported items)).
Proof.
  induction items as [|file rest IH]; intros L Hobj.
  - exists []. cbn. rewrite !app_nil_r, Nat.add_0_r. unfold settle.
    destruct L as [[d c] q s f]; done.
  - apply Forall_cons in Hobj as [Hfile Hrest].
    cbn [forEach List.filter]. unfold seq.
    destruct (supported file) eqn:Es; cbn [negb].
    + rewrite (processFile_supported drive file Hfile Es).
      cbn [andThen orThrow exec].
      destruct (exec_extractText env (fresh L) drive (prop file "id")
                  {| world := world L; queue := queue L;
                     settled := settled L; fresh := S (fresh L) |}) as [k ->].
      destruct (IH (suspend (mkTask (fresh L)
                               (Call files_get (metadataCall drive (prop file "id"))) k)
                      {| world := world L; queue := queue L;
                         settled := settled L; fresh := S (fresh L) |}) Hrest)
        as (tasks & -> & Hwait & Htid).
      eexists (_ :: tasks). cbn. rewrite <- app_assoc. cbn.
      split; [f_equal; lia|]. split; [by rewrite Hwait|by rewrite Htid].
    + rewrite (processFile_skipped drive file Hfile Es).
      cbn [andThen orThrow exec].
      destruct (IH {| world := print stdout
                          [TLit "❌ Skipping file "; TVal (prop file "name");
                           TLit " because it is not a supported file type"]
                          (world L);
                      queue := queue L; settled := settled L; fresh := fresh L |}
                  Hrest) as (tasks & -> & Hwait & Htid).
      exists tasks. cbn. rewrite <- app_assoc. done.
Qed.

Lemma processFiles_listing drive items :
  processFiles drive (VArr items) =
  match items with
  | [] => Do (print stdout [TLit "❌ No Files Found"]) (Ret VUndefined)
  | _ => forEach items (processFile drive)
  end.
Proof.
  unfold processFiles.
  change (getProp (VArr items) "length")
    with (@inr Error _ (VNum (Z.of_nat (length items)))).
  cbn [get]. destruct items as [|item rest]; [reflexivity|].
  cbn [length isNotZero]. replace (Z.of_nat (S (length rest)) =? 0)%Z with false
    by (symmetry; apply Z.eqb_neq; lia).
  reflexivity.
Qed.

Lemma run_idle env schedule : forall L, queue L = [] -> run env schedule L = L.
Proof.
  induction schedule as [|i rest IH]; intros L Hq; cbn; [done|].
  rewrite step_idle by done. by apply IH.
Qed.

(** With one call suspended, the turn is its own, whatever the scheduler
    counts. *)
Lemma step_single env i t w s f :
  step env i {| world := w; queue := [t]; settled := s; fresh := f |} =
  exec env (tid t) (resume t (respond env (waiting t)))
    {| world := w; queue := []; settled := s; fresh := f |}.
Proof.
  unfold step. cbn [queue length world settled fresh].
  rewrite Nat.mod_1_r. reflexivity.
Qed.

Lemma run_cons env i schedule L :
  run env (i :: schedule) L = run env schedule (step env i L).
Proof. reflexivity. Qed.

Ltac one_turn :=
  unfold suspend; cbn [world queue settled fresh app];
  rewrite step_single; cbn [tid resume waiting respond].

(** Two turns bring [main] to the listing. *)
Lemma main_after_listing env w auth drive items i j :
  env authorize [] = Fulfilled auth ->
  env google_drive [obj [("version", str "v3"); ("auth", auth)]] = Fulfilled drive ->
  env files_list [drive; listParams] =
    Fulfilled (obj [("data", obj [("files", VArr items)])]) ->
  run env [i; j] (start env main w) =
  exec env 0%nat (processFiles drive (VArr items))
    {| world := w; queue := []; settled := []; fresh := 1 |}.
Proof.
  intros Hauth Hdrive Hlist. rewrite !run_cons. unfold start, main.
  cbn [exec await]. one_turn. rewrite Hauth.
  cbn. rewrite Hdrive. cbn. one_turn. rewrite Hlist. cbn.
  change (getProp (obj [("data", obj [("files", VArr items)])]) "data")
    with (@inr Error _ (obj [("files", VArr items)])).
  cbn.
  change (getProp (obj [("files", VArr items)]) "files")
    with (@inr Error _ (VArr items)).
  reflexivity.
Qed.



(** X15.  [main] fails with its collaborators, and only reports.  When
    [authorize] is rejected, or [google.drive] throws, the first turn
    rejects the promise of [main] with that error; when the listing is
    rejected, the second turn does.  In each case [main] has
    done nothing else: no extraction has been started, [main] has printed
    nothing (the error is left to the [catch] of its caller) and the disk
    is as it was; further turns change nothing. *)
Theorem main_fails_with_its_collaborators env w :
  (forall e i schedule,
     env authorize [] = Rejected e ->
     run env (i :: schedule) (start env main w) =
       {| world := w; queue := []; settled := [(0%nat, Rejected e)]; fresh := 1 |}) /\
  (forall auth e i schedule,
     env authorize [] = Fulfilled auth ->
     env google_drive [obj [("version", str "v3"); ("auth", auth)]] = Rejected e ->
     run env (i :: schedule) (start env main w) =
       {| world := w; queue := []; settled := [(0%nat, Rejected e)]; fresh := 1 |}) /\
  (forall auth drive e i j schedule,
     env authorize [] = Fulfilled auth ->
     env google_drive [obj [("version", str "v3"); ("auth", auth)]] =
       Fulfilled drive ->
     env files_list [drive; listParams] = Rejected e ->
     run env (i :: j :: schedule) (start env main w) =
       {| world := w; queue := []; settled := [(0%nat, Rejected e)]; fresh := 1 |}).
Proof.
  split; [|split].
  - intros e i schedule Hauth. rewrite run_cons. unfold start, main.
    cbn [exec await]. one_turn. rewrite Hauth.
    cbn. by apply run_idle.
  - intros auth e i schedule Hauth Hdrive. rewrite run_cons. unfold start, main.
    cbn [exec await]. one_turn. rewrite Hauth.
    cbn. rewrite Hdrive. cbn. by apply run_idle.
  - intros auth drive e i j schedule Hauth Hdrive Hlist.
    rewrite !run_cons. unfold start, main.
    cbn [exec await]. one_turn. rewrite Hauth.
    cbn. rewrite Hdrive. cbn. one_turn. rewrite Hlist.
    cbn. by apply run_idle.
Qed.


(** An outside that answers nothing. *)
Lemma main_fails_with_its_collaborators_witness :
  run (fun _ _ => notAvailable) [0; 0; 0]%nat
    (start (fun _ _ => notAvailable) main emptyWorld) =
  {| world := emptyWorld; queue := [];
     settled := [(0%nat, Rejected (MkError [TLit "not available"]))];
     fresh := 1 |}.
Proof.
  exact (proj1 (main_fails_with_its_collaborators (fun _ _ => notAvailable)
                  emptyWorld)
           (MkError [TLit "not available"]) 0%nat [0; 0]%nat eq_refl).
Defined.

(* ===================================================================== *)
(** * O. Every run ends *)
(* ===================================================================== *)

Lemma turns_andThen env p k :
  turns env (andThen p k) = (turns env p + turns env (k (outcome env p)))%nat.
Proof.
  induction p as [v|e|f p IH|fn args c IH|pr c IH|t IHt p IHp]; cbn; auto.
  rewrite IHp. lia.
Qed.

Lemma turns_extractor env c drive fileId fileName :
  (turns env (extractorOf c drive fileId fileName) <= 4)%nat.
Proof.
  destruct c; unfold extractorOf, extractPDFText, extractDocumentText,
    extractSpreadsheetText, extractPresentationText, extractWordDoc,
    extractPlainText, awaitCall, handleArrayBuffer;
    case_prog; lia.
Qed.

Lemma turns_extractText env drive fileId :
  (turns env (extractText drive fileId) <= 6)%nat.
Proof.
  unfold extractText, tryCatch. rewrite turns_andThen.
  assert (Hh : turns env
            match outcome env (extractText_body drive fileId) with
            | Fulfilled v => Ret v
            | Rejected e =>
                Do (console_error
                      (TLit "Error extracting text from file: " :: message e))
                  (Ret VUndefined)
            end = 0%nat) by (by destruct (outcome env _)).
  rewrite Hh, Nat.add_0_r. clear Hh. unfold extractText_body. cbn.
  destruct (env files_get (metadataCall drive fileId)) as [meta|e]; cbn; [|lia].
  destruct (getProp meta "data") as [e|data]; cbn; [lia|].
  destruct (getProp data "name") as [e|name]; cbn; [lia|].
  destruct (getProp data "mimeType") as [e|mimeType]; cbn; [lia|].
  destruct (dispatch_cases drive fileId name mimeType)
    as [-> | (l & f & (c & -> & ->)%extractor_category & ->)]; [cbn; lia|].
  unfold awaitCall. rewrite turns_andThen.
  pose proof (turns_extractor env c drive fileId name).
  destruct (outcome env (extractorOf c drive fileId name)); cbn; lia.
Qed.

Lemma turns_processFile env drive file :
  (turns env (processFile drive file) <= 6)%nat.
Proof.
  unfold processFile. destruct (getProp file "mimeType") as [e|m]; cbn; [lia|].
  destruct (Set_has fileTypes m).
  - destruct (getProp file "id") as [e|id]; cbn [get]; [cbn; lia|].
    change (turns env (extractText drive id) + 0 <= 6)%nat.
    pose proof (turns_extractText env drive id). lia.
  - destruct (getProp file "name") as [e|name]; cbn; lia.
Qed.

Lemma turns_forEach env drive items :
  (turns env (forEach items (processFile drive)) <= 6 * length items)%nat.
Proof.
  induction items as [|file rest IH]; cbn [forEach length turns]; [lia|].
  unfold seq. rewrite turns_andThen.
  pose proof (turns_processFile env drive file).
  destruct (outcome env (processFile drive file)); cbn [orThrow turns]; lia.
Qed.

Lemma turns_main env :
  (turns env main <= 2)%nat \/
  exists auth drive res files items,
    env authorize [] = Fulfilled auth /\
    env google_drive [obj [("version", str "v3"); ("auth", auth)]] =
      Fulfilled drive /\
    env files_list [drive; listParams] = Fulfilled res /\
    getProp res "data" = inr files /\ getProp files "files" = inr (VArr items) /\
    (turns env main <= 2 + 6 * length items)%nat.
Proof.
  unfold main. cbn.
  destruct (env authorize []) as [auth|e] eqn:Hauth; cbn; [|left; lia].
  destruct (env google_drive _) as [drive|e] eqn:Hdrive; cbn; [|left; lia].
  destruct (env files_list _) as [res|e] eqn:Hlist; cbn; [|left; lia].
  destruct (getProp res "data") as [e|data] eqn:Hdata; cbn; [left; lia|].
  destruct (getProp data "files") as [e|files] eqn:Hfiles; cbn; [left; lia|].
  unfold processFiles.
  destruct (getProp files "length") as [e|len]; cbn; [left; lia|].
  destruct (isNotZero len); cbn; [|left; lia].
  destruct files; cbn; try (left; lia).
  right. exists auth, drive, res, data, items. repeat (split; [done|]).
  pose proof (turns_forEach env drive items). lia.
Qed.



(* ===================================================================== *)
(** * Q. The first version of [index.js] and the filter on the types *)
(* ===================================================================== *)

Lemma earlier_processFile_object drive file :
  isObject file ->
  earlier.processFile drive file =
    Spawn (extractText drive (prop file "id")) (Ret VUndefined).
Proof.
  intros Hfile. unfold earlier.processFile.
  by rewrite (getProp_isObject file "id" Hfile).
Qed.

Lemma forEach_ext items (f g : Value -> Prog) :
  Forall (fun item => f item = g item) items -> forEach items f = forEach items g.
Proof.
  induction 1 as [|item rest Hitem Hrest IH]; cbn; [done|]. by rewrite Hitem, IH.
Qed.

Lemma earlier_main_after_listing env w auth drive items i j :
  env authorize [] = Fulfilled auth ->
  env google_drive [obj [("version", str "v3"); ("auth", auth)]] = Fulfilled drive ->
  env files_list [drive; earlier.listParams] =
    Fulfilled (obj [("data", obj [("files", VArr items)])]) ->
  run env [i; j] (start env earlier.main w) =
  exec env 0%nat (earlier.processFiles drive (VArr items))
    {| world := w; queue := []; settled := []; fresh := 1 |}.
Proof.
  intros Hauth Hdrive Hlist. rewrite !run_cons. unfold start, earlier.main.
  cbn [exec await]. one_turn. rewrite Hauth.
  cbn. rewrite Hdrive. cbn. one_turn. rewrite Hlist. cbn.
  change (getProp (obj [("data", obj [("files", VArr items)])]) "data")
    with (@inr Error _ (obj [("files", VArr items)])).
  cbn.
  change (getProp (obj [("files", VArr items)]) "files")
    with (@inr Error _ (VArr items)).
  reflexivity.
Qed.

Lemma run_app env s1 s2 L : run env (s1 ++ s2) L = run env s2 (run env s1 L).
Proof. unfold run. apply fold_left_app. Qed.



(* ===================================================================== *)
(** * R. The content of an artifact at the end of a batch *)
(* ===================================================================== *)

Lemma everyDo_andThen env S p k :
  everyDo env S p -> everyDo env S (k (outcome env p)) ->
  everyDo env S (andThen p k).
Proof.
  intros Hp Hk.
  induction p as [v|e|f p IH|fn args c IH|pr c IH|t IHt p IHp]; cbn in *; auto.
  - destruct Hp. auto.
  - destruct Hp. auto.
Qed.

Lemma everyDo_forEach env S callback items :
  Forall (fun item => everyDo env S (callback item)) items ->
  everyDo env S (forEach items callback).
Proof.
  induction 1 as [|item rest Hitem Hrest IH]; cbn; [done|].
  unfold seq. apply everyDo_andThen; [done|].
  by destruct (outcome env (callback item)).
Qed.

(** The statements of an extractor: lines printed, and one [saveFile] of
    the text it returns. *)
Lemma everyDo_extractor env S c drive fileId fileName :
  (forall s msg, S (print s msg)) ->
  (forall text,
     outcome env (extractorOf c drive fileId fileName) = Fulfilled text ->
     S (saveFile text fileName (outputDir c))) ->
  everyDo env S (extractorOf c drive fileId fileName).
Proof.
  rewrite outputDir_literal. intros Hprint. unfold extracting.
  destruct c; unfold extractorOf, extractPDFText, extractDocumentText,
    extractSpreadsheetText, extractPresentationText, extractWordDoc,
    extractPlainText, awaitCall, handleArrayBuffer, extracting;
    case_prog; intros Hsave; repeat split;
    first [apply Hprint | apply Hsave; reflexivity].
Qed.

Lemma reaches_extractor env fact c drive fileId fileName text :
  outcome env (extractorOf c drive fileId fileName) = Fulfilled text ->
  (forall w, writable (disk w) ->
     fact (saveFile text fileName (outputDir c) w)) ->
  reaches env fact (extractorOf c drive fileId fileName).
Proof.
  rewrite outputDir_literal. revert text.
  destruct c; unfold extractorOf, extractPDFText, extractDocumentText,
    extractSpreadsheetText, extractPresentationText, extractWordDoc,
    extractPlainText, awaitCall, handleArrayBuffer, extracting;
    case_prog; intros text Hout Hsave; try discriminate;
    injection Hout as <-; auto.
Qed.

Lemma dispatch_category drive fileId fileName mimeType :
  dispatch drive fileId fileName mimeType =
  match categoryOf mimeType with
  | Some c => let%call text := extractorOf c drive fileId fileName in Ret text
  | None => Throw (unsupported mimeType)
  end.
Proof.
  destruct mimeType as [| | | |m| | |]; try reflexivity.
  unfold dispatch, switch, categoryOf, extractors.
  cbn [map List.find fst snd mimeTypeOf].
  repeat (case_bool_decide; [reflexivity|]). reflexivity.
Qed.

(** The statements of [extractText]: the lines it prints, and at most one
    [saveFile], of the text of the extractor that the metadata select. *)
Lemma everyDo_extractText env S drive fileId :
  (forall s msg, S (print s msg)) ->
  (forall meta c text,
     env files_get (metadataCall drive fileId) = Fulfilled meta ->
     categoryOf (prop (prop meta "data") "mimeType") = Some c ->
     outcome env (extractorOf c drive fileId (prop (prop meta "data") "name")) =
       Fulfilled text ->
     S (saveFile text (prop (prop meta "data") "name") (outputDir c))) ->
  everyDo env S (extractText drive fileId).
Proof.
  intros Hprint Hsave. unfold extractText, tryCatch.
  apply everyDo_andThen.
  2:{ destruct (outcome env _); cbn; [done|]. split; [apply Hprint|done]. }
  unfold extractText_body. cbn.
  destruct (env files_get (metadataCall drive fileId)) as [meta|e] eqn:Hmeta;
    cbn; [|done].
  pose proof (fun c text => Hsave meta c text eq_refl) as Hs. clear Hsave.
  unfold prop in Hs.
  destruct (getProp meta "data") as [e|data]; cbn; [done|].
  destruct (getProp data "name") as [e|name]; cbn; [done|].
  destruct (getProp data "mimeType") as [e|mimeType]; cbn; [done|].
  rewrite dispatch_category.
  destruct (categoryOf mimeType) as [c|]; [|done].
  unfold awaitCall. apply everyDo_andThen.
  - apply everyDo_extractor; [done|]. intros text Hout. by apply (Hs c text).
  - by destruct (outcome env _).
Qed.

Lemma reaches_extractText env fact drive fileId meta c name text :
  env files_get (metadataCall drive fileId) = Fulfilled meta ->
  prop (prop meta "data") "name" = VStr name ->
  categoryOf (prop (prop meta "data") "mimeType") = Some c ->
  outcome env (extractorOf c drive fileId (VStr name)) = Fulfilled text ->
  (forall w, writable (disk w) ->
     fact (saveFile text (VStr name) (outputDir c) w)) ->
  reaches env fact (extractText drive fileId).
Proof.
  intros Hmeta Hname Hcat Hout Hfact. unfold extractText, tryCatch.
  apply reaches_andThen. left. unfold extractText_body. cbn. rewrite Hmeta. cbn.
  unfold prop in Hname, Hcat.
  destruct (getProp meta "data") as [e|data]; cbn; [done|].
  destruct (getProp data "name") as [e|name']; cbn; [done|]. subst name'.
  destruct (getProp data "mimeType") as [e|mimeType]; cbn; [done|].
  rewrite dispatch_category, Hcat.
  unfold awaitCall. apply reaches_andThen. left.
  by apply (reaches_extractor env fact c drive fileId (VStr name) text).
Qed.

(** ** Statements that keep a fact, along the turns of the loop *)

Section Keeping.

Variable env : Env.
Variable S : (World -> World) -> Prop.
Variable fact : World -> Prop.
Hypothesis S_keeps :
  forall f w, S f -> writable (disk w) -> fact w -> fact (f w).

Lemma exec_keeps p : forall id L,
  loopOk L -> orderly p -> (id <> 0%nat -> neverThrows p) -> everyDo env S p ->
  exists new,
    queue (exec env id p L) = queue L ++ new /\
    Forall (taskDoes env S) new /\
    (fact (world L) -> fact (world (exec env id p L))) /\
    (reaches env fact p ->
       fact (world (exec env id p L)) \/ Exists (willReach env fact) new).
Proof.
  induction p as [v|e|f k IH|fn args k IH|pr k IH|t IHt k IHk];
    intros id L HL Hord Hnt Hdo; cbn [exec].
  - exists []. cbn. rewrite app_nil_r. repeat split; auto. by intros [].
  - exists []. cbn. rewrite app_nil_r. repeat split; auto. by intros [].
  - destruct Hord as [Hf Hk]. destruct Hdo as [HS Hdo].
    destruct HL as (Hw & Hq & Hs & Hfr).
    destruct (Hf (world L) Hw) as (Hw' & _).
    set (L1 := {| world := f (world L); queue := queue L;
                  settled := settled L; fresh := fresh L |}).
    assert (HL1 : loopOk L1)
      by (split; [exact Hw'|]; split; [exact Hq|]; split; [exact Hs|exact Hfr]).
    destruct (IH id L1 HL1 Hk Hnt Hdo) as (new & Hnew & Hsafe & Hlast & Hreach).
    exists new. split; [done|]. split; [done|]. split.
    + intros Hnow. apply Hlast. by apply S_keeps.
    + intros [Hnow|Hlater]; [|by apply Hreach].
      left. apply Hlast. by apply Hnow.
  - apply IH; [done|apply Hord|intros H; apply (Hnt H)|done].
  - eexists. split; [reflexivity|]. split; [by apply Forall_singleton|].
    split; [done|]. intros Hr. right. by apply Exists_cons_hd.
  - destruct Hord as (Hnt_t & Hord_t & Hord_k). destruct Hdo as [Hdo_t Hdo_k].
    destruct HL as (Hw & Hq & Hs & Hfr).
    set (L0 := {| world := world L; queue := queue L;
                  settled := settled L; fresh := Datatypes.S (fresh L) |}).
    assert (HL0 : loopOk L0)
      by (split; [exact Hw|]; split; [exact Hq|]; split; [exact Hs|done]).
    destruct (IHt (fresh L) L0 HL0 Hord_t (fun _ => Hnt_t) Hdo_t)
      as (new1 & Hnew1 & Hsafe1 & Hlast1 & Hreach1).
    destruct (exec_spec env t (fresh L) L0 HL0 Hord_t (fun _ => Hnt_t))
      as (Hok1 & _).
    destruct (IHk id _ Hok1 Hord_k Hnt Hdo_k)
      as (new2 & Hnew2 & Hsafe2 & Hlast2 & Hreach2).
    exists (new1 ++ new2). split; [|split; [|split]].
    + rewrite Hnew2, Hnew1. by rewrite <- app_assoc.
    + by apply Forall_app.
    + intros Hnow. apply Hlast2. by apply Hlast1.
    + intros [Ht|Hk].
      * destruct (Hreach1 Ht) as [Hnow|Hex].
        -- left. by apply Hlast2.
        -- right. apply Exists_app. by left.
      * destruct (Hreach2 Hk) as [Hnow|Hex]; [by left|].
        right. apply Exists_app. by right.
Qed.

Lemma step_keeps i L :
  loopOk L -> Forall (taskDoes env S) (queue L) ->
  fact (world L) \/ Exists (willReach env fact) (queue L) ->
  Forall (taskDoes env S) (queue (step env i L)) /\
  (fact (world (step env i L)) \/
   Exists (willReach env fact) (queue (step env i L))).
Proof.
  intros HL Hsafe Hfact. unfold step.
  destruct (queue L !! (i mod length (queue L))%nat) as [t|] eqn:Et; [|auto].
  set (j := (i mod length (queue L))%nat) in *.
  set (L0 := {| world := world L; queue := delete j (queue L);
                settled := settled L; fresh := fresh L |}).
  destruct HL as (Hw & Hq & Hs & Hfr).
  assert (Ht : taskOk t).
  { rewrite Forall_forall in Hq. apply Hq. by eapply list_elem_of_lookup_2. }
  assert (Hdo : taskDoes env S t).
  { rewrite Forall_forall in Hsafe. apply Hsafe. by eapply list_elem_of_lookup_2. }
  assert (HL0 : loopOk L0).
  { split; [done|]. split; [|done]. by apply Forall_delete_list. }
  destruct Ht as [Hord Hnt].
  destruct (exec_keeps (resume t (respond env (waiting t))) (tid t) L0 HL0
              (Hord _) (fun H => Hnt H _) Hdo)
    as (new & Hnew & Hsafe' & Hlast & Hreach).
  rewrite Hnew. split.
  - apply Forall_app. split; [by apply Forall_delete_list|done].
  - destruct Hfact as [Hnow|Hex]; [left; by apply Hlast|].
    destruct (Exists_delete _ _ _ _ Et Hex) as [Hthis|Hother].
    + destruct (Hreach Hthis) as [?|?]; [by left|].
      right. apply Exists_app. by right.
    + right. apply Exists_app. by left.
Qed.

Lemma run_keeps schedule : forall L,
  loopOk L -> Forall (taskDoes env S) (queue L) ->
  fact (world L) \/ Exists (willReach env fact) (queue L) ->
  fact (world (run env schedule L)) \/
  Exists (willReach env fact) (queue (run env schedule L)).
Proof.
  induction schedule as [|i rest IH]; intros L HL Hsafe Hfact; cbn; [done|].
  destruct (step_spec env i L HL) as [Hok _].
  destruct (step_keeps i L HL Hsafe Hfact) as [Hsafe' Hfact'].
  by apply IH.
Qed.

End Keeping.

(** ** The statements of a batch *)

Lemma leaves_print P s msg : leaves P (print s msg).
Proof. by intros w _. Qed.

Lemma read_after_save text originalFileName c w P :
  writable (disk w) ->
  fs.read P (disk (saveFile text originalFileName (outputDir c) w)) =
  match fs.toFileData text, originalFileName with
  | Some data, VStr s =>
      if bool_decide (P = artifactPlace c s) then Some data else fs.read P (disk w)
  | _, _ => fs.read P (disk w)
  end.
Proof.
  intros Hw. rewrite saveFile_disk.
  by destruct (diskAfterSave_writable text originalFileName c (disk w) Hw)
    as (_ & _ & ->).
Qed.

Lemma savedBy_inv env drive fileId P data :
  savedBy env drive fileId = Some (P, data) ->
  exists meta name c text,
    env files_get (metadataCall drive fileId) = Fulfilled meta /\
    prop (prop meta "data") "name" = VStr name /\
    categoryOf (prop (prop meta "data") "mimeType") = Some c /\
    outcome env (extractorOf c drive fileId (VStr name)) = Fulfilled text /\
    fs.toFileData text = Some data /\ P = artifactPlace c name.
Proof.
  unfold savedBy.
  destruct (env files_get (metadataCall drive fileId)) as [meta|e]; [|done].
  destruct (prop (prop meta "data") "name") as [| | | |name| | |] eqn:Hname; try done.
  destruct (categoryOf _) as [c|] eqn:Hcat; [|done].
  destruct (outcome env _) as [text|e] eqn:Hout; [|done].
  destruct (fs.toFileData text) as [d|] eqn:Ht; [|done].
  intros [= <- <-]. by exists meta, name, c, text.
Qed.

Section Batch.

Variable env : Env.
Variables auth drive : Value.
Variable items : list Value.
Hypothesis Hauth : env authorize [] = Fulfilled auth.
Hypothesis Hdrive :
  env google_drive [obj [("version", str "v3"); ("auth", auth)]] = Fulfilled drive.
Hypothesis Hlist :
  env files_list [drive; listParams] =
    Fulfilled (obj [("data", obj [("files", VArr items)])]).
Hypothesis Hobj : Forall isObject items.

Lemma everyDo_main S :
  (forall s msg, S (print s msg)) ->
  (forall file, file ∈ items -> supported file = true ->
     everyDo env S (extractText drive (prop file "id"))) ->
  everyDo env S main.
Proof.
  intros Hprint Hfiles. unfold main. cbn. rewrite Hauth. cbn. rewrite Hdrive. cbn.
  rewrite Hlist. cbn.
  change (getProp (obj [("data", obj [("files", VArr items)])]) "data")
    with (@inr Error _ (obj [("files", VArr items)])).
  cbn.
  change (getProp (obj [("files", VArr items)]) "files")
    with (@inr Error _ (VArr items)).
  cbn [get]. rewrite processFiles_listing.
  destruct items as [|item rest] eqn:E; [cbn; auto|]. rewrite <- E in *.
  apply everyDo_forEach. apply Forall_forall. intros file Hin.
  rewrite Forall_forall in Hobj.
  destruct (supported file) eqn:Es.
  - rewrite (processFile_supported drive file (Hobj _ Hin) Es).
    cbn [everyDo]. split; [by apply Hfiles|done].
  - rewrite (processFile_skipped drive file (Hobj _ Hin) Es).
    cbn [everyDo]. split; [apply Hprint|done].
Qed.

End Batch.



(* ===================================================================== *)
(** * S. [auth/authorize.js]: the stored token *)
(* ===================================================================== *)

Lemma resolve_TOKEN_PATH : fs.resolve auth.TOKEN_PATH = Some [auth.TOKEN_PATH].
Proof. reflexivity. Qed.

Lemma resolve_credentials :
  fs.resolve (lit "credentials.json") = Some [lit "credentials.json"].
Proof. reflexivity. Qed.

Lemma readFileSync_stat p segs n n' :
  fs.resolve p = Some segs -> fs.stat segs n' = fs.stat segs n ->
  readFileSync p n' = readFileSync p n.
Proof. intros Hr Hs. unfold readFileSync. by rewrite Hr, Hs. Qed.

(** The client is made from [credentials.json] alone. *)
Lemma newClient_disk lib w w' :
  fs.stat [lit "credentials.json"] (disk w') =
    fs.stat [lit "credentials.json"] (disk w) ->
  fst (auth.newClient lib w') = fst (auth.newClient lib w).
Proof.
  intros Hs. unfold auth.newClient, mbind, Sync_bind, sbind, fromDisk, lift.
  rewrite (readFileSync_stat _ _ _ _ resolve_credentials Hs).
  destruct (readFileSync _ (disk w)) as [e|buffer]; [done|].
  destruct (auth.JSON_parse lib buffer) as [e|credentials]; [done|].
  destruct (getProp credentials "installed") as [e|installed]; [done|].
  destruct (auth.destructure installed) as [e|[[a b] c]]; [done|].
  destruct (index0 c) as [e|uri]; [done|]. done.
Qed.

Lemma newClient_world lib w : snd (auth.newClient lib w) = w.
Proof.
  unfold auth.newClient, mbind, Sync_bind, sbind, fromDisk, lift.
  destruct (readFileSync _ (disk w)) as [e|buffer]; [done|].
  destruct (auth.JSON_parse lib buffer) as [e|credentials]; [done|].
  destruct (getProp credentials "installed") as [e|installed]; [done|].
  destruct (auth.destructure installed) as [e|[[a b] c]]; [done|].
  destruct (index0 c) as [e|uri]; [done|]. done.
Qed.

Lemma withStoredToken_world lib client w :
  snd (auth.withStoredToken lib client w) = w.
Proof.
  unfold auth.withStoredToken, mbind, Sync_bind, sbind, fromDisk, lift.
  destruct (readFileSync _ (disk w)) as [e|token]; [done|].
  destruct (auth.JSON_parse lib token) as [e|parsed]; done.
Qed.

(** How [getNewToken] ends, and the world it leaves. *)
Lemma getNewToken_cases lib client w :
  (exists r, auth.getNewToken lib client w = (r, w) /\
             forall c, r <> auth.Settles (Fulfilled c)) \/
  (exists r authUrl,
     auth.getNewToken lib client w =
       (r, print stdout [TLit "Authorize this app by visiting this url:";
                         TLit " "; TVal authUrl] w) /\
     forall c, r <> auth.Settles (Fulfilled c)) \/
  (exists authUrl token client' text data d,
     auth.getToken lib client
       (VStr (auth.question lib (lit "Enter code from URL: "))) = inr token /\
     auth.setCredentials lib client token = inr client' /\
     auth.JSON_stringify lib token = inr text /\
     fs.toFileData text = Some data /\
     fs.store [auth.TOKEN_PATH] data (disk w) = inr d /\
     auth.getNewToken lib client w =
       (auth.Settles (Fulfilled client'),
        {| disk := d;
           console := console w ++
             [(stdout, [TLit "Authorize this app by visiting this url:";
                        TLit " "; TVal authUrl]);
              (stdout, [TLit "Token stored to"; TLit " ";
                        TStr auth.TOKEN_PATH])] |})).
Proof.
  unfold auth.getNewToken.
  destruct (auth.generateAuthUrl lib client _) as [e|authUrl].
  { left. eexists. split; [reflexivity|]. by intros c. }
  destruct (auth.getToken lib client _) as [err|token] eqn:Htoken.
  { right. left. eexists _, authUrl. split; [reflexivity|]. by intros c. }
  destruct (auth.setCredentials lib client token) as [e|client'] eqn:Hset.
  { right. left. eexists _, authUrl. split; [reflexivity|]. by intros c. }
  destruct (auth.JSON_stringify lib token) as [e|text] eqn:Htext.
  { right. left. eexists _, authUrl. split; [reflexivity|]. by intros c. }
  destruct (fs.writeFileSync auth.TOKEN_PATH text _) as [e|d] eqn:Hwrite.
  { right. left. eexists _, authUrl. split; [reflexivity|]. by intros c. }
  right. right.
  apply writeFileSync_inv in Hwrite as (data & segs & Ht & Hres & Hst).
  rewrite resolve_TOKEN_PATH in Hres. injection Hres as <-.
  exists authUrl, token, client', text, data, d.
  repeat (split; [done|]). unfold print. cbn [disk console].
  by rewrite <- app_assoc.
Qed.

(** X19.  [getNewToken] stores the token or leaves the disk alone.
    Either its promise is fulfilled: then the token was obtained, the file
    [token.json] holds exactly what [JSON.stringify] made of it, nothing
    else on the disk has changed, the promise carries the client with
    the token set, and the last line printed is [Token stored to
    token.json].  Or it is not fulfilled - rejected with the error of
    [generateAuthUrl] or the error that [getToken] reports, or left
    unsettled by an exception in the callback - and the disk is as it
    was. *)
Theorem getNewToken_stores_or_leaves lib client w :
  let r := fst (auth.getNewToken lib client w) in
  let w' := snd (auth.getNewToken lib client w) in
  ((forall c, r <> auth.Settles (Fulfilled c)) /\ disk w' = disk w) \/
  (exists token client' text data,
     auth.getToken lib client
       (VStr (auth.question lib (lit "Enter code from URL: "))) = inr token /\
     auth.setCredentials lib client token = inr client' /\
     auth.JSON_stringify lib token = inr text /\
     fs.toFileData text = Some data /\
     r = auth.Settles (Fulfilled client') /\
     fs.read [auth.TOKEN_PATH] (disk w') = Some data /\
     (forall q, q <> [auth.TOKEN_PATH] -> fs.stat q (disk w') = fs.stat q (disk w)) /\
     last (console w') =
       Some (stdout, [TLit "Token stored to"; TLit " "; TStr auth.TOKEN_PATH])).
Proof.
  cbn zeta.
  destruct (getNewToken_cases lib client w)
    as [(r & -> & Hr) | [(r & authUrl & -> & Hr) |
        (authUrl & token & client' & text & data & d &
         Htoken & Hset & Htext & Hdata & Hstore & ->)]];
    [left; done | left; done |].
  right. exists token, client', text, data. repeat (split; [done|]).
  cbn [fst snd disk console]. split; [|split].
  - rewrite (read_store _ _ _ _ [auth.TOKEN_PATH] Hstore).
    by rewrite bool_decide_eq_true_2.
  - intros q Hq. rewrite (stat_store _ _ _ _ q Hstore).
    by rewrite bool_decide_eq_false_2.
  - rewrite last_app. reflexivity.
Qed.

(** A first authorization, with [credentials.json] alone on the disk. *)
Lemma getNewToken_stores_or_leaves_witness :
  fs.read [auth.TOKEN_PATH]
    (disk (snd (auth.getNewToken sampleLib sampleClient freshWorld))) =
    Some (FText (lit "the token")) /\
  fs.read [lit "credentials.json"]
    (disk (snd (auth.getNewToken sampleLib sampleClient freshWorld))) =
    Some (FText (lit "the credentials")).
Proof.
  destruct (getNewToken_stores_or_leaves sampleLib sampleClient freshWorld)
    as [[Hr _] | (token & client' & text & data & _ & _ & Htext & Hdata & _ & Hread & _)].
  - exfalso. eapply Hr. vm_compute. reflexivity.
  - injection Htext as <-. injection Hdata as <-. split; [exact Hread|].
    vm_compute. reflexivity.
Defined.

(** X20.  The stored token is used again.  Once [getNewToken] has been
    fulfilled, [readFileSync] finds in [token.json] the bytes of what
    [JSON.stringify] made of the token; and a call of [authorize] on the
    disk it left, when [JSON.parse] accepts these bytes, resolves with the
    client made from [credentials.json] and holding the parsed token: no
    code is asked for, nothing is printed and the disk is not touched. *)
Theorem stored_token_is_reused lib client w client1 w1 :
  auth.getNewToken lib client w = (auth.Settles (Fulfilled client1), w1) ->
  exists token text data,
    auth.getToken lib client
      (VStr (auth.question lib (lit "Enter code from URL: "))) = inr token /\
    auth.JSON_stringify lib token = inr text /\
    fs.toFileData text = Some data /\
    readFileSync auth.TOKEN_PATH (disk w1) =
      inr (VObj (CBuffer (content data)) []) /\
    forall c parsed c',
      fst (auth.newClient lib w) = inr c ->
      auth.JSON_parse lib (VObj (CBuffer (content data)) []) = inr parsed ->
      auth.setCredentials lib c parsed = inr c' ->
      auth.authorize lib w1 = (auth.Settles (Fulfilled c'), w1).
Proof.
  intros Hnew.
  destruct (getNewToken_cases lib client w)
    as [(r & E & Hr) | [(r & authUrl & E & Hr) |
        (authUrl & token & client' & text & data & d &
         Htoken & Hset & Htext & Hdata & Hstore & E)]];
    rewrite E in Hnew.
  - injection Hnew as -> _. by destruct (Hr client1).
  - injection Hnew as -> _. by destruct (Hr client1).
  - injection Hnew as _ <-. exists token, text, data.
    repeat (split; [done|]).
    assert (Hread : readFileSync auth.TOKEN_PATH d =
                    inr (VObj (CBuffer (content data)) [])).
    { unfold readFileSync. rewrite resolve_TOKEN_PATH.
      rewrite (stat_store _ _ _ _ [auth.TOKEN_PATH] Hstore).
      by rewrite bool_decide_eq_true_2. }
    split; [exact Hread|]. intros c parsed c' Hc Hparsed Hset'.
    unfold auth.authorize.
    set (w1 := {| disk := d; console := _ |}).
    assert (Hc1 : fst (auth.newClient lib w1) = inr c).
    { rewrite <- Hc. apply newClient_disk. cbn [disk w1].
      rewrite (stat_store _ _ _ _ _ Hstore). by rewrite bool_decide_eq_false_2. }
    pose proof (newClient_world lib w1) as Hw1.
    destruct (auth.newClient lib w1) as [res w2]. cbn in Hc1, Hw1. subst res w2.
    unfold auth.withStoredToken, mbind, Sync_bind, sbind, fromDisk, lift.
    cbn [disk w1]. by rewrite Hread, Hparsed, Hset'.
Qed.

(** The second authorization finds the token of the first. *)
Lemma stored_token_is_reused_witness :
  auth.authorize sampleLib
    (snd (auth.getNewToken sampleLib sampleClient freshWorld)) =
  (auth.Settles
     (Fulfilled
        (obj [("_clientId", str "id"); ("_clientSecret", str "secret");
              ("redirectUri", str "http://localhost");
              ("credentials", sampleToken)])),
   snd (auth.getNewToken sampleLib sampleClient freshWorld)).
Proof.
  destruct (stored_token_is_reused sampleLib sampleClient freshWorld
              (obj [("_clientId", str "id"); ("_clientSecret", str "secret");
                    ("redirectUri", str "http://localhost");
                    ("credentials", sampleToken)])
              (snd (auth.getNewToken sampleLib sampleClient freshWorld)) eq_refl)
    as (token & text & data & _ & Htext & Hdata & _ & Hagain).
  injection Htext as <-. injection Hdata as <-.
  exact (Hagain sampleClient sampleToken _ eq_refl eq_refl eq_refl).
Defined.

(** X21.  A token file that cannot be used.  Take a working directory
    from whose [credentials.json] the client can be made.  When there is
    no [token.json], when [JSON.parse] refuses its bytes, or when
    [setCredentials] refuses the parsed token, the error is swallowed and
    [authorize] ends as [getNewToken] ends with the new client.  When a
    directory has the place of [token.json], [authorize] can never be
    fulfilled: the token cannot be read, and the new one cannot be
    written. *)
Theorem unusable_token lib w c :
  fst (auth.newClient lib w) = inr c ->
  (fs.stat [auth.TOKEN_PATH] (disk w) = None ->
     auth.authorize lib w = auth.getNewToken lib c w) /\
  (forall data e,
     fs.read [auth.TOKEN_PATH] (disk w) = Some data ->
     auth.JSON_parse lib (VObj (CBuffer (content data)) []) = inl e ->
     auth.authorize lib w = auth.getNewToken lib c w) /\
  (forall data parsed e,
     fs.read [auth.TOKEN_PATH] (disk w) = Some data ->
     auth.JSON_parse lib (VObj (CBuffer (content data)) []) = inr parsed ->
     auth.setCredentials lib c parsed = inl e ->
     auth.authorize lib w = auth.getNewToken lib c w) /\
  (fs.stat [auth.TOKEN_PATH] (disk w) = Some fs.KDir ->
     auth.authorize lib w = auth.getNewToken lib c w /\
     forall c', fst (auth.authorize lib w) <> auth.Settles (Fulfilled c')).
Proof.
  intros Hc.
  assert (Hfall : forall e, fst (auth.withStoredToken lib c w) = inl e ->
            auth.authorize lib w = auth.getNewToken lib c w).
  { intros e He. unfold auth.authorize.
    pose proof (newClient_world lib w) as Hw.
    destruct (auth.newClient lib w) as [res w1]. cbn in Hc, Hw. subst res w1.
    pose proof (withStoredToken_world lib c w) as Hw.
    destruct (auth.withStoredToken lib c w) as [res w2]. cbn in He, Hw.
    by subst res w2. }
  assert (Hfile : forall data,
            fs.read [auth.TOKEN_PATH] (disk w) = Some data ->
            readFileSync auth.TOKEN_PATH (disk w) =
              inr (VObj (CBuffer (content data)) [])).
  { intros data Hread. unfold readFileSync. rewrite resolve_TOKEN_PATH.
    rewrite read_stat in Hread.
    destruct (fs.stat [auth.TOKEN_PATH] (disk w)) as [[d|]|]; try done.
    by injection Hread as ->. }
  split; [|split; [|split]].
  - intros Hnone. eapply Hfall.
    unfold auth.withStoredToken, mbind, Sync_bind, sbind, fromDisk, lift, readFileSync.
    rewrite resolve_TOKEN_PATH, Hnone. reflexivity.
  - intros data e Hread Hparse. apply (Hfall e).
    unfold auth.withStoredToken, mbind, Sync_bind, sbind, fromDisk, lift.
    by rewrite (Hfile data Hread), Hparse.
  - intros data parsed e Hread Hparse Hset. apply (Hfall e).
    unfold auth.withStoredToken, mbind, Sync_bind, sbind, fromDisk, lift.
    by rewrite (Hfile data Hread), Hparse, Hset.
  - intros Hdir.
    assert (E : auth.authorize lib w = auth.getNewToken lib c w).
    { eapply Hfall.
      unfold auth.withStoredToken, mbind, Sync_bind, sbind, fromDisk, lift,
        readFileSync.
      rewrite resolve_TOKEN_PATH, Hdir. reflexivity. }
    split; [exact E|]. rewrite E. intros c' Hc'.
    destruct (getNewToken_cases lib c w)
      as [(r & E' & Hr) | [(r & authUrl & E' & Hr) |
          (authUrl & token & client' & text & data & d &
           Htoken & Hset & Htext & Hdata & Hstore & E')]];
      rewrite E' in Hc'; cbn in Hc'.
    + by destruct (Hr c').
    + by destruct (Hr c').
    + clear -Hstore Hdir. destruct (disk w) as [d0|es]; [done|].
      rewrite stat_cons in Hdir. cbn in Hstore.
      destruct (es !! auth.TOKEN_PATH) as [[d1|es1]|]; done.
Qed.

(** A directory in the place of [token.json]: the first authorization
    cannot be fulfilled. *)
Lemma unusable_token_witness :
  auth.authorize sampleLib tokenDirWorld =
    auth.getNewToken sampleLib sampleClient tokenDirWorld /\
  forall c',
    fst (auth.authorize sampleLib tokenDirWorld) <> auth.Settles (Fulfilled c').
Proof.
  exact (proj2 (proj2 (proj2
           (unusable_token sampleLib tokenDirWorld sampleClient eq_refl)))
           eq_refl).
Defined.
